(** * Gemini web client: the response decoder and the chat thread

    A shallow embedding of [GeminiClient] and [ChatSession]
    (JavaScript, ES module, hence strict mode) together with the part of
    the JavaScript run time that the two classes rely on: strings of
    UTF-16 code units, the values produced by [JSON.parse], property
    reads and writes, truthiness, [ToString], and the three regular
    expressions of the decoder. *)

From stdpp Require Import base option list pretty.
From Stdlib Require Import NArith ZArith.
From Stdlib Require String Ascii.

Local Close Scope string_scope.
Local Open Scope list_scope.

(** ** Strings *)

(** A JavaScript string is a sequence of 16-bit code units. *)
Abbreviation jsstring := (list N).

(** An ASCII literal as a JavaScript string. *)
Definition str (s : string) : jsstring :=
  map Ascii.N_of_ascii (String.list_ascii_of_string s).

(** An ASCII literal in which an apostrophe stands for a double quote. *)
Definition quoted (s : string) : jsstring :=
  map (fun c => if (c =? 39)%N then 34%N else c) (str s).

Definition jsstring_eqb (a b : jsstring) : bool := bool_decide (a = b).

Definition in_range (lo hi c : N) : bool := (lo <=? c)%N && (c <=? hi)%N.

(** [\d] and [\w] of a regular expression without the [u] and [i] flags. *)
Definition is_digit (c : N) : bool := in_range 48 57 c.
Definition is_word (c : N) : bool :=
  in_range 97 122 c || in_range 65 90 c || is_digit c || (c =? 95)%N.

(** WhiteSpace and LineTerminator of ECMAScript: what [trim] strips. *)
Definition is_js_space (c : N) : bool :=
  (c =? 9)%N || (c =? 10)%N || (c =? 11)%N || (c =? 12)%N || (c =? 13)%N
  || (c =? 32)%N || (c =? 160)%N || (c =? 5760)%N || in_range 8192 8202 c
  || (c =? 8232)%N || (c =? 8233)%N || (c =? 8239)%N || (c =? 8287)%N
  || (c =? 12288)%N || (c =? 65279)%N.

Fixpoint drop_spaces (s : jsstring) : jsstring :=
  match s with
  | c :: s' => if is_js_space c then drop_spaces s' else s
  | [] => []
  end.

(** [String.prototype.trim]. *)
Definition trim (s : jsstring) : jsstring :=
  rev (drop_spaces (rev (drop_spaces s))).

(** [s.split(sep)] for a separator of one code unit: never empty. *)
Fixpoint split_on (sep : N) (s : jsstring) : list jsstring :=
  match s with
  | [] => [[]]
  | c :: s' =>
      if (c =? sep)%N then [] :: split_on sep s'
      else match split_on sep s' with
           | seg :: segs => (c :: seg) :: segs
           | [] => [[c]]
           end
  end.

(** [s.startsWith(p)], with the rest of [s] after [p]. *)
Fixpoint strip_prefix (p s : jsstring) : option jsstring :=
  match p, s with
  | [], _ => Some s
  | a :: p', b :: s' => if (a =? b)%N then strip_prefix p' s' else None
  | _ :: _, [] => None
  end.

(** [s.includes(sub)] *)
Fixpoint includes (sub s : jsstring) : bool :=
  match strip_prefix sub s with
  | Some _ => true
  | None => match s with _ :: s' => includes sub s' | [] => false end
  end.

(** The longest prefix of code units satisfying [f], and the rest. *)
Fixpoint span (f : N -> bool) (s : jsstring) : jsstring * jsstring :=
  match s with
  | c :: s' => if f c then let '(a, b) := span f s' in (c :: a, b) else ([], s)
  | [] => ([], [])
  end.

(** The property key of an array index: its decimal digits. *)
Definition index_key (i : nat) : jsstring := str (pretty (N.of_nat i)).

(** ** The engine: what IEEE doubles and engine-written messages decide *)

(** The decoder copies numbers around, tests them for truthiness and
    prints them; an object that carries its own [length] can also bound a
    loop.  Each of these is decided by the IEEE double behind a JSON
    number literal, and the text of a [SyntaxError] is written by the
    engine.  The model takes them as an interface. *)
Class Engine := {
  (** the Number type *)
  number : Type;
  (** the Number value of a JSON number token *)
  number_of_literal : jsstring -> number;
  (** ToBoolean: false on [+0], [-0] and [NaN] *)
  number_truthy : number -> bool;
  (** Number::toString in radix 10 *)
  number_toString : number -> jsstring;
  (** StringToNumber, [NaN] included *)
  string_toNumber : jsstring -> number;
  (** for a loop [for (let i = 0; i < L; i++)]: the first index at which
      [i < L] is false, or [None] when there is none (the counter stops
      growing at 2^53, so every [L] above that never stops the loop) *)
  number_loop_bound : number -> option nat;
  (** whether the message of the [SyntaxError] that [JSON.parse] raises
      on this text contains the word [timeout] (engines quote the text) *)
  syntaxError_mentions_timeout : jsstring -> bool;
  (** whether the message of the [TypeError] that a write to a property
      of this string raises contains the word [timeout] (V8 quotes the
      string) *)
  typeError_mentions_timeout : jsstring -> bool;
  (** whether [new URL(s)] accepts [s] *)
  url_is_valid : jsstring -> bool;
}.

(** *** A reference engine

    An engine to run the model on the concrete responses of this file,
    which hold no number but [0] and come with no proxy.  Numbers are
    kept as the exact decimals their literals denote: a double prints
    back the digits of a literal of at most 15 significant digits within
    the range of normal doubles, so on those the engine below and IEEE
    arithmetic agree.  Its [SyntaxError] messages name the offending
    code unit and its position only, as Node.js up to version 18 does. *)

Inductive decimal :=
| DNaN
| DInf (negative : bool)
| DDec (negative : bool) (mantissa : N) (exponent : Z). (* [mantissa * 10^exponent], with its sign *)

Definition N_of_digits (ds : jsstring) : N :=
  fold_left (fun a c => (10 * a + (c - 48))%N) ds 0%N.

(** [sign? digits] as it stands in an exponent part. *)
Definition Z_of_signed_digits (s : jsstring) : Z :=
  match s with
  | 45%N :: ds => (- Z.of_N (N_of_digits ds))%Z
  | 43%N :: ds => Z.of_N (N_of_digits ds)
  | _ => Z.of_N (N_of_digits s)
  end.

(** [digits (. digits)? ([eE] sign? digits)?] read as a decimal; the
    caller has checked the shape. *)
Definition decimal_of_unsigned (negative : bool) (s : jsstring) : decimal :=
  let '(ip, r1) := span is_digit s in
  let '(fp, r2) := match r1 with
                   | 46%N :: r => span is_digit r
                   | _ => ([], r1)
                   end in
  let ex := match r2 with
            | _ :: r => Z_of_signed_digits r
            | [] => 0%Z
            end in
  DDec negative (N_of_digits (ip ++ fp)) (ex - Z.of_nat (length fp))%Z.

Definition decimal_of_literal (l : jsstring) : decimal :=
  match l with
  | 45%N :: s => decimal_of_unsigned true s
  | _ => decimal_of_unsigned false l
  end.

(** A positive decimal rounds to zero when it is at most [2^-1075]. *)
Definition decimal_underflows (m : N) (e : Z) : bool :=
  match e with
  | Zneg k => (m * 2 ^ 1075 <=? 10 ^ Npos k)%N
  | _ => false
  end.

Definition decimal_truthy (d : decimal) : bool :=
  match d with
  | DNaN => false
  | DInf _ => true
  | DDec _ m e => negb (m =? 0)%N && negb (decimal_underflows m e)
  end.

(** The digits of [m] without trailing zeros, and how many were cut. *)
Definition significant_digits (m : N) : jsstring * nat :=
  let ds := str (pretty m) in
  let '(zeros, rest) := span (fun c => (c =? 48)%N) (rev ds) in
  (rev rest, length zeros).

Definition zeros (n : nat) : jsstring := replicate n 48%N.

(** Number::toString on the digits [s] (there are [k] of them) of a
    positive number [0.s * 10^n]. *)
Definition format_decimal (s : jsstring) (n : Z) : jsstring :=
  let k := Z.of_nat (length s) in
  let exponent_part :=
    (101%N :: (if (0 <=? n - 1)%Z then 43%N else 45%N)
           :: str (pretty (Z.abs_N (n - 1)))) in
  if ((k <=? n) && (n <=? 21))%Z then s ++ zeros (Z.to_nat (n - k))
  else if ((0 <? n) && (n <=? 21))%Z then
    take (Z.to_nat n) s ++ 46%N :: drop (Z.to_nat n) s
  else if ((-6 <? n) && (n <=? 0))%Z then
    48%N :: 46%N :: zeros (Z.to_nat (- n)) ++ s
  else match s with
       | [d] => d :: exponent_part
       | d :: ds => d :: 46%N :: ds ++ exponent_part
       | [] => []
       end.

Definition decimal_toString (d : decimal) : jsstring :=
  match d with
  | DNaN => str "NaN"
  | DInf negative => (if negative then [45%N] else []) ++ str "Infinity"
  | DDec negative m e =>
      if negb (decimal_truthy d) then str "0"
      else
        let '(s, cut) := significant_digits m in
        (if negative then [45%N] else [])
          ++ format_decimal s (Z.of_nat (length s) + Z.of_nat cut + e)
  end.

(** [digits? (. digits?)? ([eE] sign? digits)?] with a digit before or
    after the point: StrUnsignedDecimalLiteral without [Infinity]. *)
Definition is_unsigned_decimal (s : jsstring) : bool :=
  let '(ip, r1) := span is_digit s in
  let '(fp, r2) := match r1 with
                   | 46%N :: r => span is_digit r
                   | _ => ([], r1)
                   end in
  negb (Nat.eqb (length ip + length fp) 0)
  && match r2 with
     | [] => true
     | c :: r =>
         ((c =? 101)%N || (c =? 69)%N)
         && match r with
            | 43%N :: ds | 45%N :: ds => negb (Nat.eqb (length ds) 0) && forallb is_digit ds
            | ds => negb (Nat.eqb (length ds) 0) && forallb is_digit ds
            end
     end.

Definition digit_in_radix (radix : N) (c : N) : option N :=
  match (if is_digit c then Some (c - 48)%N
         else if in_range 97 102 c then Some (c - 87)%N
         else if in_range 65 70 c then Some (c - 55)%N
         else None) with
  | Some d => if (d <? radix)%N then Some d else None
  | None => None
  end.

(** [0x..], [0o..], [0b..] after the prefix. *)
Definition decimal_of_radix (radix : N) (ds : jsstring) : decimal :=
  match ds with
  | [] => DNaN
  | _ =>
      match fold_left (fun a c => match a, digit_in_radix radix c with
                                  | Some n, Some d => Some (radix * n + d)%N
                                  | _, _ => None
                                  end) ds (Some 0%N) with
      | Some n => DDec false n 0
      | None => DNaN
      end
  end.

(** StringToNumber. *)
Definition decimal_of_string (s : jsstring) : decimal :=
  let unsigned (negative : bool) (u : jsstring) :=
    if jsstring_eqb u (str "Infinity") then DInf negative
    else if is_unsigned_decimal u then decimal_of_unsigned negative u
    else DNaN in
  match trim s with
  | [] => DDec false 0 0
  | 48%N :: 120%N :: ds | 48%N :: 88%N :: ds => decimal_of_radix 16 ds
  | 48%N :: 111%N :: ds | 48%N :: 79%N :: ds => decimal_of_radix 8 ds
  | 48%N :: 98%N :: ds | 48%N :: 66%N :: ds => decimal_of_radix 2 ds
  | 43%N :: u => unsigned false u
  | 45%N :: u => unsigned true u
  | u => unsigned false u
  end.

(** The least natural number that is not below the decimal, when it is
    at most 2^53. *)
Definition decimal_loop_bound (d : decimal) : option nat :=
  match d with
  | DNaN => Some 0
  | DInf negative => if negative then Some 0 else None
  | DDec negative m e =>
      if negative || negb (decimal_truthy d) then Some 0
      else
        let ceiling := match e with
                       | Zneg k => ((m + 10 ^ Npos k - 1) / 10 ^ Npos k)%N
                       | _ => (m * 10 ^ Z.to_N e)%N
                       end in
        if (ceiling <=? 2 ^ 53)%N then Some (N.to_nat ceiling) else None
  end.

(** The reference engine takes for a URL what starts with a scheme and
    [://]; the model asks about the proxy setting only. *)
Fixpoint until_scheme_end (s : jsstring) : option jsstring :=
  match s with
  | 58%N :: 47%N :: 47%N :: _ => Some []
  | c :: s' =>
      if is_word c then
        match until_scheme_end s' with
        | Some scheme => Some (c :: scheme)
        | None => None
        end
      else None
  | [] => None
  end.

Definition reference_engine : Engine := {|
  number := decimal;
  number_of_literal := decimal_of_literal;
  number_truthy := decimal_truthy;
  number_toString := decimal_toString;
  string_toNumber := decimal_of_string;
  number_loop_bound := decimal_loop_bound;
  syntaxError_mentions_timeout := fun _ => false;
  typeError_mentions_timeout := includes (str "timeout");
  url_is_valid := fun s =>
    match until_scheme_end s with
    | Some scheme => negb (Nat.eqb (length scheme) 0)
    | None => false
    end;
|}.

(** ** Outcomes of a call *)

Inductive js_error :=
| Error (message : jsstring)      (* [new Error(message)], thrown by the code *)
| TypeError                       (* raised by the engine *)
| TypeErrorOn (target : jsstring) (* raised by the engine on a write to a property of the string [target] *)
| SyntaxError (source : jsstring) (* raised by [JSON.parse] on [source] *)
| ParseFailure (cause : js_error) (* [new Error(`Failed to parse response: ${cause.message}`)] *)
| AxiosError (code : option jsstring) (message : jsstring) (status : option Z).

(** What a call does: return, throw, or run for ever. *)
Inductive outcome (A : Type) :=
| Returns (a : A)
| Throws (e : js_error)
| Diverges.
Arguments Returns {A} a.
Arguments Throws {A} e.
Arguments Diverges {A}.

#[export] Instance outcome_ret : MRet outcome := @Returns.
#[export] Instance outcome_bind : MBind outcome := fun A B f m =>
  match m with
  | Returns a => f a
  | Throws e => Throws e
  | Diverges => Diverges
  end.

(** [try { m } catch (e) { h e }] *)
Definition try_catch {A} (m : outcome A) (h : js_error -> outcome A) : outcome A :=
  match m with
  | Throws e => h e
  | _ => m
  end.

(** [try { m } catch (e) { }], where [a] is what the variables that [m]
    assigns hold when it throws. *)
Definition or_else {A} (m : outcome A) (a : A) : outcome A :=
  try_catch m (fun _ => Returns a).

Section Values.
Context `{E : Engine}.

Local Set Warnings "-register-all".

(** The values [JSON.parse] returns, and [undefined].  An object keeps
    its members in source order; a later member of the same key wins. *)
Inductive value :=
| VUndef
| VNull
| VBool (b : bool)
| VNum (n : number)
| VStr (s : jsstring)
| VArr (items : list value)
| VObj (members : list (jsstring * value)).

(** ToBoolean. *)
Definition truthy (v : value) : bool :=
  match v with
  | VUndef | VNull => false
  | VBool b => b
  | VNum n => number_truthy n
  | VStr s => match s with [] => false | _ => true end
  | VArr _ | VObj _ => true
  end.

(** [a || b] and [a && b] return one of their operands. *)
Definition js_or (a b : value) : value := if truthy a then a else b.

(** The own property [k] of an object built by [JSON.parse]. *)
Fixpoint own_property (k : jsstring) (members : list (jsstring * value)) : option value :=
  match members with
  | [] => None
  | (k', v) :: rest =>
      match own_property k rest with
      | Some w => Some w
      | None => if jsstring_eqb k' k then Some v else None
      end
  end.

(** [v[i]] for an index [i].  Reading a property of [undefined] or
    [null] throws; numbers and booleans have no indexed property;
    a string yields the code unit at [i] as a string. *)
Definition get (v : value) (i : nat) : outcome value :=
  match v with
  | VUndef | VNull => Throws TypeError
  | VBool _ | VNum _ => Returns VUndef
  | VStr s => Returns (match s !! i with Some c => VStr [c] | None => VUndef end)
  | VArr items => Returns (default VUndef (items !! i))
  | VObj members => Returns (default VUndef (own_property (index_key i) members))
  end.

(** [Array.isArray(v)] *)
Definition isArray (v : value) : bool :=
  match v with VArr _ => true | _ => false end.

(** ToString.  An array joins its elements with commas, [null] and
    [undefined] elements printing as the empty string.  An object built
    by [JSON.parse] prints as [[object Object]] unless it has an own
    member [toString]: that member is not callable, [valueOf] returns
    the object, and the conversion throws. *)
Fixpoint toString (v : value) : outcome jsstring :=
  match v with
  | VUndef => Returns (str "undefined")
  | VNull => Returns (str "null")
  | VBool true => Returns (str "true")
  | VBool false => Returns (str "false")
  | VNum n => Returns (number_toString n)
  | VStr s => Returns s
  | VArr items =>
      (fix join (first : bool) (l : list value) : outcome jsstring :=
         match l with
         | [] => Returns []
         | x :: l' =>
             s ← match x with
                 | VUndef | VNull => Returns []
                 | _ => toString x
                 end;
             rest ← join false l';
             Returns ((if first then [] else [44%N]) ++ s ++ rest)
         end) true items
  | VObj members =>
      match own_property (str "toString") members with
      | Some _ => Throws TypeError
      | None => Returns (str "[object Object]")
      end
  end.

End Values.

(** ** [JSON.parse] *)

Section JSON.
Context `{E : Engine}.

Inductive token :=
| TLBracket | TRBracket | TLBrace | TRBrace | TComma | TColon
| TString (s : jsstring)
| TNumber (literal : jsstring)
| TTrue | TFalse | TNull.

(** Where the scanner is inside a number [-? int frac? exp?]. *)
Inductive num_phase :=
| NMinus      (* after [-]: a digit must follow *)
| NZero       (* after a leading [0] *)
| NInt        (* inside [[1-9][0-9]*] *)
| NDot        (* after [.]: a digit must follow *)
| NFrac       (* inside the fraction digits *)
| NExp        (* after [e] or [E]: a sign or a digit must follow *)
| NExpSign    (* after the sign of the exponent: a digit must follow *)
| NExpDigits. (* inside the exponent digits *)

(** The scanner reads one code unit at a time; accumulated text is kept
    reversed. *)
Inductive lex_state :=
| LStart
| LString (acc : jsstring)
| LEscape (acc : jsstring)
| LUnicode (acc : jsstring) (seen : nat) (code : N)
| LNumber (phase : num_phase) (acc : jsstring)
| LWord (rest : jsstring) (t : token).

Definition hex_value (c : N) : option N :=
  if is_digit c then Some (c - 48)%N
  else if in_range 97 102 c then Some (c - 87)%N
  else if in_range 65 70 c then Some (c - 55)%N
  else None.

(** JSON white space: tab, line feed, carriage return, space. *)
Definition is_json_space (c : N) : bool :=
  (c =? 9)%N || (c =? 10)%N || (c =? 13)%N || (c =? 32)%N.

(** A code unit met between tokens. *)
Definition lex_start (c : N) : option (lex_state * list token) :=
  if is_json_space c then Some (LStart, [])
  else if (c =? 91)%N then Some (LStart, [TLBracket])
  else if (c =? 93)%N then Some (LStart, [TRBracket])
  else if (c =? 123)%N then Some (LStart, [TLBrace])
  else if (c =? 125)%N then Some (LStart, [TRBrace])
  else if (c =? 44)%N then Some (LStart, [TComma])
  else if (c =? 58)%N then Some (LStart, [TColon])
  else if (c =? 34)%N then Some (LString [], [])
  else if (c =? 45)%N then Some (LNumber NMinus [c], [])
  else if (c =? 48)%N then Some (LNumber NZero [c], [])
  else if in_range 49 57 c then Some (LNumber NInt [c], [])
  else if (c =? 116)%N then Some (LWord (str "rue") TTrue, [])
  else if (c =? 102)%N then Some (LWord (str "alse") TFalse, [])
  else if (c =? 110)%N then Some (LWord (str "ull") TNull, [])
  else None.

(** Whether a number may end in this phase. *)
Definition num_complete (p : num_phase) : bool :=
  match p with
  | NZero | NInt | NFrac | NExpDigits => true
  | NMinus | NDot | NExp | NExpSign => false
  end.

(** The phase after one more code unit of the number, if it is one. *)
Definition num_next (p : num_phase) (c : N) : option num_phase :=
  let is_e := (c =? 101)%N || (c =? 69)%N in
  match p with
  | NMinus => if (c =? 48)%N then Some NZero
              else if in_range 49 57 c then Some NInt else None
  | NZero => if (c =? 46)%N then Some NDot else if is_e then Some NExp else None
  | NInt => if is_digit c then Some NInt
            else if (c =? 46)%N then Some NDot else if is_e then Some NExp else None
  | NDot => if is_digit c then Some NFrac else None
  | NFrac => if is_digit c then Some NFrac else if is_e then Some NExp else None
  | NExp => if is_digit c then Some NExpDigits
            else if (c =? 43)%N || (c =? 45)%N then Some NExpSign else None
  | NExpSign => if is_digit c then Some NExpDigits else None
  | NExpDigits => if is_digit c then Some NExpDigits else None
  end.

(** One step of the scanner: the new state and the tokens completed by
    this code unit, or [None] on a syntax error. *)
Definition lex_step (st : lex_state) (c : N) : option (lex_state * list token) :=
  match st with
  | LStart => lex_start c
  | LString acc =>
      if (c =? 34)%N then Some (LStart, [TString (rev acc)])
      else if (c =? 92)%N then Some (LEscape acc, [])
      else if (c <? 32)%N then None
      else Some (LString (c :: acc), [])
  | LEscape acc =>
      if (c =? 34)%N || (c =? 92)%N || (c =? 47)%N then Some (LString (c :: acc), [])
      else if (c =? 98)%N then Some (LString (8%N :: acc), [])
      else if (c =? 102)%N then Some (LString (12%N :: acc), [])
      else if (c =? 110)%N then Some (LString (10%N :: acc), [])
      else if (c =? 114)%N then Some (LString (13%N :: acc), [])
      else if (c =? 116)%N then Some (LString (9%N :: acc), [])
      else if (c =? 117)%N then Some (LUnicode acc 0 0%N, [])
      else None
  | LUnicode acc seen code =>
      match hex_value c with
      | None => None
      | Some h =>
          let code' := (16 * code + h)%N in
          if Nat.eqb seen 3 then Some (LString (code' :: acc), [])
          else Some (LUnicode acc (S seen) code', [])
      end
  | LNumber p acc =>
      match num_next p c with
      | Some p' => Some (LNumber p' (c :: acc), [])
      | None =>
          if num_complete p then
            match lex_start c with
            | Some (st', ts) => Some (st', TNumber (rev acc) :: ts)
            | None => None
            end
          else None
      end
  | LWord rest t =>
      match rest with
      | [] => None
      | r :: rest' =>
          if (c =? r)%N then
            match rest' with
            | [] => Some (LStart, [t])
            | _ => Some (LWord rest' t, [])
            end
          else None
      end
  end.

Fixpoint lex (st : lex_state) (s : jsstring) : option (list token) :=
  match s with
  | [] =>
      match st with
      | LStart => Some []
      | LNumber p acc => if num_complete p then Some [TNumber (rev acc)] else None
      | _ => None
      end
  | c :: s' =>
      match lex_step st c with
      | Some (st', ts) => match lex st' s' with
                          | Some rest => Some (ts ++ rest)
                          | None => None
                          end
      | None => None
      end
  end.

(** An open container: an array with its elements so far, or an object
    with its members so far and the key that waits for its value; both
    lists reversed. *)
Inductive frame :=
| FArr (items : list value)
| FObj (members : list (jsstring * value)) (pending : option jsstring).

Inductive parse_mode :=
| MValue (may_close : bool) (* a value; [[]] may close right after [[] *)
| MKey (may_close : bool)   (* a member key; [}] may close right after [{] *)
| MColon                    (* the colon after a key *)
| MAfter                    (* after a value inside a container *)
| MDone (v : value).        (* the whole text was one value *)

Definition parse_state : Type := list frame * parse_mode.

(** A value is complete: it goes into the innermost open container. *)
Definition complete (stack : list frame) (v : value) : option parse_state :=
  match stack with
  | [] => Some ([], MDone v)
  | FArr items :: stack' => Some (FArr (v :: items) :: stack', MAfter)
  | FObj members (Some k) :: stack' =>
      Some (FObj ((k, v) :: members) None :: stack', MAfter)
  | FObj _ None :: _ => None
  end.

Definition parse_step (ps : parse_state) (t : token) : option parse_state :=
  let '(stack, mode) := ps in
  match mode with
  | MValue may_close =>
      match t with
      | TLBracket => Some (FArr [] :: stack, MValue true)
      | TLBrace => Some (FObj [] None :: stack, MKey true)
      | TString s => complete stack (VStr s)
      | TNumber l => complete stack (VNum (number_of_literal l))
      | TTrue => complete stack (VBool true)
      | TFalse => complete stack (VBool false)
      | TNull => complete stack VNull
      | TRBracket =>
          match may_close, stack with
          | true, FArr [] :: stack' => complete stack' (VArr [])
          | _, _ => None
          end
      | _ => None
      end
  | MKey may_close =>
      match t with
      | TString k =>
          match stack with
          | FObj members None :: stack' => Some (FObj members (Some k) :: stack', MColon)
          | _ => None
          end
      | TRBrace =>
          match may_close, stack with
          | true, FObj [] None :: stack' => complete stack' (VObj [])
          | _, _ => None
          end
      | _ => None
      end
  | MColon => match t with TColon => Some (stack, MValue false) | _ => None end
  | MAfter =>
      match stack, t with
      | FArr _ :: _, TComma => Some (stack, MValue false)
      | FArr items :: stack', TRBracket => complete stack' (VArr (rev items))
      | FObj _ None :: _, TComma => Some (stack, MKey false)
      | FObj members None :: stack', TRBrace => complete stack' (VObj (rev members))
      | _, _ => None
      end
  | MDone _ => None
  end.

Fixpoint parse_tokens (ps : parse_state) (ts : list token) : option value :=
  match ts with
  | [] => match ps with (_, MDone v) => Some v | _ => None end
  | t :: ts' =>
      match parse_step ps t with
      | Some ps' => parse_tokens ps' ts'
      | None => None
      end
  end.

(** [JSON.parse(text)] for a string [text]. *)
Definition JSON_parse (text : jsstring) : outcome value :=
  match lex LStart text with
  | Some ts =>
      match parse_tokens ([], MValue false) ts with
      | Some v => Returns v
      | None => Throws (SyntaxError text)
      end
  | None => Throws (SyntaxError text)
  end.

(** [JSON.parse(v)] for any value: the argument is first converted to a
    string. *)
Definition JSON_parse_value (v : value) : outcome value :=
  text ← toString v; JSON_parse text.

End JSON.

(** ** The regular expressions of the decoder *)

Definition card_content_prefix : jsstring :=
  str "http://googleusercontent.com/card_content/".
Definition immersive_chip_prefix : jsstring :=
  str "http://googleusercontent.com/immersive_entry_chip/".
Definition fence : jsstring := str "```".

(** [/^http:\/\/googleusercontent\.com\/card_content\/\d+/] matches. *)
Definition is_card_content (s : jsstring) : bool :=
  match strip_prefix card_content_prefix s with
  | Some (c :: _) => is_digit c
  | _ => false
  end.

(** [/http:\/\/googleusercontent\.com\/immersive_entry_chip\/(\d+)/g]:
    the text of the leftmost match, which [s.match(...)] puts at index 0
    of its result; [None] is the [null] of no match. *)
Fixpoint first_chip (s : jsstring) : option jsstring :=
  match strip_prefix immersive_chip_prefix s with
  | Some (c :: rest) =>
      if is_digit c then Some (immersive_chip_prefix ++ fst (span is_digit (c :: rest)))
      else match s with _ :: s' => first_chip s' | [] => None end
  | _ => match s with _ :: s' => first_chip s' | [] => None end
  end.

(** The text before the first triple backtick, and the text after it. *)
Fixpoint until_fence (s : jsstring) : option (jsstring * jsstring) :=
  match strip_prefix fence s with
  | Some rest => Some ([], rest)
  | None =>
      match s with
      | c :: s' => match until_fence s' with
                   | Some (body, rest) => Some (c :: body, rest)
                   | None => None
                   end
      | [] => None
      end
  end.

(** [/```(\w+)?\n([\s\S]*?)```/] tried at the start of [s]: group 1
    ([None] when it took no part), group 2, and the length of the match.
    [\w+] is greedy and no word character is a line feed, so the group
    is the whole run of word characters; [[\s\S]*?] is lazy, so group 2
    ends at the first closing fence. *)
Definition fenced_block_at (s : jsstring) : option (option jsstring * jsstring * nat) :=
  match strip_prefix fence s with
  | Some r =>
      let '(tag, r1) := span is_word r in
      match r1 with
      | 10%N :: r2 =>
          match until_fence r2 with
          | Some (body, _) =>
              Some (match tag with [] => None | _ => Some tag end, body,
                    3 + length tag + 1 + length body + 3)
          | None => None
          end
      | _ => None
      end
  | None => None
  end.

(** The [while ((match = codeBlockRegex.exec(text)) !== null)] loop of a
    global regular expression: the leftmost match from [lastIndex] on,
    then on from its end.  [skip] counts the code units still covered by
    the last match. *)
Fixpoint fenced_blocks (skip : nat) (s : jsstring) : list (option jsstring * jsstring) :=
  match s with
  | [] => []
  | _ :: s' =>
      match skip with
      | S k => fenced_blocks k s'
      | O =>
          match fenced_block_at s with
          | Some (tag, body, len) => (tag, body) :: fenced_blocks (len - 1) s'
          | None => fenced_blocks 0 s'
          end
      end
  end.

(** The code points a [for ... of] loop over a string yields: a high
    surrogate followed by a low one is one step. *)
Fixpoint code_points (s : jsstring) : list jsstring :=
  match s with
  | [] => []
  | a :: s' =>
      match s' with
      | b :: r =>
          if in_range 55296 56319 a && in_range 56320 57343 b
          then [a; b] :: code_points r
          else [a] :: code_points s'
      | [] => [[a]]
      end
  end.

(** [String.prototype.toLowerCase], written out on the code units whose
    image is ASCII: the letters A to Z and the Kelvin sign U+212A.  The
    image of every other code unit holds a code unit outside ASCII, and
    [detectMimeType], the one caller, compares the result with ASCII
    keys only; such a code unit is left as it is. *)
Definition toLowerCase (s : jsstring) : jsstring :=
  map (fun c => if in_range 65 90 c then (c + 32)%N
                else if (c =? 8490)%N then 107%N else c) s.

(** ** The decoded data *)

Section Decoder.
Context `{E : Engine}.

(** What [mimeTypes[ext] || 'text/plain'] evaluates to.  The table is an
    object literal, so the two lower-case names it inherits from
    [Object.prototype] are found as well. *)
Inductive mime :=
| Mime (s : jsstring)
| ObjectConstructor   (* [mimeTypes.constructor], the function [Object] *)
| ObjectPrototype.    (* [mimeTypes.__proto__], the object [Object.prototype] *)

Record FileAttachment := {
  fileName : value;
  mimeType : mime;
  file_url : value;
  file_title : value;
  content : value }.

Record CodeBlock := { language : value; code : value }.

Record CodeExecutionResult := { output : value; error : value }.

Record Factuality := { rating : value; confidence : value }.

Record Source := { source_title : value; source_url : value; snippet : value }.

Inductive image_type := web_image | generated_image.

Record Image := { type : image_type; url : value; title : value; alt : value }.

(** The fields of one candidate.  A field that the code leaves [null] when
    the part is absent is an [option]. *)
Record Candidate := {
  rcid : value;
  text : value;
  thoughts : value;
  webImages : list Image;
  generatedImages : list Image;
  images : list Image;
  fileAttachments : list FileAttachment;
  codeBlocks : list CodeBlock;
  codeExecutionResult : option CodeExecutionResult;
  factuality : option Factuality;
  sources : list Source }.

(** The object [parseResponse] returns.  Its top-level fields [text],
    [thoughts], ..., [rcid] are the fields of a candidate; they are kept
    together in [top].  [M] is what the [metadata] field holds. *)
Record GenerationResult (M : Type) := {
  metadata : M;
  candidates : list Candidate;
  top : Candidate }.
Global Arguments metadata {M} _.
Global Arguments candidates {M} _.
Global Arguments top {M} _.

(** *** [GeminiClient] *)

Record GeminiClient := {
  cookies : list (jsstring * jsstring);
  proxy : option jsstring;
  running : bool;
  accessToken : option jsstring;
  timeout : N;
  autoRefresh : bool;
  refreshInterval : N;
  refreshIntervalId : option nat;
  verbose : bool }.

(** The object literal [mimeTypes] of [detectMimeType]. *)
Definition mimeTypes : list (string * string) :=
  [ ("js", "text/javascript"); ("ts", "text/typescript"); ("py", "text/x-python");
    ("cpp", "text/x-c++"); ("c", "text/x-c"); ("h", "text/x-c");
    ("hpp", "text/x-c++"); ("java", "text/x-java"); ("cs", "text/x-csharp");
    ("php", "text/x-php"); ("rb", "text/x-ruby"); ("go", "text/x-go");
    ("rs", "text/x-rust"); ("swift", "text/x-swift"); ("kt", "text/x-kotlin");
    ("html", "text/html"); ("css", "text/css"); ("json", "application/json");
    ("xml", "application/xml");
    ("sh", "application/x-sh"); ("bash", "application/x-sh");
    ("txt", "text/plain"); ("md", "text/markdown");
    ("sql", "application/sql"); ("yaml", "text/yaml"); ("yml", "text/yaml") ]%string.

Fixpoint table_lookup (ext : jsstring) (table : list (string * string)) : option jsstring :=
  match table with
  | [] => None
  | (k, v) :: rest => if jsstring_eqb (str k) ext then Some (str v) else table_lookup ext rest
  end.

(** [detectMimeType(fileName)].  [fileName.split] is a function on
    strings only. *)
Definition detectMimeType (this : GeminiClient) (fileName : value) : outcome mime :=
  if negb (truthy fileName) then Returns (Mime (str "text/plain"))
  else
    match fileName with
    | VStr s =>
        let ext := toLowerCase (default [] (last (split_on 46 s))) in
        match table_lookup ext mimeTypes with
        | Some m => Returns (Mime m)
        | None =>
            if jsstring_eqb ext (str "constructor") then Returns ObjectConstructor
            else if jsstring_eqb ext (str "__proto__") then Returns ObjectPrototype
            else Returns (Mime (str "text/plain"))
        end
    | _ => Throws TypeError
    end.

(** *** Loops *)

(** [for (const x of v)]: arrays and strings are iterable. *)
Definition iterate (v : value) : outcome (list value) :=
  match v with
  | VArr items => Returns items
  | VStr s => Returns (VStr <$> code_points s)
  | _ => Throws TypeError
  end.

(** A loop whose body pushes at most one element per item: the elements
    pushed, and how the loop ended.  A throw leaves the loop with what
    was pushed before it. *)
Fixpoint collect {A} (body : value -> outcome (option A)) (items : list value)
  : list A * outcome unit :=
  match items with
  | [] => ([], Returns ())
  | x :: rest =>
      match body x with
      | Returns o =>
          let '(pushed, ending) := collect body rest in
          (match o with Some a => a :: pushed | None => pushed end, ending)
      | Throws e => ([], Throws e)
      | Diverges => ([], Diverges)
      end
  end.

(** The loop outside any [try]: a throw is the outcome. *)
Definition collect_all {A} (body : value -> outcome (option A)) (items : list value)
  : outcome (list A) :=
  let '(pushed, ending) := collect body items in
  _ ← ending; Returns pushed.

(** *** The fields of a candidate *)

(** Lines 303 to 308: the main text, and the card content that replaces
    a placeholder URL.  [text.match] is a function on strings only. *)
Definition decode_text (candidate : value) : outcome value :=
  c1 ← get candidate 1;
  text ← get c1 0;
  if truthy text then
    match text with
    | VStr s =>
        if is_card_content s then
          c22 ← get candidate 22;
          replacement ← (if truthy c22 then get c22 0 else Returns c22);
          Returns (js_or replacement text)
        else Returns text
    | _ => Throws TypeError
    end
  else Returns text.

(** Lines 311 to 318. *)
Definition decode_thoughts (candidate : value) : value :=
  match
    (c37 ← get candidate 37;
     if truthy c37 then
       c370 ← get c37 0;
       if truthy c370 then get c370 0 else Returns VNull
     else Returns VNull)
  with
  | Returns v => v
  | _ => VNull
  end.

(** One round of the loop over [candidate[30]]. *)
Definition decode_file (this : GeminiClient) (chipMatches : option jsstring) (file : value)
  : outcome (option FileAttachment) :=
  match file with
  | VArr fields =>
      if 5 <=? length fields then
        f0 ← get file 0;
        mime ← detectMimeType this f0;
        f2 ← get file 2;
        f4 ← get file 4;
        Returns (Some {| fileName := js_or f0 (VStr (str "file.txt"));
                         mimeType := mime;
                         file_url := match chipMatches with
                                     | Some m => VStr m
                                     | None => VNull
                                     end;
                         file_title := js_or f2 VNull;
                         content := js_or f4 VNull |})
      else Returns None
  | _ => Returns None
  end.

(** Lines 325 to 346.  [text.match] throws unless [text] is a string;
    the [catch] keeps the attachments pushed before a throw. *)
Definition decode_fileAttachments (this : GeminiClient) (candidate text : value)
  : list FileAttachment :=
  match text with
  | VStr s =>
      let chipMatches := first_chip s in
      match get candidate 30 with
      | Returns (VArr files) => fst (collect (decode_file this chipMatches) files)
      | _ => []
      end
  | _ => []
  end.

(** One round of the loop over [candidate[14]]. *)
Definition decode_code (c : value) : outcome (option CodeBlock) :=
  if truthy c then
    c1 ← get c 1;
    if truthy c1 then
      c0 ← get c 0;
      Returns (Some {| language := js_or c0 (VStr (str "text")); code := c1 |})
    else Returns None
  else Returns None.

(** The fallback: fenced blocks of the text, as [exec] sees it. *)
Definition markdown_code_blocks (text : value) : outcome (list CodeBlock) :=
  s ← toString text;
  Returns ((fun '(tag, body) =>
              {| language := VStr (default (str "text") tag);
                 code := VStr (trim body) |}) <$> fenced_blocks 0 s).

(** Lines 353 to 379. *)
Definition decode_codeBlocks (candidate text : value) : list CodeBlock :=
  let '(primary, ending) :=
    match get candidate 14 with
    | Returns (VArr items) => collect decode_code items
    | Returns _ => ([], Returns ())
    | Throws e => ([], Throws e)
    | Diverges => ([], Diverges)
    end in
  match ending with
  | Returns _ =>
      if (length primary =? 0) && truthy text then
        match markdown_code_blocks text with
        | Returns blocks => blocks
        | _ => primary
        end
      else primary
  | _ => primary
  end.

(** Lines 385 to 395. *)
Definition decode_codeExecutionResult (candidate : value) : option CodeExecutionResult :=
  match
    (c16 ← get candidate 16;
     if truthy c16 then
       out ← get c16 0;
       if truthy out then
         err ← get c16 1;
         Returns (Some {| output := out; error := js_or err VNull |})
       else Returns None
     else Returns None)
  with
  | Returns r => r
  | _ => None
  end.

(** Lines 405 to 410. *)
Definition decode_factuality (candidate : value) : outcome (option Factuality) :=
  c45 ← get candidate 45;
  if truthy c45 then
    r ← get c45 0;
    c ← get c45 1;
    Returns (Some {| rating := js_or r VNull; confidence := js_or c VNull |})
  else Returns None.

(** One round of the loop over [candidate[11]]. *)
Definition decode_source (source : value) : outcome (option Source) :=
  if truthy source then
    s0 ← get source 0;
    if truthy s0 then
      t ← get s0 0;
      u ← get s0 1;
      n ← get s0 2;
      let empty := VStr [] in
      Returns (Some {| source_title := js_or t empty;
                       source_url := js_or u empty;
                       snippet := js_or n empty |})
    else Returns None
  else Returns None.

(** Lines 402 to 424: one [try] around both parts, so a throw in the
    first leaves the sources empty. *)
Definition decode_factuality_sources (candidate : value)
  : option Factuality * list Source :=
  match decode_factuality candidate with
  | Returns f =>
      match get candidate 11 with
      | Returns (VArr items) => (f, fst (collect decode_source items))
      | _ => (f, [])
      end
  | _ => (None, [])
  end.

(** One round of the loop over [candidate[12][1]], which has no [try]. *)
Definition decode_webImage (webImage : value) : outcome (option Image) :=
  w0 ← get webImage 0;
  w00 ← get w0 0;
  u ← get w00 0;
  w7 ← get webImage 7;
  t ← get w7 0;
  w0' ← get webImage 0;
  a ← get w0' 4;
  Returns (Some {| type := web_image; url := u; title := t; alt := a |}).

(** Lines 430 to 440. *)
Definition decode_webImages (candidate : value) : outcome (list Image) :=
  c12 ← get candidate 12;
  if truthy c12 then
    entries ← get c12 1;
    if truthy entries then
      items ← iterate entries;
      collect_all decode_webImage items
    else Returns []
  else Returns [].

(** The object literal of lines 450 to 455. *)
Definition read_generatedImage (genImage : value) : outcome Image :=
  g0 ← get genImage 0;
  g03 ← get g0 3;
  u ← get g03 3;
  g3 ← get genImage 3;
  g36 ← (if truthy g3 then get g3 6 else Returns g3);
  t ← (if truthy g36 then
         n ← toString g36; Returns (str "Generated Image " ++ n)
       else Returns (str "Generated Image"));
  g35 ← (if truthy g3 then get g3 5 else Returns g3);
  g350 ← (if truthy g35 then get g35 0 else Returns g35);
  Returns {| type := generated_image; url := u; title := VStr t;
             alt := if truthy g350 then g350 else VStr [] |}.

(** One round of the loop over [candidate[12][7][0]]: the [try] inside
    the loop skips an image whose fields cannot be read. *)
Definition decode_generatedImage (genImage : value) : outcome (option Image) :=
  or_else (image ← read_generatedImage genImage; Returns (Some image)) None.

(** Lines 446 to 460. *)
Definition decode_generatedImages (candidate : value) : outcome (list Image) :=
  c12 ← get candidate 12;
  if truthy c12 then
    c127 ← get c12 7;
    if truthy c127 then
      entries ← get c127 0;
      if truthy entries then
        items ← iterate entries;
        collect_all decode_generatedImage items
      else Returns []
    else Returns []
  else Returns [].

(** The body of the loop over the candidates, lines 302 to 477. *)
Definition decode_candidate (this : GeminiClient) (candidate : value) : outcome Candidate :=
  text ← decode_text candidate;
  let thoughts := decode_thoughts candidate in
  let fileAttachments := decode_fileAttachments this candidate text in
  let codeBlocks := decode_codeBlocks candidate text in
  let codeExecutionResult := decode_codeExecutionResult candidate in
  let '(factuality, sources) := decode_factuality_sources candidate in
  webImages ← decode_webImages candidate;
  generatedImages ← decode_generatedImages candidate;
  id ← get candidate 0;
  Returns {| rcid := id;
             text := text;
             thoughts := thoughts;
             webImages := webImages;
             generatedImages := generatedImages;
             images := webImages ++ generatedImages;
             fileAttachments := fileAttachments;
             codeBlocks := codeBlocks;
             codeExecutionResult := codeExecutionResult;
             factuality := factuality;
             sources := sources |}.

(** *** Loop bounds *)

(** ToNumber. *)
Definition toNumber (v : value) : outcome number :=
  match v with
  | VUndef => Returns (string_toNumber (str "undefined"))
  | VNull => Returns (number_of_literal (str "0"))
  | VBool true => Returns (number_of_literal (str "1"))
  | VBool false => Returns (number_of_literal (str "0"))
  | VNum n => Returns n
  | VStr s => Returns (string_toNumber s)
  | VArr _ | VObj _ => s ← toString v; Returns (string_toNumber s)
  end.

(** How far the counter of [for (let i = 0; i < v.length; i++)] goes. *)
Inductive bound :=
| Below (n : nat)  (* the indices below [n] *)
| Unbounded.       (* [i < v.length] never fails *)

(** [v.length], as the condition [i < v.length] sees it.  Arrays and
    strings have a length; numbers and booleans have none, and
    [i < undefined] is false; an object has the [length] it was given as
    a member, converted to a number on every test. *)
Definition loop_bound (v : value) : outcome bound :=
  match v with
  | VUndef | VNull => Throws TypeError
  | VBool _ | VNum _ => Returns (Below 0)
  | VStr s => Returns (Below (length s))
  | VArr items => Returns (Below (length items))
  | VObj members =>
      match own_property (str "length") members with
      | None => Returns (Below 0)
      | Some l =>
          n ← toNumber l;
          Returns (match number_loop_bound n with
                   | Some k => Below k
                   | None => Unbounded
                   end)
      end
  end.

(** The array index a member key stands for, if it is one that a loop
    counter reaches: the counter stops growing at 2^53. *)
Definition index_of_key (k : jsstring) : option nat :=
  match k with
  | [] => None
  | [48%N] => Some 0
  | 48%N :: _ => None
  | _ =>
      if forallb is_digit k && (N_of_digits k <=? 2 ^ 53)%N
      then Some (N.to_nat (N_of_digits k)) else None
  end.

(** One more than the largest such index among the member keys of an
    object: from there on the loop reads [undefined]. *)
Definition index_keys_end (v : value) : nat :=
  match v with
  | VObj members =>
      foldr (fun '(k, _) m => match index_of_key k with
                              | Some i => Nat.max (S i) m
                              | None => m
                              end) 0 members
  | _ => 0
  end.

(** *** [parseResponse] *)

(** Lines 284 to 289, the body of the [try] in the search loop: the
    decoded main part at index [i] when its index 4 is truthy. *)
Definition main_part (responseJson : value) (i : nat) : outcome (option value) :=
  entry ← get responseJson i;
  encoded ← get entry 2;
  mainPart ← JSON_parse_value encoded;
  m4 ← get mainPart 4;
  Returns (if truthy m4 then Some mainPart else None).

(** Lines 282 to 293: the search from index [i] on, over [n] indices; the
    [catch] and a falsy index 4 both go on to the next index. *)
Fixpoint find_body (responseJson : value) (i n : nat) : option value :=
  match n with
  | O => None
  | S n' =>
      match main_part responseJson i with
      | Returns (Some mainPart) => Some mainPart
      | _ => find_body responseJson (S i) n'
      end
  end.

(** Lines 280 to 297.  Under a bound that never stops the loop, the
    search either finds a body among the indices that exist or goes on
    for ever. *)
Definition locate_body (responseJson : value) : outcome value :=
  b ← loop_bound responseJson;
  match b with
  | Below n =>
      match find_body responseJson 0 n with
      | Some body => Returns body
      | None => Throws (Error (str "No valid response body found"))
      end
  | Unbounded =>
      match find_body responseJson 0 (index_keys_end responseJson) with
      | Some body => Returns body
      | None => Diverges
      end
  end.

(** Lines 301 to 478: the candidates from index [i] on, over [n] indices. *)
Fixpoint decode_candidates (this : GeminiClient) (entries : value) (i n : nat)
  : outcome (list Candidate) :=
  match n with
  | O => Returns []
  | S n' =>
      candidate ← get entries i;
      c ← decode_candidate this candidate;
      rest ← decode_candidates this entries (S i) n';
      Returns (c :: rest)
  end.

(** Lines 300 to 482.  Under a bound that never stops the loop, the loop
    reaches an index that does not exist, where reading [candidate[1]]
    throws. *)
Definition decode_all_candidates (this : GeminiClient) (body : value)
  : outcome (list Candidate) :=
  entries ← get body 4;
  b ← loop_bound entries;
  match b with
  | Below n => decode_candidates this entries 0 n
  | Unbounded =>
      _ ← decode_candidates this entries 0 (S (index_keys_end entries));
      Diverges
  end.

(** Lines 299 to 500: the candidates of the body and the result. *)
Definition assemble (this : GeminiClient) (body : value)
  : outcome (GenerationResult value) :=
  candidates ← decode_all_candidates this body;
  match candidates with
  | [] => Throws (Error (str "No candidates found in response"))
  | first :: _ =>
      m ← get body 1;
      Returns {| metadata := m; candidates := candidates; top := first |}
  end.

(** The [catch] of [parseResponse], line 502. *)
Definition parse_failure {A} (error : js_error) : outcome A :=
  Throws (ParseFailure error).

(** [parseResponse(responseText)]. *)
Definition parseResponse (this : GeminiClient) (responseText : jsstring)
  : outcome (GenerationResult value) :=
  try_catch
    (let lines := split_on 10 responseText in
     if length lines <? 3 then Throws (Error (str "Invalid response format"))
     else
       responseJson ← JSON_parse (default [] (lines !! 2));
       body ← locate_body responseJson;
       assemble this body)
    parse_failure.

End Decoder.

(** ** The chat thread *)

(** Places in the store, and the store: one cell for each array or
    object that a field refers to. *)
Abbreviation loc := nat.
Abbreviation store := (list value).

Section Chat.
Context `{E : Engine}.

(** *** Objects that are shared and written to

    The array behind [chat.metadata] is also the [metadata] of the
    last output and of every result handed to the caller, so it lives in
    a store and the fields hold a reference to it.  Primitive values are
    held as they are. *)


Inductive ref :=
| Obj (l : loc)
| Prim (v : value).


(** A value that enters a field: an array or an object gets its place in
    the store. *)
Definition alloc (st : store) (v : value) : store * ref :=
  match v with
  | VArr _ | VObj _ => (st ++ [v], Obj (length st))
  | _ => (st, Prim v)
  end.

Definition deref (st : store) (r : ref) : value :=
  match r with
  | Obj l => default VUndef (st !! l)
  | Prim v => v
  end.

(** An operation on the store: its outcome and the store it leaves,
    also when it throws. *)
Definition heap_op (A : Type) : Type := store -> outcome A * store.

#[export] Instance heap_ret : MRet heap_op := fun A a st => (Returns a, st).
#[export] Instance heap_bind : MBind heap_op := fun A B f m st =>
  match m st with
  | (Returns a, st') => f a st'
  | (Throws e, st') => (Throws e, st')
  | (Diverges, st') => (Diverges, st')
  end.

Definition throw {A} (e : js_error) : heap_op A := fun st => (Throws e, st).

(** [items[i] = v] on an array: a write past the end extends it. *)
Definition array_set (items : list value) (i : nat) (v : value) : list value :=
  if i <? length items then <[i:=v]> items
  else items ++ replicate (i - length items) VUndef ++ [v].

(** [target[i] = v].  In strict mode a write to a property of a
    primitive throws, as it does on [null] and [undefined]. *)
Definition set_index (target : ref) (i : nat) (v : value) : heap_op unit := fun st =>
  match target with
  | Obj l =>
      match st !! l with
      | Some (VArr items) => (Returns (), <[l:=VArr (array_set items i v)]> st)
      | Some (VObj members) => (Returns (), <[l:=VObj (members ++ [(index_key i, v)])]> st)
      | _ => (Throws TypeError, st)
      end
  | Prim (VStr s) => (Throws (TypeErrorOn s), st)
  | Prim _ => (Throws TypeError, st)
  end.

(** [target[i]] *)
Definition get_index (target : ref) (i : nat) : heap_op value := fun st =>
  (get (deref st target) i, st).

(** *** [ChatSession] *)

Record Model := { name : jsstring; header : list (jsstring * jsstring) }.

Definition UNSPECIFIED : Model := {| name := str "unspecified"; header := [] |}.

(** The fields of a chat session; [geminiClient] is the client the
    operations below are given. *)
Record ChatSession := {
  chat_metadata : ref;
  lastOutput : option (GenerationResult ref);
  model : Model }.

(** The [options] of the constructor; a field left out is [undefined]
    ([None] for the two that are not plain values). *)
Record ChatOptions := {
  opt_model : option Model;
  opt_metadata : option (list value);
  opt_cid : value;
  opt_rid : value;
  opt_rcid : value }.

(** [get cid()], [get rid()], [get rcid()] *)
Definition get_cid (this : ChatSession) : heap_op value := get_index (chat_metadata this) 0.
Definition get_rid (this : ChatSession) : heap_op value := get_index (chat_metadata this) 1.
Definition get_rcid (this : ChatSession) : heap_op value := get_index (chat_metadata this) 2.

(** [set cid(value)], [set rid(value)], [set rcid(value)] *)
Definition set_cid (this : ChatSession) (v : value) : heap_op unit :=
  set_index (chat_metadata this) 0 v.
Definition set_rid (this : ChatSession) (v : value) : heap_op unit :=
  set_index (chat_metadata this) 1 v.
Definition set_rcid (this : ChatSession) (v : value) : heap_op unit :=
  set_index (chat_metadata this) 2 v.

(** The loop of [setMetadata]: [this.metadata[i] = metadata[i]] from
    index [i] on. *)
Fixpoint copy_slots (this : ChatSession) (i : nat) (elements : list value) : heap_op unit :=
  match elements with
  | [] => mret ()
  | x :: rest =>
      _ ← set_index (chat_metadata this) i x;
      copy_slots this (S i) rest
  end.

(** [setMetadata(metadata)] for an array [metadata]. *)
Definition setMetadata (this : ChatSession) (metadata : list value) : heap_op unit :=
  if 3 <? length metadata then throw (Error (str "Metadata cannot exceed 3 elements"))
  else copy_slots this 0 metadata.

(** [new ChatSession(geminiClient, options)] *)
Definition new_ChatSession (options : ChatOptions) : heap_op ChatSession := fun st =>
  let '(st0, pointer) := alloc st (VArr [VNull; VNull; VNull]) in
  let this := {| chat_metadata := pointer;
                 lastOutput := None;
                 model := default UNSPECIFIED (opt_model options) |} in
  (_ ← match opt_metadata options with
       | Some m => setMetadata this m
       | None => mret ()
       end;
   _ ← (if truthy (opt_cid options) then set_cid this (opt_cid options) else mret ());
   _ ← (if truthy (opt_rid options) then set_rid this (opt_rid options) else mret ());
   _ ← (if truthy (opt_rcid options) then set_rcid this (opt_rcid options) else mret ());
   mret this) st0.

(** [chooseCandidate(index)] for an integer [index].  [candidates[index]]
    is [undefined] outside the list, where reading [chosen.rcid] throws.
    The message prints the index as the Number it is: the engine's text
    of the Number that the decimal numeral of [index] denotes, which
    has an exponent from 10^21 on. *)
Definition chooseCandidate (this : ChatSession) (index : Z)
  : heap_op (GenerationResult ref) :=
  match lastOutput this with
  | None => throw (Error (str "No previous output in this chat session"))
  | Some last =>
      if (Z.of_nat (length (candidates last)) <=? index)%Z then
        throw (Error (str "Index "
                        ++ number_toString (number_of_literal (str (pretty index)))
                        ++ str " exceeds number of candidates"))
      else
        match (if (index <? 0)%Z then None else candidates last !! Z.to_nat index) with
        | None => throw TypeError
        | Some chosen =>
            _ ← set_rcid this (rcid chosen);
            mret {| metadata := metadata last;
                    candidates := candidates last;
                    top := chosen |}
        end
  end.

(** *** [GeminiClient] *)

(** [new GeminiClient(secure1PSID, secure1PSIDTS, proxy)]; a parameter
    left out is [null]. *)
Definition new_GeminiClient (secure1PSID secure1PSIDTS proxy : option jsstring)
  : GeminiClient :=
  {| cookies :=
       match secure1PSID with
       | Some (c :: id) =>
           (str "__Secure-1PSID", c :: id)
             :: match secure1PSIDTS with
                | Some (d :: ts) => [(str "__Secure-1PSIDTS", d :: ts)]
                | _ => []
                end
       | _ => []
       end;
     proxy := proxy;
     running := false;
     accessToken := None;
     timeout := 300000;
     autoRefresh := true;
     refreshInterval := 54000;
     refreshIntervalId := None;
     verbose := false |}.

(** [close()] *)
Definition close (this : GeminiClient) : GeminiClient :=
  {| cookies := cookies this;
     proxy := proxy this;
     running := false;
     accessToken := accessToken this;
     timeout := timeout this;
     autoRefresh := autoRefresh this;
     refreshInterval := refreshInterval this;
     refreshIntervalId := None;
     verbose := verbose this |}.

(** The request handed to the transport: the form fields [at] and
    [f.req] before serialisation, the headers, and the settings. *)
Record Request := {
  url_of : jsstring;
  at_field : option jsstring;
  f_req_prompt : jsstring;
  f_req_metadata : value;
  model_header : list (jsstring * jsstring);
  cookie_header : list (jsstring * jsstring);
  request_timeout : N;
  request_proxy : option jsstring }.

Definition GENERATE : jsstring :=
  str "https://gemini.google.com/_/BardChatUi/data/assistant.lamda.BardFrontendService/StreamGenerate".

(** What [await axios(config)] does: a response, or a rejection with
    its [code], [message] and [response.status]. *)
Inductive axios_result :=
| Response (status : Z) (data : jsstring)
| Rejected (code : option jsstring) (message : jsstring) (status : option Z).

(** The state a call of the client can touch: the client, the store,
    and the requests sent so far. *)
Record State := {
  client : GeminiClient;
  objects : store;
  sent : list Request }.

(** [error.message.includes('timeout')].  The messages of the engine's
    [TypeError]s name a property or an expression of the code, none of
    which contains the word; the one of a write to a property of a
    string also quotes the string. *)
Fixpoint mentions_timeout (e : js_error) : bool :=
  match e with
  | Error m => includes (str "timeout") m
  | TypeError => false
  | TypeErrorOn target => typeError_mentions_timeout target
  | SyntaxError source => syntaxError_mentions_timeout source
  | ParseFailure cause => mentions_timeout cause
  | AxiosError _ m _ => includes (str "timeout") m
  end.

(** The [catch] of [generateContent], lines 205 to 216. *)
Definition on_error (error : js_error) (this : GeminiClient) : js_error * GeminiClient :=
  let code_aborted := match error with
                      | AxiosError (Some c) _ _ => jsstring_eqb c (str "ECONNABORTED")
                      | _ => false
                      end in
  if code_aborted || mentions_timeout error then
    (Error (str "Request timed out. Consider increasing timeout value."), this)
  else
    match error with
    | AxiosError _ _ (Some status) =>
        if (status =? 401)%Z || (status =? 403)%Z then
          (Error (str "Authentication failed. Cookies may have expired. Please reinitialize."),
           close this)
        else (error, this)
    | _ => (error, this)
    end.

(** The result of a successful decode as an object of the store. *)
Definition as_object (st : store) (r : GenerationResult value)
  : store * GenerationResult ref :=
  let '(st', m) := alloc st (metadata r) in
  (st', {| metadata := m; candidates := candidates r; top := top r |}).

(** Lines 198 to 202: the update of the chat.  The result is the chat
    after the assignments, and what the last of them, the setter of
    [rcid], did. *)
Definition update_chat (chat : ChatSession) (output : GenerationResult ref) (st : store)
  : ChatSession * (outcome unit * store) :=
  let chat' := {| chat_metadata := metadata output;
                  lastOutput := Some output;
                  model := model chat |} in
  (chat', set_rcid chat' (rcid (top output)) st).

Section GenerateContent.

(** The transport answers every request. *)
Variable axios : Request -> axios_result.

(** [generateContent(prompt, { model, chat })] on the client of state
    [s]: the outcome, the state and the chat afterwards. *)
Definition generateContent (prompt : jsstring) (model : Model)
    (chat : option ChatSession) (s : State)
  : outcome (GenerationResult ref) * State * option ChatSession :=
  let this := client s in
  if match prompt with [] => true | _ => false end
     || jsstring_eqb (trim prompt) [] then
    (Throws (Error (str "Prompt cannot be empty")), s, chat)
  else if negb (running this) then
    (Throws (Error (str "Client not initialized. Call init() first.")), s, chat)
  else
    let fail (error : js_error) (st : store) (sent' : list Request)
             (chat' : option ChatSession) :=
      let '(error', this') := on_error error this in
      (Throws error', {| client := this'; objects := st; sent := sent' |}, chat') in
    let request := {|
      url_of := GENERATE;
      at_field := accessToken this;
      f_req_prompt := prompt;
      f_req_metadata := match chat with
                        | Some c => deref (objects s) (chat_metadata c)
                        | None => VNull
                        end;
      model_header := header model;
      cookie_header := cookies this;
      request_timeout := timeout this;
      request_proxy := proxy this |} in
    if match proxy this with
       | Some (c :: p) => negb (url_is_valid (c :: p))
       | _ => false
       end
    then fail TypeError (objects s) (sent s) chat
    else
      let sent' := sent s ++ [request] in
      match axios request with
      | Rejected code message status =>
          fail (AxiosError code message status) (objects s) sent' chat
      | Response status data =>
          if negb (status =? 200)%Z then
            fail (Error (str "Request failed with status " ++ str (pretty status)))
                 (objects s) sent' chat
          else
            match parseResponse this data with
            | Throws e => fail e (objects s) sent' chat
            | Diverges => (Diverges, {| client := this; objects := objects s; sent := sent' |}, chat)
            | Returns parsed =>
                let '(st1, output) := as_object (objects s) parsed in
                match chat with
                | None =>
                    (Returns output, {| client := this; objects := st1; sent := sent' |}, None)
                | Some c =>
                    let '(c', (written, st2)) := update_chat c output st1 in
                    match written with
                    | Returns _ =>
                        (Returns output,
                         {| client := this; objects := st2; sent := sent' |}, Some c')
                    | Throws e => fail e st2 sent' (Some c')
                    | Diverges =>
                        (Diverges, {| client := this; objects := st2; sent := sent' |}, Some c')
                    end
                end
            end
      end.

(** [sendMessage(prompt, options)] of a chat session. *)
Definition sendMessage (this : ChatSession) (prompt : jsstring) (s : State)
  : outcome (GenerationResult ref) * State * option ChatSession :=
  generateContent prompt (model this) (Some this) s.

End GenerateContent.

End Chat.

(** * Notions used in the statements *)

Section Notions.
Context `{E : Engine}.

(** The pointer of [this] is an array of three slots. *)
Definition three_slots (st : store) (this : ChatSession) : Prop :=
  exists l (slots : list value),
    chat_metadata this = Obj l /\ st !! l = Some (VArr slots) /\ length slots = 3.

(** An entry of the envelope qualifies with [body]: its index 2 decodes
    to [body], whose index 4 is truthy. *)
Definition qualifies (entry body : value) : Prop :=
  exists encoded m4,
    get entry 2 = Returns encoded
    /\ JSON_parse_value encoded = Returns body
    /\ get body 4 = Returns m4
    /\ truthy m4 = true.

(** A call that returns or throws a [TypeError]: it neither runs for
    ever nor throws anything else. *)
Definition only_TypeError {A} (m : outcome A) : Prop :=
  match m with
  | Returns _ => True
  | Throws e => e = TypeError
  | Diverges => False
  end.

(** The images kept by the loop over the generated images: those whose
    fields can be read. *)
Definition readable_generatedImage (genImage : value) : option Image :=
  match read_generatedImage genImage with
  | Returns image => Some image
  | _ => None
  end.



(** The blocks the scan of the text gives. *)
Definition scanned_blocks (text : value) : list CodeBlock :=
  if truthy text then
    match markdown_code_blocks text with
    | Returns blocks => blocks
    | _ => []
    end
  else [].

(** No triple backtick in the string. *)
Definition fence_free (s : jsstring) : bool := negb (includes fence s).

End Notions.

(** * Concrete inputs *)

(** A response of three lines whose line 2 is [payload]. *)
Definition response (payload : jsstring) : jsstring :=
  str "..." ++ 10%N :: str "..." ++ 10%N :: payload.

(** Scenario A of the specification, as it is written there: the
    encoded body has four elements, the candidate list at index 3. *)
Definition scenario_A : jsstring :=
  response (quoted "[[null,null,'[null,null,null,[[[0,[\'hi\']]]]]']]").

(** The response with the candidate list at index 4 of the body and the
    candidate as the decoder reads it: the id at index 0, the text at
    index 0 of index 1. *)
Definition scenario_A_index4 : jsstring :=
  response (quoted "[[null,null,'[null,null,null,null,[[0,[\'hi\']]]]']]").

(** One candidate, with the text [hi], whose list of web images,
    [candidate[12][1]], holds the entry [null]. *)
Definition malformed_webImage_response : jsstring :=
  response (quoted
    "[[null,null,'[null,[\'c\',\'r\'],null,null,[[\'rc1\',[\'hi\'],null,null,null,null,null,null,null,null,null,null,[null,[null]]]]]']]").


(** One candidate, and a metadata of four elements at index 1 of the
    body. *)
Definition long_metadata_response : jsstring :=
  response (quoted
    "[[null,null,'[null,[\'c\',\'r\',\'rc\',\'x\'],null,null,[[\'rc1\',[\'hi\']]]]']]").

(** A client after a successful [init()]. *)
Definition ready_client : GeminiClient :=
  {| cookies := [(str "__Secure-1PSID", str "id")];
     proxy := None;
     running := true;
     accessToken := Some (str "token");
     timeout := 300000;
     autoRefresh := false;
     refreshInterval := 540000;
     refreshIntervalId := None;
     verbose := false |}.

Section ReferenceInputs.
#[local] Existing Instance reference_engine.

(** A client that was never initialised. *)
Definition fresh_client : GeminiClient := new_GeminiClient None None None.

(** A candidate [["rc1", ["hi"]]], its decoding, and longer ones. *)
Definition plain_candidate : value :=
  VArr [VStr (str "rc1"); VArr [VStr (str "hi")]].

Definition decoded_plain_candidate : Candidate :=
  {| rcid := VStr (str "rc1"); text := VStr (str "hi"); thoughts := VNull;
     webImages := []; generatedImages := []; images := [];
     fileAttachments := []; codeBlocks := []; codeExecutionResult := None;
     factuality := None; sources := [] |}.

(** The candidate of [malformed_webImage_response]. *)
Definition candidate_with_null_webImage : value :=
  VArr ([VStr (str "rc1"); VArr [VStr (str "hi")]]
          ++ replicate 10 VNull ++ [VArr [VNull; VArr [VNull]]]).

(** A generated image whose URL, [genImage[0][3][3]], is [u]. *)
Definition readable_entry : value :=
  VArr [VArr [VNull; VNull; VNull; VArr [VNull; VNull; VNull; VStr (str "u")]]].

(** A candidate whose generated images, [candidate[12][7][0]], are
    [null] and [readable_entry]. *)
Definition candidate_with_generatedImages : value :=
  VArr ([VStr (str "rc1"); VArr [VStr (str "hi")]]
          ++ replicate 10 VNull
          ++ [VArr (replicate 7 VNull ++ [VArr [VArr [VNull; readable_entry]]])]).



(** A chat with a pointer of three slots at place 0, without and with a
    last output. *)
Definition empty_chat : ChatSession :=
  {| chat_metadata := Obj 0; lastOutput := None; model := UNSPECIFIED |}.

Definition chat_after_turn : ChatSession :=
  {| chat_metadata := Obj 0;
     lastOutput := Some {| metadata := Obj 0;
                           candidates := [decoded_plain_candidate];
                           top := decoded_plain_candidate |};
     model := UNSPECIFIED |}.

Definition three_nulls : store := [VArr [VNull; VNull; VNull]].

End ReferenceInputs.

(** * The rest of the client, its helpers and the server's use of it *)

(** ** Ordinary objects *)

(** An object is held as its own enumerable properties, in the order in
    which [Object.entries], [Object.keys] and a spread go through them:
    the array indices in ascending order, then the other keys in the
    order in which they were created. *)

(** The array index a key stands for: the canonical decimal of an
    integer below [2^32 - 1]. *)
Definition array_index (k : jsstring) : option N :=
  match k with
  | [] => None
  | [48%N] => Some 0%N
  | 48%N :: _ => None
  | _ =>
      if forallb is_digit k && (N_of_digits k <? 2 ^ 32 - 1)%N
      then Some (N_of_digits k) else None
  end.

(** The own property [k]. *)
Fixpoint property {A} (k : jsstring) (o : list (jsstring * A)) : option A :=
  match o with
  | [] => None
  | (k', v) :: o' => if jsstring_eqb k' k then Some v else property k o'
  end.

(** A write to a property that exists keeps its place. *)
Fixpoint overwrite {A} (k : jsstring) (v : A) (o : list (jsstring * A))
  : list (jsstring * A) :=
  match o with
  | [] => []
  | (k', v') :: o' =>
      if jsstring_eqb k' k then (k, v) :: o' else (k', v') :: overwrite k v o'
  end.

(** A new array index [n] goes after the indices below it. *)
Fixpoint insert_index {A} (n : N) (k : jsstring) (v : A) (o : list (jsstring * A))
  : list (jsstring * A) :=
  match o with
  | [] => [(k, v)]
  | (k', v') :: o' =>
      match array_index k' with
      | Some m => if (m <? n)%N then (k', v') :: insert_index n k v o' else (k, v) :: o
      | None => (k, v) :: o
      end
  end.

(** CreateDataProperty: what an object literal, a spread and
    [JSON.parse] do with a key and its value. *)
Definition define {A} (k : jsstring) (v : A) (o : list (jsstring * A))
  : list (jsstring * A) :=
  match property k o with
  | Some _ => overwrite k v o
  | None =>
      match array_index k with
      | Some n => insert_index n k v o
      | None => o ++ [(k, v)]
      end
  end.

(** [o[k] = v] for a string [v] on an object that inherits from
    [Object.prototype]: the key [__proto__] reaches the setter of the
    prototype, which ignores a value that is neither an object nor
    [null]. *)
Definition assign (k v : jsstring) (o : list (jsstring * jsstring))
  : list (jsstring * jsstring) :=
  if jsstring_eqb k (str "__proto__") then o else define k v o.

(** [{ ...a, ...b }] *)
Definition spread {A} (a b : list (jsstring * A)) : list (jsstring * A) :=
  foldl (fun o '(k, v) => define k v o) [] (a ++ b).

(** [Object.entries(v)] for a value of [JSON.parse]: the members of an
    object, a later member of the same key giving the value; the
    elements of an array and the code units of a string under their
    indices; nothing for a number or a boolean. *)
Definition entries `{E : Engine} (v : value) : outcome (list (jsstring * value)) :=
  match v with
  | VUndef | VNull => Throws TypeError
  | VBool _ | VNum _ => Returns []
  | VStr s => Returns (imap (fun i c => (index_key i, VStr [c])) s)
  | VArr items => Returns (imap (fun i x => (index_key i, x)) items)
  | VObj members => Returns (foldl (fun o '(k, x) => define k x o) [] members)
  end.

(** [l.join(sep)] on strings. *)
Definition join (sep : jsstring) (l : list jsstring) : jsstring :=
  match l with
  | [] => []
  | x :: l' => x ++ flat_map (fun y => sep ++ y) l'
  end.

(** [Object.entries(cookies).map(([k, v]) => `${k}=${v}`).join('; ')] *)
Definition cookie_line (o : list (jsstring * jsstring)) : jsstring :=
  join (str "; ") ((fun '(k, v) => k ++ 61%N :: v) <$> o).

(** ** The helpers of [utils.js] *)

Definition PSID : jsstring := str "__Secure-1PSID".
Definition PSIDTS : jsstring := str "__Secure-1PSIDTS".

(** [/([^=]+)=([^;]+)/] on [s], [name] being the part of group 1 read so
    far, newest first: the two groups of the leftmost match.  Group 1
    runs up to the first [=]; when it is empty there, or no value
    follows, no match starts before that [=], and the search goes on
    after it. *)
Fixpoint cookie_match (name s : jsstring) : option (jsstring * jsstring) :=
  match s with
  | [] => None
  | c :: s' =>
      if (c =? 61)%N then
        match name, fst (span (fun d => negb (d =? 59)%N) s') with
        | _ :: _, d :: val => Some (rev name, d :: val)
        | _, _ => cookie_match [] s'
        end
      else cookie_match (c :: name) s'
  end.

(** [parseCookiesFromResponse(response)], on the [set-cookie] lines of
    the response (none when the header is absent). *)
Definition parseCookiesFromResponse (set_cookie : list jsstring)
  : list (jsstring * jsstring) :=
  foldl (fun cookies cookie =>
           match cookie_match [] cookie with
           | Some (k, v) => assign k v cookies
           | None => cookies
           end) [] set_cookie.

(** LineTerminator: what [.] does not match. *)
Definition is_line_terminator (c : N) : bool :=
  (c =? 10)%N || (c =? 13)%N || (c =? 8232)%N || (c =? 8233)%N.

Definition token_key : jsstring := quoted "'SNlM0e':'".

(** The lazy group [(.*?)] and the double quote that ends it, at the
    start of [s]: the group runs to the first double quote and holds no
    line terminator. *)
Fixpoint until_quote (s : jsstring) : option jsstring :=
  match s with
  | [] => None
  | c :: s' =>
      if (c =? 34)%N then Some []
      else if is_line_terminator c then None
      else match until_quote s' with
           | Some t => Some (c :: t)
           | None => None
           end
  end.

(** [data.match] for the expression that reads the key [SNlM0e], a
    colon and a lazy group [(.*?)], key and group in double quotes:
    group 1 of the leftmost match. *)
Fixpoint token_match (s : jsstring) : option jsstring :=
  let later := match s with _ :: s' => token_match s' | [] => None end in
  match strip_prefix token_key s with
  | Some rest =>
      match until_quote rest with
      | Some t => Some t
      | None => later
      end
  | None => later
  end.

(** [cookie.match(/__Secure-1PSIDTS=([^;]+)/)]: group 1 of the leftmost
    match. *)
Fixpoint rotated_match (s : jsstring) : option jsstring :=
  let later := match s with _ :: s' => rotated_match s' | [] => None end in
  match strip_prefix (PSIDTS ++ [61%N]) s with
  | Some (c :: rest) =>
      if (c =? 59)%N then later
      else Some (fst (span (fun d => negb (d =? 59)%N) (c :: rest)))
  | _ => later
  end.

(** *** The process, the file system and the transport *)

(** What the helpers ask of Node.js: three variables of the environment
    and the directory of the module, [path.join], and the calls of [fs]
    on a file system whose state is [fs].  [statSync] gives the time of
    the last change in milliseconds, rounded down: [Date.now()] is an
    integer, and so is the bound it is compared with. *)
Class Host := {
  fs : Type;
  existsSync : fs -> jsstring -> bool;
  mkdirSync : fs -> jsstring -> outcome unit * fs;
  readFileSync : fs -> jsstring -> outcome jsstring;
  statSync_mtimeMs : fs -> jsstring -> outcome Z;
  writeFileSync : fs -> jsstring -> jsstring -> outcome unit * fs;
  path_join : jsstring -> jsstring -> jsstring;
  VERCEL : option jsstring;
  AWS_LAMBDA_FUNCTION_NAME : option jsstring;
  LAMBDA_TASK_ROOT : option jsstring;
  dirname : jsstring;
}.

Inductive http_method := GET | POST.

(** The configuration of a request of the helpers.  [below_500] says
    that [validateStatus] is [(status) => status < 500]; [via] is the
    proxy URL that was parsed into the [proxy] setting. *)
Record Config := {
  method : http_method;
  target : jsstring;
  headers : list (jsstring * jsstring);
  body : option jsstring;
  maxRedirects : N;
  below_500 : bool;
  via : option jsstring }.

(** What [await axios(config)] does: a response with its status, its
    [set-cookie] lines and its data, or a rejection. *)
Inductive reply :=
| Reply (status : Z) (set_cookie : list jsstring) (data : jsstring)
| Refused (code : option jsstring) (message : jsstring) (status : option Z).

Definition GOOGLE : jsstring := str "https://www.google.com".
Definition INIT : jsstring := str "https://gemini.google.com/app".
Definition ROTATE_COOKIES : jsstring := str "https://accounts.google.com/RotateCookies".

(** [Headers.GEMINI] and [Headers.ROTATE_COOKIES] *)
Definition GEMINI : list (jsstring * jsstring) :=
  [ (str "Content-Type", str "application/x-www-form-urlencoded;charset=utf-8");
    (str "Host", str "gemini.google.com");
    (str "Origin", str "https://gemini.google.com");
    (str "Referer", str "https://gemini.google.com/");
    (str "User-Agent",
     str "Mozilla/5.0 (Windows NT 10.0; Win64; x64) AppleWebKit/537.36 (KHTML, like Gecko) Chrome/120.0.0.0 Safari/537.36");
    (str "X-Same-Domain", str "1") ].

Definition ROTATE_COOKIES_headers : list (jsstring * jsstring) :=
  [ (str "Content-Type", str "application/json") ].

Section Utils.
Context `{E : Engine} `{H : Host}.

(** The transport answers every request. *)
Variable http : Config -> reply.

(** Truthiness of a string that may be [undefined]. *)
Definition is_set (v : option jsstring) : bool :=
  match v with Some (_ :: _) => true | _ => false end.

(** [getTempDir()] *)
Definition getTempDir : jsstring :=
  if is_set VERCEL || is_set AWS_LAMBDA_FUNCTION_NAME || is_set LAMBDA_TASK_ROOT
  then str "/tmp"
  else path_join dirname (str "temp").

(** The cache file of a [__Secure-1PSID] cookie. *)
Definition cache_file (cacheDir id : jsstring) : jsstring :=
  path_join cacheDir (str ".cached_1psidts_" ++ id ++ str ".txt").

(** The first lines of both helpers: the cache directory, made when it
    does not exist. *)
Definition cache_directory (files : fs) : outcome jsstring * fs :=
  let cacheDir := getTempDir in
  if existsSync files cacheDir then (Returns cacheDir, files)
  else match mkdirSync files cacheDir with
       | (Returns _, files') => (Returns cacheDir, files')
       | (Throws e, files') => (Throws e, files')
       | (Diverges, files') => (Diverges, files')
       end.

(** [proxy ? parseProxyUrl(proxy) : undefined]: [new URL] throws on what
    is no URL. *)
Definition parsed_proxy (proxy : option jsstring) : outcome (option jsstring) :=
  match proxy with
  | Some (c :: p) =>
      if url_is_valid (c :: p) then Returns (Some (c :: p)) else Throws TypeError
  | _ => Returns None
  end.

(** The cached [__Secure-1PSIDTS] enters the cookies it was given when
    they hold a [__Secure-1PSID] and no [__Secure-1PSIDTS]. *)
Definition load_cached (cookies : list (jsstring * jsstring)) (cacheDir : jsstring)
    (files : fs) : outcome (list (jsstring * jsstring)) :=
  if is_set (property PSID cookies) && negb (is_set (property PSIDTS cookies)) then
    let cachePath := cache_file cacheDir (default [] (property PSID cookies)) in
    if existsSync files cachePath then
      content ← readFileSync files cachePath;
      match trim content with
      | [] => Returns cookies
      | cached1PSIDTS => Returns (assign PSIDTS cached1PSIDTS cookies)
      end
    else Returns cookies
  else Returns cookies.

(** The [catch] of [getAccessToken]. *)
Definition token_failure (error : js_error) : js_error :=
  match error with
  | AxiosError _ _ (Some status) =>
      if (status =? 401)%Z || (status =? 403)%Z
      then Error (str "Authentication failed. Please check your cookies.")
      else error
  | _ => error
  end.

Definition google_request (proxy : option jsstring) : Config :=
  {| method := GET; target := GOOGLE; headers := []; body := None;
     maxRedirects := 5; below_500 := false; via := proxy |}.

Definition init_request (cookies : list (jsstring * jsstring)) (proxy : option jsstring)
  : Config :=
  {| method := GET; target := INIT;
     headers := spread GEMINI [(str "Cookie", cookie_line cookies)];
     body := None; maxRedirects := 5; below_500 := true; via := proxy |}.

(** The [try] of [getAccessToken]: the outcome and the requests made. *)
Definition fetch_token (cookies : list (jsstring * jsstring)) (proxy : option jsstring)
  : outcome (jsstring * list (jsstring * jsstring)) * list Config :=
  match parsed_proxy proxy with
  | Throws e => (Throws e, [])
  | Diverges => (Diverges, [])
  | Returns via =>
      let google := google_request via in
      match http google with
      | Refused c m st => (Throws (AxiosError c m st), [google])
      | Reply _ set_cookie _ =>
          let extraCookies := parseCookiesFromResponse set_cookie in
          let validCookies := spread extraCookies cookies in
          let config := init_request validCookies via in
          match http config with
          | Refused c m st => (Throws (AxiosError c m st), [google; config])
          | Reply status _ data =>
              (if negb (status =? 200)%Z then
                 Throws (Error (str "Failed to fetch access token. Status: "
                                  ++ str (pretty status)))
               else
                 match token_match data with
                 | Some (c :: t) => Returns (c :: t, validCookies)
                 | _ =>
                     Throws (Error (str
                       "Failed to extract access token from response. Cookies may be invalid."))
                 end,
               [google; config])
          end
      end
  end.

(** What a call of [getAccessToken] leaves: its outcome, the cookies it
    was given, which it may have written to, the file system and the
    requests made. *)
Record TokenRun := {
  token_outcome : outcome (jsstring * list (jsstring * jsstring));
  given_cookies : list (jsstring * jsstring);
  token_files : fs;
  token_requests : list Config }.

(** [getAccessToken(cookies, proxy)].  What [fs] throws is thrown
    before the [try]. *)
Definition getAccessToken (cookies : list (jsstring * jsstring)) (proxy : option jsstring)
    (files : fs) : TokenRun :=
  let stopped (o : outcome (jsstring * list (jsstring * jsstring))) (files' : fs) :=
    {| token_outcome := o; given_cookies := cookies; token_files := files';
       token_requests := [] |} in
  match cache_directory files with
  | (Returns cacheDir, files') =>
      match load_cached cookies cacheDir files' with
      | Returns cookies' =>
          let '(o, requests) := fetch_token cookies' proxy in
          {| token_outcome := try_catch o (fun e => Throws (token_failure e));
             given_cookies := cookies'; token_files := files';
             token_requests := requests |}
      | Throws e => stopped (Throws e) files'
      | Diverges => stopped Diverges files'
      end
  | (Throws e, files') => stopped (Throws e) files'
  | (Diverges, files') => stopped Diverges files'
  end.

(** *** [rotate1PSIDTS] *)

Definition rotate_request (cookies : list (jsstring * jsstring)) (proxy : option jsstring)
  : Config :=
  {| method := POST; target := ROTATE_COOKIES;
     headers := spread ROTATE_COOKIES_headers [(str "Cookie", cookie_line cookies)];
     body := Some (quoted "[000,'-0000000000000000000']");
     maxRedirects := 5; below_500 := true; via := proxy |}.

(** The [catch] of [rotate1PSIDTS]. *)
Definition rotate_failure (error : js_error) : js_error :=
  match error with
  | AxiosError _ _ (Some status) =>
      if (status =? 401)%Z
      then Error (str "Authentication failed during cookie rotation")
      else error
  | _ => error
  end.

(** The loop over the [set-cookie] lines: the value of the first line
    that the expression matches. *)
Fixpoint rotated_cookie (set_cookie : list jsstring) : option jsstring :=
  match set_cookie with
  | [] => None
  | cookie :: rest =>
      if includes (PSIDTS ++ [61%N]) cookie then
        match rotated_match cookie with
        | Some (c :: v) => Some (c :: v)
        | _ => rotated_cookie rest
        end
      else rotated_cookie rest
  end.

Record RotateRun := {
  rotate_outcome : outcome (option jsstring);
  rotate_files : fs;
  rotate_requests : list Config }.

(** The [try] of [rotate1PSIDTS]. *)
Definition fetch_rotation (cookies : list (jsstring * jsstring)) (proxy : option jsstring)
    (cachePath : jsstring) (files : fs) : RotateRun :=
  match parsed_proxy proxy with
  | Throws e =>
      {| rotate_outcome := Throws e; rotate_files := files; rotate_requests := [] |}
  | Diverges =>
      {| rotate_outcome := Diverges; rotate_files := files; rotate_requests := [] |}
  | Returns via =>
      let config := rotate_request cookies via in
      match http config with
      | Refused c m st =>
          {| rotate_outcome := Throws (AxiosError c m st); rotate_files := files;
             rotate_requests := [config] |}
      | Reply status set_cookie _ =>
          if (status =? 401)%Z then
            {| rotate_outcome :=
                 Throws (Error (str "Authentication failed - cookies may be invalid"));
               rotate_files := files; rotate_requests := [config] |}
          else
            match rotated_cookie set_cookie with
            | Some new1PSIDTS =>
                let '(written, files') := writeFileSync files cachePath new1PSIDTS in
                {| rotate_outcome := _ ← written; Returns (Some new1PSIDTS);
                   rotate_files := files'; rotate_requests := [config] |}
            | None =>
                {| rotate_outcome := Returns None; rotate_files := files;
                   rotate_requests := [config] |}
            end
      end
  end.

(** [rotate1PSIDTS(cookies, proxy)] when [Date.now()] is [now].  A
    cookie that is not there prints as [undefined] in the file name. *)
Definition rotate1PSIDTS (cookies : list (jsstring * jsstring)) (proxy : option jsstring)
    (now : Z) (files : fs) : RotateRun :=
  let stopped (o : outcome (option jsstring)) (files' : fs) :=
    {| rotate_outcome := o; rotate_files := files'; rotate_requests := [] |} in
  let attempt (cachePath : jsstring) (files' : fs) :=
    let run := fetch_rotation cookies proxy cachePath files' in
    {| rotate_outcome := try_catch (rotate_outcome run) (fun e => Throws (rotate_failure e));
       rotate_files := rotate_files run; rotate_requests := rotate_requests run |} in
  match cache_directory files with
  | (Returns cacheDir, files') =>
      let cachePath :=
        cache_file cacheDir (default (str "undefined") (property PSID cookies)) in
      if existsSync files' cachePath then
        match statSync_mtimeMs files' cachePath with
        | Returns modifiedTime =>
            if (now - modifiedTime <=? 60000)%Z then stopped (Returns None) files'
            else attempt cachePath files'
        | Throws e => stopped (Throws e) files'
        | Diverges => stopped Diverges files'
        end
      else attempt cachePath files'
  | (Throws e, files') => stopped (Throws e) files'
  | (Diverges, files') => stopped Diverges files'
  end.

(** ** [init], the refresh timer and [close] *)

(** The [options] of [init]; a field left out is [undefined] and takes
    its default. *)
Record InitOptions := {
  init_timeout : option N;
  init_autoRefresh : option bool;
  init_refreshInterval : option N;
  init_verbose : option bool }.

(** An interval that is set: what [setInterval] returned and the delay
    it was given.  Its callback is [refresh] below. *)
Record Timer := { timer_id : nat; delay : N }.

(** The client with what its methods reach outside it. *)
Record World := {
  the_client : GeminiClient;
  files : fs;
  timers : list Timer;
  next_timer : nat;
  requests : list Config }.

Definition clearInterval (id : nat) (ts : list Timer) : list Timer :=
  filter (fun t => timer_id t <> id) ts.

(** [if (this.refreshIntervalId) clearInterval(this.refreshIntervalId)] *)
Definition cleared (w : World) : list Timer :=
  match refreshIntervalId (the_client w) with
  | Some id => clearInterval id (timers w)
  | None => timers w
  end.

(** [startAutoRefresh()] *)
Definition startAutoRefresh (w : World) : World :=
  let this := the_client w in
  let id := next_timer w in
  {| the_client :=
       {| cookies := cookies this; proxy := proxy this; running := running this;
          accessToken := accessToken this; timeout := timeout this;
          autoRefresh := autoRefresh this; refreshInterval := refreshInterval this;
          refreshIntervalId := Some id; verbose := verbose this |};
     files := files w;
     timers := cleared w ++ [{| timer_id := id; delay := refreshInterval this |}];
     next_timer := S id;
     requests := requests w |}.

(** [close()], with the timer it clears. *)
Definition close_client (w : World) : World :=
  {| the_client := close (the_client w);
     files := files w;
     timers := cleared w;
     next_timer := next_timer w;
     requests := requests w |}.

(** What [init] does: it returns, it throws [new Error(`Failed to
    initialize client: ${cause.message}`)], or it does not come back. *)
Inductive init_outcome :=
| Initialized
| InitFailure (cause : js_error)
| InitDiverges.

(** [init(options)] *)
Definition init (options : InitOptions) (w : World) : init_outcome * World :=
  let this := the_client w in
  let configured (cookies' : list (jsstring * jsstring)) (running' : bool)
                 (accessToken' : option jsstring) :=
    {| cookies := cookies'; proxy := proxy this; running := running';
       accessToken := accessToken';
       timeout := default 300000%N (init_timeout options);
       autoRefresh := default true (init_autoRefresh options);
       refreshInterval := default 540000%N (init_refreshInterval options);
       refreshIntervalId := refreshIntervalId this;
       verbose := default true (init_verbose options) |} in
  let run := getAccessToken (cookies this) (proxy this) (files w) in
  let after (this' : GeminiClient) :=
    {| the_client := this'; files := token_files run; timers := timers w;
       next_timer := next_timer w; requests := requests w ++ token_requests run |} in
  match token_outcome run with
  | Returns (token, validCookies) =>
      let w' := after (configured validCookies true (Some token)) in
      (Initialized, if autoRefresh (the_client w') then startAutoRefresh w' else w')
  | Throws e =>
      (InitFailure e,
       close_client (after (configured (given_cookies run) (running this)
                              (accessToken this))))
  | Diverges =>
      (InitDiverges, after (configured (given_cookies run) (running this)
                              (accessToken this)))
  end.

(** The callback of the timer, when [Date.now()] is [now]: the cookie
    that [rotate1PSIDTS] returns enters the cookies of the client; what
    it throws is logged and dropped. *)
Definition refresh (now : Z) (w : World) : World :=
  let this := the_client w in
  let run := rotate1PSIDTS (cookies this) (proxy this) now (files w) in
  {| the_client :=
       {| cookies := match rotate_outcome run with
                     | Returns (Some (c :: v)) => assign PSIDTS (c :: v) (cookies this)
                     | _ => cookies this
                     end;
          proxy := proxy this; running := running this;
          accessToken := accessToken this; timeout := timeout this;
          autoRefresh := autoRefresh this; refreshInterval := refreshInterval this;
          refreshIntervalId := refreshIntervalId this; verbose := verbose this |};
     files := rotate_files run;
     timers := timers w;
     next_timer := next_timer w;
     requests := requests w ++ rotate_requests run |}.

(** *** Notions used in the statements about the timer *)

(** What is done to a client over its life: calls of [init] and
    [close], and runs of the callback of the timer. *)
Inductive action :=
| Init (options : InitOptions)
| Close
| Tick (now : Z).

Definition act (w : World) (a : action) : World :=
  match a with
  | Init options => snd (init options w)
  | Close => close_client w
  | Tick now => refresh now w
  end.

(** Every interval that is set is the one the client remembers. *)
Definition tracked (w : World) : Prop :=
  forall t, t ∈ timers w -> refreshIntervalId (the_client w) = Some (timer_id t).

End Utils.

(** ** The rest of [ChatSession] *)

Section Sessions.
Context `{E : Engine}.

(** [startChat(options)] *)
Definition startChat (this : GeminiClient) (options : ChatOptions) : heap_op ChatSession :=
  new_ChatSession options.

(** A step that does not touch the store. *)
Definition pure {A} (m : outcome A) : heap_op A := fun st => (m, st).

(** [toString()]: each of the three ids is read and printed in turn. *)
Definition ChatSession_toString (this : ChatSession) : heap_op jsstring :=
  cid ← get_cid this; a ← pure (toString cid);
  rid ← get_rid this; b ← pure (toString rid);
  rcid ← get_rcid this; c ← pure (toString rcid);
  mret (str "ChatSession(cid='" ++ a ++ str "', rid='" ++ b
          ++ str "', rcid='" ++ c ++ str "')").

End Sessions.

(** ** The server: cookies of a request *)

(** [key.toLowerCase()], exact on every code unit whose image holds an
    ASCII code unit: the letters A to Z, the Kelvin sign U+212A and the
    dotted capital I, U+0130, which becomes [i] and a combining dot.
    Every other code unit has one code unit outside ASCII for its image
    and is kept as it is: the searches below are for ASCII text. *)
Definition toLowerCase_key (s : jsstring) : jsstring :=
  flat_map (fun c => if in_range 65 90 c then [(c + 32)%N]
                     else if (c =? 8490)%N then [107%N]
                     else if (c =? 304)%N then [105%N; 775%N]
                     else [c]) s.

(** [s.replace(pattern, replacement)] for strings: the first
    occurrence. *)
Fixpoint replace_first (pattern replacement s : jsstring) : jsstring :=
  match strip_prefix pattern s with
  | Some rest => replacement ++ rest
  | None =>
      match s with
      | c :: s' => c :: replace_first pattern replacement s'
      | [] => []
      end
  end.

Section Server.
Context `{E : Engine}.

(** The object [normalized]: a field is [None] until it is written. *)
Record Normalized := {
  secure1PSID : option value;
  secure1PSIDTS : option value }.

Definition lowerKey (key : jsstring) : jsstring :=
  replace_first (str "secure") (str "secure")
    (filter (fun c => c <> 95%N) (toLowerCase_key key)).

(** One round of the loop of [normalizeCookies]. *)
Definition normalize_entry (normalized : Normalized) (entry : jsstring * value)
  : Normalized :=
  let lower := lowerKey (fst entry) in
  if includes (str "secure1psid") lower && negb (includes (str "ts") lower) then
    {| secure1PSID := Some (snd entry); secure1PSIDTS := secure1PSIDTS normalized |}
  else if includes (str "secure1psidts") lower then
    {| secure1PSID := secure1PSID normalized; secure1PSIDTS := Some (snd entry) |}
  else normalized.

(** [normalizeCookies(cookies)]; [None] is [null]. *)
Definition normalizeCookies (cookies : value) : option Normalized :=
  if truthy cookies then
    match entries cookies with
    | Returns es =>
        match foldl normalize_entry {| secure1PSID := None; secure1PSIDTS := None |} es with
        | {| secure1PSID := None; secure1PSIDTS := None |} => None
        | normalized => Some normalized
        end
    | _ => None
    end
  else None.

End Server.

(** * More notions used in the statements *)

(** Every occurrence of [key] in [s] starts at index [n] or later. *)
Definition none_before (key s : jsstring) (n : nat) : Prop :=
  forall a b, s = a ++ key ++ b -> n <= length a.

(** The expression of the fenced blocks matches at the start of [s]: a
    triple backtick, a tag of word characters, which may be empty, a
    line feed, and somewhere after it a triple backtick. *)
Definition opens_block (s : jsstring) : Prop :=
  exists tag body rest,
    forallb is_word tag = true /\ s = fence ++ tag ++ 10%N :: body ++ fence ++ rest.

(** No fenced block opens in [s] before index [n]. *)
Definition no_block_before (s : jsstring) (n : nat) : Prop :=
  forall a b, s = a ++ b -> opens_block b -> n <= length a.

Section MoreNotions.
Context `{E : Engine}.

(** [v[i]] where the read does not throw. *)
Definition field (v : value) (i : nat) : value :=
  match get v i with
  | Returns x => x
  | _ => VUndef
  end.

(** The source an entry of [candidate[11]] gives: the entry and its
    index 0 must be truthy; a title, a URL or a snippet that is falsy
    is the empty string. *)
Definition source_entry (source : value) : option Source :=
  if truthy source && truthy (field source 0) then
    let s0 := field source 0 in
    Some {| source_title := js_or (field s0 0) (VStr []);
            source_url := js_or (field s0 1) (VStr []);
            snippet := js_or (field s0 2) (VStr []) |}
  else None.

(** The factuality [candidate[45]] gives. *)
Definition factuality_entry (c45 : value) : option Factuality :=
  if truthy c45 then
    Some {| rating := js_or (field c45 0) VNull;
            confidence := js_or (field c45 1) VNull |}
  else None.

(** The URL every file attachment of a text gets: the first chip URL of
    the text, or [null]. *)
Definition chip_url (s : jsstring) : value :=
  match first_chip s with
  | Some m => VStr m
  | None => VNull
  end.

(** The request [generateContent] hands to the transport. *)
Definition generate_request (this : GeminiClient) (prompt : jsstring) (model : Model)
    (chat : option ChatSession) (st : store) : Request :=
  {| url_of := GENERATE;
     at_field := accessToken this;
     f_req_prompt := prompt;
     f_req_metadata := match chat with
                       | Some c => deref st (chat_metadata c)
                       | None => VNull
                       end;
     model_header := header model;
     cookie_header := cookies this;
     request_timeout := timeout this;
     request_proxy := proxy this |}.

(** The proxy of the client is not set, or is a URL. *)
Definition proxy_ok (this : GeminiClient) : bool :=
  match proxy this with
  | Some (c :: p) => url_is_valid (c :: p)
  | _ => true
  end.

(** A call of [generateContent] gets as far as the transport: the
    prompt is not blank, the client is running and its proxy is fine. *)
Definition reaches_transport (this : GeminiClient) (prompt : jsstring) : bool :=
  negb (jsstring_eqb (trim prompt) []) && running this && proxy_ok this.

(** The three ids of a chat, as its getters give them. *)
Definition ids (this : ChatSession) (st : store) : outcome value * outcome value * outcome value :=
  (fst (get_cid this st), fst (get_rid this st), fst (get_rcid this st)).

(** A value that takes no property and is no string: [undefined],
    [null], a boolean or a number. *)
Definition unwritable (v : value) : bool :=
  match v with
  | VUndef | VNull | VBool _ | VNum _ => true
  | _ => false
  end.

End MoreNotions.

(** * More concrete inputs *)

(** A host for the examples.  Its file system is the list of its
    files, each with its content and the time of its last change; every
    directory exists; a file that is written is changed at time 0.  It
    runs on Vercel, so the cache directory is [/tmp]. *)
Definition reference_host : Host := {|
  fs := list (jsstring * (jsstring * Z));
  existsSync := fun files path =>
    jsstring_eqb path (str "/tmp")
    || match property path files with Some _ => true | None => false end;
  mkdirSync := fun files _ => (Returns (), files);
  readFileSync := fun files path =>
    match property path files with
    | Some (content, _) => Returns content
    | None => Throws (Error (str "ENOENT: no such file or directory"))
    end;
  statSync_mtimeMs := fun files path =>
    match property path files with
    | Some (_, modified) => Returns modified
    | None => Throws (Error (str "ENOENT: no such file or directory"))
    end;
  writeFileSync := fun files path content => (Returns (), define path (content, 0%Z) files);
  path_join := fun a b => a ++ 47%N :: b;
  VERCEL := Some (str "1");
  AWS_LAMBDA_FUNCTION_NAME := None;
  LAMBDA_TASK_ROOT := None;
  dirname := str "/app/src";
|}.

(** One candidate, [rc1] with the text [hi], and the metadata [c], [r]. *)
Definition plain_response : jsstring :=
  response (quoted
    "[[null,null,'[null,[\'c\',\'r\'],null,null,[[\'rc1\',[\'hi\']]]]']]").

(** A page that holds the token [abc], after a script with other
    strings in double quotes. *)
Definition token_page : jsstring :=
  quoted "<script>var a='1';WIZ={" ++ token_key ++ str "abc"
    ++ quoted "','x':1}</script>".

(** A text with a triple backtick that opens no block, then a block
    tagged [js]. *)
Definition text_with_stray_fence : jsstring :=
  str "a ``` b " ++ fence ++ str "js" ++ 10%N :: str "code" ++ fence ++ [].

(** A transport for the helpers: [www.google.com] sets the cookie
    [NID], the page of the token holds [abc], and the rotation sets a
    new [__Secure-1PSIDTS]. *)
Definition reference_http (config : Config) : reply :=
  if jsstring_eqb (target config) GOOGLE then Reply 200 [str "NID=1; path=/"] []
  else if jsstring_eqb (target config) INIT then Reply 200 [] token_page
  else Reply 200 [str "SIDCC=9; path=/"; PSIDTS ++ 61%N :: str "new" ++ str "; Secure"] [].

(** A transport whose page of the token answers 401. *)
Definition denying_http (config : Config) : reply :=
  if jsstring_eqb (target config) GOOGLE then Reply 200 [] []
  else Reply 401 [] [].

(** The cache file of the cookie [id] of the examples. *)
Definition cache_path : jsstring := str "/tmp/.cached_1psidts_id.txt".

Section MoreReferenceInputs.
#[local] Existing Instance reference_engine.
#[local] Existing Instance reference_host.

(** A client made with the cookie [id] alone, and its world, without
    and with a cache file. *)
Definition new_client : GeminiClient := new_GeminiClient (Some (str "id")) None None.

Definition new_world : World :=
  {| the_client := new_client; files := []; timers := []; next_timer := 0;
     requests := [] |}.

Definition cached_world : World :=
  {| the_client := new_client;
     files := [(cache_path, (str " old " ++ [10%N], 1000%Z))];
     timers := []; next_timer := 0; requests := [] |}.

Definition no_options : InitOptions :=
  {| init_timeout := None; init_autoRefresh := None; init_refreshInterval := None;
     init_verbose := None |}.

(** The state of a client that is ready and a chat without a turn. *)
Definition ready_state : State :=
  {| client := ready_client; objects := three_nulls; sent := [] |}.

(** The decoded body of [plain_response]. *)
Definition plain_body : value :=
  VArr [VNull; VArr [VStr (str "c"); VStr (str "r")]; VNull; VNull; VArr [plain_candidate]].

(** A candidate with a source at index 11 and a rating at index 45. *)
Definition candidate_with_source : value :=
  VArr (replicate 11 VNull
          ++ [VArr [VArr [VArr [VStr (str "t"); VStr (str "u")]]]]
          ++ replicate 33 VNull
          ++ [VArr [VStr (str "high")]]).

(** A file with five fields and the name [name]. *)
Definition file_named (name : value) : value :=
  VArr [name; VNull; VNull; VNull; VStr (str "x")].

(** A candidate with the files [files] at index 30. *)
Definition candidate_with_files (files : list value) : value :=
  VArr (replicate 30 VNull ++ [VArr files]).

End MoreReferenceInputs.

(** * The decoder with its regular expression objects

    [parseResponse] evaluates two regular expression literals with the
    flag [g], once for every candidate: the expression of the chip URLs
    (line 327) and, where the text is scanned for code, the expression
    of the fenced blocks (line 368).  Each evaluation makes an object,
    and such an object has a state, [lastIndex], that [exec] reads and
    writes.  Here the objects live in a heap that the decoder threads,
    and [exec], the loop over it and [String.prototype.match] are
    written out on [lastIndex]. *)

Record RegExp := { lastIndex : nat }.

Section Exec.
Context {A : Type}.

(** An expression without anchors, tried at an index of the text: given
    the text from that index on, the groups of the match and its
    length. *)
Variable pattern : jsstring -> option (A * nat).

(** The leftmost match at index [i] or later, [s] being the text from
    [i] on: the groups, the index of the match and its length. *)
Fixpoint search (i : nat) (s : jsstring) : option (A * nat * nat) :=
  match pattern s with
  | Some (groups, len) => Some (groups, i, len)
  | None =>
      match s with
      | [] => None
      | _ :: s' => search (S i) s'
      end
  end.

(** [r.exec(s)] for an expression with the flag [g]: the search starts
    at [lastIndex]; a match, given as its text and its groups, leaves
    [lastIndex] at its end, and [null] leaves it at 0. *)
Definition exec (r : RegExp) (s : jsstring) : option (jsstring * A) * RegExp :=
  if length s <? lastIndex r then (None, {| lastIndex := 0 |})
  else
    match search (lastIndex r) (drop (lastIndex r) s) with
    | Some (groups, index, len) =>
        (Some (take len (drop index s), groups), {| lastIndex := index + len |})
    | None => (None, {| lastIndex := 0 |})
    end.




End Exec.


Section Run.
Context `{E : Engine}.









End Run.


(** * Properties *)

(** ** Strings *)

Lemma drop_spaces_blank s : forallb is_js_space s = true -> drop_spaces s = [].
Proof.
  induction s as [|c s IH]; simpl; [done|].
  intros [Hc Hs]%andb_prop. rewrite Hc. auto.
Qed.

Lemma trim_blank s : forallb is_js_space s = true -> trim s = [].
Proof. intros H. unfold trim. rewrite (drop_spaces_blank s H). reflexivity. Qed.

Lemma jsstring_eqb_eq a b : jsstring_eqb a b = true <-> a = b.
Proof. unfold jsstring_eqb. apply bool_decide_eq_true. Qed.

Lemma jsstring_eqb_neq a b : a <> b -> jsstring_eqb a b = false.
Proof. unfold jsstring_eqb. apply bool_decide_eq_false_2. Qed.

(** ** The client: early exits of [generateContent] *)

Section ClientProperties.
Context `{E : Engine}.
Variable axios : Request -> axios_result.

(** C8.  A prompt that is empty or holds only white space makes
    [generateContent] throw [Prompt cannot be empty]; the state, with
    the requests sent so far, and the chat are what they were, whatever
    the client's state. *)
Theorem generateContent_blank_prompt prompt model chat s :
  forallb is_js_space prompt = true ->
  generateContent axios prompt model chat s
  = (Throws (Error (str "Prompt cannot be empty")), s, chat).
Proof.
  intros Hblank. unfold generateContent.
  rewrite (trim_blank _ Hblank).
  assert (jsstring_eqb [] [] = true) as -> by reflexivity.
  by rewrite orb_true_r.
Qed.

Lemma new_GeminiClient_not_running secure1PSID secure1PSIDTS proxy :
  running (new_GeminiClient secure1PSID secure1PSIDTS proxy) = false.
Proof. reflexivity. Qed.

Lemma close_not_running this : running (close this) = false.
Proof. reflexivity. Qed.

(** C9.  A client that was never initialised or that was closed is not
    running, and on a client that is not running [generateContent], and
    with it [sendMessage], throws [Client not initialized] for every
    prompt that is not blank; the state, with the requests sent so far,
    and the chat are what they were. *)
Theorem generateContent_not_running prompt model chat s :
  trim prompt <> [] ->
  running (client s) = false ->
  (forall a b c, running (new_GeminiClient a b c) = false)
  /\ (forall this, running (close this) = false)
  /\ generateContent axios prompt model chat s
     = (Throws (Error (str "Client not initialized. Call init() first.")), s, chat)
  /\ (forall this : ChatSession,
        sendMessage axios this prompt s
        = (Throws (Error (str "Client not initialized. Call init() first.")), s, Some this)).
Proof.
  intros Hprompt Hoff.
  assert (Hgen : forall model chat,
    generateContent axios prompt model chat s
    = (Throws (Error (str "Client not initialized. Call init() first.")), s, chat)).
  { intros m c. unfold generateContent.
    destruct prompt as [|p prompt']; [by destruct Hprompt|].
    rewrite (jsstring_eqb_neq _ _ Hprompt). simpl. by rewrite Hoff. }
  repeat split; auto. intros this. apply Hgen.
Qed.

End ClientProperties.

(** ** The continuation pointer *)

Section PointerProperties.
Context `{E : Engine}.

Lemma array_set_splits (items : list value) i x :
  i <= length items ->
  array_set items i x = take i items ++ x :: drop (S i) items.
Proof.
  intros Hi. unfold array_set.
  destruct (i <? length items) eqn:Hlt.
  - apply Nat.ltb_lt in Hlt. by apply insert_take_drop.
  - apply Nat.ltb_ge in Hlt. assert (i = length items) as -> by lia.
    rewrite Nat.sub_diag, firstn_all, (drop_ge items (S (length items))) by lia.
    reflexivity.
Qed.

Lemma length_array_set (items : list value) i x :
  i < length items -> length (array_set items i x) = length items.
Proof.
  intros Hi. unfold array_set.
  apply Nat.ltb_lt in Hi. rewrite Hi. apply length_insert.
Qed.

Lemma set_index_array l (items : list value) i x (st : store) :
  st !! l = Some (VArr items) ->
  set_index (Obj l) i x st = (Returns (), <[l:=VArr (array_set items i x)]> st).
Proof. intros H. unfold set_index. by rewrite H. Qed.

(** The loop of [setMetadata] on an array pointer. *)
Lemma copy_slots_array this l T : forall i (items : list value) (st : store),
  chat_metadata this = Obj l ->
  st !! l = Some (VArr items) ->
  i <= length items ->
  copy_slots this i T st
  = (Returns (), <[l:=VArr (take i items ++ T ++ drop (i + length T) items)]> st).
Proof.
  induction T as [|x T IH]; intros i items st Hthis Hl Hi; simpl.
  - rewrite Nat.add_0_r, take_drop. by rewrite list_insert_id.
  - unfold mbind, heap_bind. rewrite Hthis, (set_index_array _ _ _ _ _ Hl).
    assert (Hlt : l < length st) by (apply lookup_lt_is_Some; eauto).
    rewrite (IH (S i) (array_set items i x)); auto.
    + rewrite list_insert_insert_eq. do 2 f_equal.
      rewrite array_set_splits by done.
      assert (Hlen : length (take i items) = i) by (apply length_take_le; lia).
      replace (S i) with (length (take i items) + 1) at 1 by lia.
      rewrite take_app_add. simpl take.
      replace (S i + length T) with (length (take i items) + S (length T)) by lia.
      rewrite drop_app_add. simpl drop.
      rewrite drop_drop, <- app_assoc. simpl.
      by rewrite Nat.add_succ_r.
    + by apply list_lookup_insert_eq.
    + rewrite array_set_splits, length_app by done. simpl.
      rewrite length_take_le by lia. lia.
Qed.

(** [setMetadata] on an array pointer and a list that is not too long. *)
Lemma setMetadata_array this l (old T : list value) (st : store) :
  chat_metadata this = Obj l ->
  st !! l = Some (VArr old) ->
  length T <= 3 ->
  setMetadata this T st = (Returns (), <[l:=VArr (T ++ drop (length T) old)]> st).
Proof.
  intros Hthis Hl HT. unfold setMetadata.
  replace (3 <? length T) with false by (symmetry; apply Nat.ltb_ge; lia).
  rewrite (copy_slots_array this l T 0 old st Hthis Hl) by lia. reflexivity.
Qed.

Lemma setMetadata_too_long this (T : list value) (st : store) :
  3 < length T ->
  setMetadata this T st
  = (Throws (Error (str "Metadata cannot exceed 3 elements")), st).
Proof.
  intros HT. unfold setMetadata.
  by replace (3 <? length T) with true by (symmetry; apply Nat.ltb_lt; lia).
Qed.

(** C4.  On a pointer of three slots, [setMetadata(T)] for [T] of at
    most three elements returns and leaves in the pointer [T] followed
    by the old slots from index [length T] on, every other object being
    as before; reading the pointer and its slots gives that list.  For
    [T] of more than three elements it throws [Metadata cannot exceed 3
    elements] and the store is as before. *)
Theorem setMetadata_overwrites_prefix this l (old T : list value) (st : store) :
  chat_metadata this = Obj l ->
  st !! l = Some (VArr old) ->
  length old = 3 ->
  (length T <= 3 ->
   let padded := T ++ drop (length T) old in
   let st' := <[l:=VArr padded]> st in
   setMetadata this T st = (Returns (), st')
   /\ length padded = 3
   /\ deref st' (chat_metadata this) = VArr padded
   /\ forall i, get_index (chat_metadata this) i st'
                = (Returns (default VUndef (padded !! i)), st'))
  /\ (3 < length T ->
      setMetadata this T st
      = (Throws (Error (str "Metadata cannot exceed 3 elements")), st)).
Proof.
  intros Hthis Hl Hold. split.
  - intros HT. simpl.
    assert (Hlt : l < length st) by (apply lookup_lt_is_Some; eauto).
    assert (Hread : deref (<[l:=VArr (T ++ drop (length T) old)]> st) (chat_metadata this)
                    = VArr (T ++ drop (length T) old)).
    { rewrite Hthis. simpl. by rewrite list_lookup_insert_eq. }
    repeat split.
    + by apply setMetadata_array.
    + rewrite length_app, length_drop. lia.
    + exact Hread.
    + intros i. unfold get_index. by rewrite Hread.
  - apply setMetadata_too_long.
Qed.

(** *** [chooseCandidate] *)

Lemma chooseCandidate_no_output this index (st : store) :
  lastOutput this = None ->
  chooseCandidate this index st
  = (Throws (Error (str "No previous output in this chat session")), st).
Proof. intros H. unfold chooseCandidate. by rewrite H. Qed.

Lemma chooseCandidate_beyond this last index (st : store) :
  lastOutput this = Some last ->
  (Z.of_nat (length (candidates last)) <= index)%Z ->
  chooseCandidate this index st
  = (Throws (Error (str "Index "
                      ++ number_toString (number_of_literal (str (pretty index)))
                      ++ str " exceeds number of candidates")), st).
Proof.
  intros H Hi. unfold chooseCandidate. rewrite H.
  by replace (_ <=? _)%Z with true by (symmetry; by apply Z.leb_le).
Qed.

(** A valid index writes the candidate's id to slot 2 of the pointer
    and returns the last output with the chosen candidate on top. *)
Lemma chooseCandidate_valid this last i chosen l (slots : list value) (st : store) :
  lastOutput this = Some last ->
  candidates last !! i = Some chosen ->
  chat_metadata this = Obj l ->
  st !! l = Some (VArr slots) ->
  chooseCandidate this (Z.of_nat i) st
  = (Returns {| metadata := metadata last;
                candidates := candidates last;
                top := chosen |},
     <[l:=VArr (array_set slots 2 (rcid chosen))]> st).
Proof.
  intros Hlast Hi Hthis Hl. unfold chooseCandidate. rewrite Hlast.
  assert (i < length (candidates last)) by (apply lookup_lt_is_Some; eauto).
  replace (_ <=? _)%Z with false by (symmetry; apply Z.leb_gt; lia).
  replace (Z.of_nat i <? 0)%Z with false by (symmetry; apply Z.ltb_ge; lia).
  rewrite Nat2Z.id, Hi. unfold mbind, heap_bind, set_rcid.
  by rewrite Hthis, (set_index_array _ _ _ _ _ Hl).
Qed.

(** C5, at the indices the range check misses.  With a last output, a
    negative index passes the test [index >= candidates.length]; the
    candidate read is [undefined] and reading its [rcid] throws a
    [TypeError], not the error of an index out of range.  The store is
    as before. *)
Theorem chooseCandidate_negative_index this last index (st : store) :
  lastOutput this = Some last ->
  (index < 0)%Z ->
  chooseCandidate this index st = (Throws TypeError, st).
Proof.
  intros Hlast Hneg. unfold chooseCandidate. rewrite Hlast.
  replace (_ <=? _)%Z with false by (symmetry; apply Z.leb_gt; lia).
  by replace (index <? 0)%Z with true by (symmetry; by apply Z.ltb_lt).
Qed.

(** *** Three slots *)

Lemma set_index_three_slots this i x (st : store) :
  three_slots st this -> i < 3 ->
  exists st', set_index (chat_metadata this) i x st = (Returns (), st')
              /\ three_slots st' this.
Proof.
  intros (l & slots & Hthis & Hl & Hlen) Hi.
  rewrite Hthis, (set_index_array _ _ _ _ _ Hl). eexists; split; [done|].
  exists l, (array_set slots i x). repeat split; auto.
  - apply list_lookup_insert_eq. apply lookup_lt_is_Some; eauto.
  - rewrite length_array_set; lia.
Qed.

Lemma setMetadata_three_slots this T (st st' : store) :
  three_slots st this ->
  setMetadata this T st = (Returns (), st') ->
  three_slots st' this.
Proof.
  intros (l & slots & Hthis & Hl & Hlen) Hset.
  destruct (decide (length T <= 3)) as [HT|HT].
  - rewrite (setMetadata_array this l slots T st Hthis Hl HT) in Hset.
    injection Hset as <-.
    exists l, (T ++ drop (length T) slots). repeat split; auto.
    + apply list_lookup_insert_eq. apply lookup_lt_is_Some; eauto.
    + rewrite length_app, length_drop. lia.
  - rewrite setMetadata_too_long in Hset by lia. discriminate.
Qed.

Lemma heap_bind_returns {A B} (m : heap_op A) (f : A -> heap_op B) st b st' :
  (m ≫= f) st = (Returns b, st') ->
  exists a st1, m st = (Returns a, st1) /\ f a st1 = (Returns b, st').
Proof.
  unfold mbind, heap_bind. destruct (m st) as [[a| |] st1]; try discriminate.
  eauto.
Qed.

Lemma optional_set_three_slots this i v (st st' : store) :
  i < 3 -> three_slots st this ->
  (if truthy v then set_index (chat_metadata this) i v else mret ()) st
  = (Returns (), st') ->
  three_slots st' this.
Proof.
  intros Hi H3. destruct (truthy v).
  - destruct (set_index_three_slots this i v st H3 Hi) as (st1 & -> & H3').
    by intros [= <-].
  - by intros [= <-].
Qed.

(** The constructor leaves a pointer of three slots. *)
Lemma new_ChatSession_three_slots options this (st st' : store) :
  new_ChatSession options st = (Returns this, st') ->
  three_slots st' this.
Proof.
  unfold new_ChatSession. cbv beta iota zeta delta [alloc].
  set (this0 := {| chat_metadata := Obj (length st); lastOutput := None;
                   model := default UNSPECIFIED (opt_model options) |}).
  assert (H0 : three_slots (st ++ [VArr [VNull; VNull; VNull]]) this0).
  { exists (length st), [VNull; VNull; VNull]. repeat split.
    by rewrite lookup_app_r, Nat.sub_diag by lia. }
  intros H.
  apply heap_bind_returns in H as ([] & st1 & Hm & H).
  apply heap_bind_returns in H as ([] & st2 & Hc & H).
  apply heap_bind_returns in H as ([] & st3 & Hr & H).
  apply heap_bind_returns in H as ([] & st4 & Hrc & H).
  injection H as <- <-.
  assert (H1 : three_slots st1 this0).
  { destruct (opt_metadata options) as [m|].
    - by apply (setMetadata_three_slots this0 m _ st1 H0).
    - by injection Hm as <-. }
  apply (optional_set_three_slots this0 2 (opt_rcid options) st3); [lia| |done].
  apply (optional_set_three_slots this0 1 (opt_rid options) st2); [lia| |done].
  by apply (optional_set_three_slots this0 0 (opt_cid options) st1); [lia| |].
Qed.

(** The update after a turn leaves three slots when the decoded metadata
    is an array of at most three elements. *)
Lemma update_chat_three_slots chat output l (items : list value) (st : store) :
  metadata output = Obj l ->
  st !! l = Some (VArr items) ->
  length items <= 3 ->
  exists st', update_chat chat output st = (fst (update_chat chat output st), (Returns (), st'))
              /\ three_slots st' (fst (update_chat chat output st)).
Proof.
  intros Hm Hl Hlen. unfold update_chat, set_rcid. simpl.
  rewrite Hm, (set_index_array _ _ _ _ _ Hl).
  eexists. split; [reflexivity|].
  exists l, (array_set items 2 (rcid (top output))). repeat split.
  - apply list_lookup_insert_eq. apply lookup_lt_is_Some; eauto.
  - unfold array_set. destruct (2 <? length items) eqn:H2.
    + apply Nat.ltb_lt in H2. rewrite length_insert. lia.
    + apply Nat.ltb_ge in H2.
      rewrite !length_app, length_replicate. simpl. lia.
Qed.

Lemma chooseCandidate_three_slots this index r (st st' : store) :
  three_slots st this ->
  chooseCandidate this index st = (Returns r, st') ->
  three_slots st' this.
Proof.
  intros H3 Hc. unfold chooseCandidate in Hc.
  destruct (lastOutput this) as [last|]; [|discriminate].
  destruct (_ <=? _)%Z; [discriminate|].
  destruct (if (index <? 0)%Z then _ else _) as [chosen|]; [|discriminate].
  unfold mbind, heap_bind, set_rcid in Hc.
  destruct (set_index_three_slots this 2 (rcid chosen) st H3) as (st2 & Heq & H3');
    [lia|].
  rewrite Heq in Hc. injection Hc as _ <-. exact H3'.
Qed.

End PointerProperties.

(** ** The decoder *)

(** The index moves by one when the search steps over an index without
    a main part. *)
Ltac step_later Hmain :=
  let k := fresh "k" in let Hk := fresh "Hk" in
  let Hbody := fresh "Hbody" in let Hfirst := fresh "Hfirst" in
  intros (k & Hk & Hbody & Hfirst); exists (S k);
  rewrite Nat.add_succ_r; repeat split; [lia|done|];
  intros [|?j] ?Hj ?b;
  [rewrite Nat.add_0_r, Hmain; discriminate
  |rewrite Nat.add_succ_r; apply Hfirst; lia].

Ltac step_earlier Hmain :=
  let k := fresh "k" in let Hk := fresh "Hk" in
  let Hbody := fresh "Hbody" in let Hfirst := fresh "Hfirst" in
  intros (k & Hk & Hbody & Hfirst); destruct k as [|k];
  [rewrite Nat.add_0_r, Hmain in Hbody; discriminate
  |exists k; rewrite Nat.add_succ_r in Hbody; repeat split; [lia|done|];
   let j := fresh "j" in let Hj := fresh "Hj" in let b := fresh "b" in
   intros j Hj b; specialize (Hfirst (S j) ltac:(lia) b);
   by rewrite Nat.add_succ_r in Hfirst].

Ltac none_later Hmain :=
  let Hall := fresh "Hall" in
  intros Hall [|?k] ?Hk ?b;
  [rewrite Nat.add_0_r, Hmain; discriminate
  |rewrite Nat.add_succ_r; apply Hall; lia].

Ltac none_earlier :=
  let Hall := fresh "Hall" in let k := fresh "k" in
  let Hk := fresh "Hk" in let b := fresh "b" in
  intros Hall k Hk b; specialize (Hall (S k) ltac:(lia) b);
  by rewrite Nat.add_succ_r in Hall.

Section DecoderProperties.
Context `{E : Engine}.

(** *** No dependence on the client *)



(** *** The search for the body *)

Lemma main_part_qualifies (elems : list value) i body :
  main_part (VArr elems) i = Returns (Some body)
  <-> exists entry, elems !! i = Some entry /\ qualifies entry body.
Proof.
  unfold main_part, qualifies. simpl. split.
  - destruct (elems !! i) as [entry|] eqn:Hentry; simpl; [|discriminate].
    destruct (get entry 2) as [encoded| |] eqn:Hencoded; simpl; try discriminate.
    destruct (JSON_parse_value encoded) as [mainPart| |] eqn:Hparse; simpl;
      try discriminate.
    destruct (get mainPart 4) as [m4| |] eqn:Hm4; simpl; try discriminate.
    destruct (truthy m4) eqn:Htruthy; [|discriminate].
    intros [= <-]. eauto 10.
  - intros (entry & Hentry & encoded & m4 & Hencoded & Hparse & Hm4 & Htruthy).
    rewrite Hentry. simpl. rewrite Hencoded. simpl. rewrite Hparse. simpl.
    rewrite Hm4. simpl. by rewrite Htruthy.
Qed.

(** The search returns the main part at the first index that has one. *)
Lemma find_body_first responseJson n : forall i body,
  find_body responseJson i n = Some body
  <-> exists k, k < n
        /\ main_part responseJson (i + k) = Returns (Some body)
        /\ forall j, j < k -> forall b, main_part responseJson (i + j) <> Returns (Some b).
Proof.
  induction n as [|n IH]; intros i body; simpl.
  - split; [discriminate|]. intros (k & Hk & _). lia.
  - destruct (main_part responseJson i) as [[mainPart|]| |] eqn:Hmain;
      [split|rewrite IH; split..].
    + intros [= <-]. exists 0. rewrite Nat.add_0_r. repeat split; [lia|done|lia].
    + intros (k & _ & Hk & Hfirst). destruct k as [|k].
      * rewrite Nat.add_0_r, Hmain in Hk. by injection Hk as ->.
      * exfalso. apply (Hfirst 0 ltac:(lia) mainPart). by rewrite Nat.add_0_r.
    + step_later Hmain.
    + step_earlier Hmain.
    + step_later Hmain.
    + step_earlier Hmain.
    + step_later Hmain.
    + step_earlier Hmain.
Qed.

Lemma find_body_none responseJson n : forall i,
  find_body responseJson i n = None
  <-> forall k, k < n -> forall b, main_part responseJson (i + k) <> Returns (Some b).
Proof.
  induction n as [|n IH]; intros i; simpl.
  - split; [intros _ k Hk; lia|done].
  - destruct (main_part responseJson i) as [[mainPart|]| |] eqn:Hmain;
      [split|rewrite IH; split..].
    + discriminate.
    + intros Hall. destruct (Hall 0 ltac:(lia) mainPart). by rewrite Nat.add_0_r.
    + none_later Hmain.
    + none_earlier.
    + none_later Hmain.
    + none_earlier.
    + none_later Hmain.
    + none_earlier.
Qed.

Lemma locate_body_array (elems : list value) :
  locate_body (VArr elems)
  = match find_body (VArr elems) 0 (length elems) with
    | Some body => Returns body
    | None => Throws (Error (str "No valid response body found"))
    end.
Proof. reflexivity. Qed.

Lemma parseResponse_envelope this text responseJson :
  3 <= length (split_on 10 text) ->
  JSON_parse (default [] (split_on 10 text !! 2)) = Returns responseJson ->
  parseResponse this text
  = try_catch (body ← locate_body responseJson; assemble this body) parse_failure.
Proof.
  intros Hlines Hjson. unfold parseResponse.
  replace (length (split_on 10 text) <? 3) with false
    by (symmetry; apply Nat.ltb_ge; lia).
  by rewrite Hjson.
Qed.

(** A result always has a candidate, and its metadata is index 1 of the
    body. *)
Lemma assemble_returns this body r :
  assemble this body = Returns r ->
  get body 1 = Returns (metadata r) /\ candidates r <> [].
Proof.
  unfold assemble.
  destruct (decode_all_candidates this body) as [[|first rest]| |]; simpl;
    try discriminate.
  destruct (get body 1) as [m| |]; simpl; try discriminate.
  by intros [= <-].
Qed.

(** C7.  When line 2 of the response decodes to an array, the body is
    looked for among its entries in order.  If no entry qualifies, that
    is has an index 2 that decodes to a value with a truthy index 4, the
    decode fails with [No valid response body found].  Otherwise the
    decode goes on with the value decoded from the first entry that
    qualifies: an empty candidate list at its index 4 makes it fail with
    [No candidates found in response], and a result, when there is one,
    has the body's index 1 as metadata and at least one candidate. *)
Theorem parseResponse_selects_body this text (elems : list value) :
  3 <= length (split_on 10 text) ->
  JSON_parse (default [] (split_on 10 text !! 2)) = Returns (VArr elems) ->
  ((forall entry body, entry ∈ elems -> ~ qualifies entry body) ->
   parseResponse this text
   = Throws (ParseFailure (Error (str "No valid response body found"))))
  /\ (forall i entry body,
        elems !! i = Some entry ->
        qualifies entry body ->
        (forall j e b, j < i -> elems !! j = Some e -> ~ qualifies e b) ->
        parseResponse this text = try_catch (assemble this body) parse_failure
        /\ (get body 4 = Returns (VArr []) ->
            parseResponse this text
            = Throws (ParseFailure (Error (str "No candidates found in response"))))
        /\ (forall r, parseResponse this text = Returns r ->
                      get body 1 = Returns (metadata r) /\ candidates r <> [])).
Proof.
  intros Hlines Hjson.
  rewrite (parseResponse_envelope this text _ Hlines Hjson), locate_body_array.
  split.
  - intros Hnone.
    assert (find_body (VArr elems) 0 (length elems) = None) as ->; [|done].
    apply find_body_none. intros k Hk b Hmain.
    apply main_part_qualifies in Hmain as (entry & Hentry & Hq).
    apply (Hnone entry b); [|done]. by apply list_elem_of_lookup_2 in Hentry.
  - intros i entry body Hentry Hq Hfirst.
    assert (find_body (VArr elems) 0 (length elems) = Some body) as ->.
    { apply find_body_first. exists i. repeat split.
      - apply lookup_lt_is_Some; eauto.
      - apply main_part_qualifies; eauto.
      - intros j Hj b Hmain.
        apply main_part_qualifies in Hmain as (e & He & Hqe).
        by apply (Hfirst j e b). }
    simpl. split; [done|split].
    + intros Hempty. unfold assemble, decode_all_candidates.
      by rewrite Hempty.
    + intros r.
      destruct (assemble this body) as [r'| |] eqn:Hassemble; try discriminate.
      intros [= <-]. by apply (assemble_returns this).
Qed.

(** *** What the decoding of a candidate can throw *)

(** Induction on values, with the elements of an array. *)
Lemma value_nested_ind (P : value -> Prop) :
  P VUndef -> P VNull -> (forall b, P (VBool b)) -> (forall n, P (VNum n)) ->
  (forall s, P (VStr s)) ->
  (forall items, Forall P items -> P (VArr items)) ->
  (forall members, P (VObj members)) ->
  forall v, P v.
Proof.
  intros HU HN HB HNum HS HA HO.
  fix IH 1. intros [| |b|n|s|items|members].
  - exact HU.
  - exact HN.
  - apply HB.
  - apply HNum.
  - apply HS.
  - apply HA. induction items as [|x items IHitems]; constructor.
    + apply IH.
    + exact IHitems.
  - apply HO.
Qed.

Lemma only_TypeError_bind {A B} (m : outcome A) (f : A -> outcome B) :
  only_TypeError m -> (forall a, only_TypeError (f a)) -> only_TypeError (m ≫= f).
Proof. destruct m; simpl; auto; contradiction. Qed.

Lemma only_TypeError_get v i : only_TypeError (get v i).
Proof. by destruct v. Qed.


Lemma only_TypeError_toString v : only_TypeError (toString v).
Proof.
  induction v as [| |[|]|n|s|items IH|members] using value_nested_ind;
    simpl; try done.
  - generalize true. induction IH as [|x items Hx _ IHitems]; intros first; [done|].
    apply only_TypeError_bind.
    + by destruct x.
    + intros s. apply only_TypeError_bind; [apply IHitems|done].
  - by destruct (own_property _ _).
Qed.

Lemma only_TypeError_iterate v : only_TypeError (iterate v).
Proof. by destruct v. Qed.

Create HintDb only_TypeError.
#[local] Hint Resolve only_TypeError_get only_TypeError_toString
  only_TypeError_iterate : only_TypeError.

Ltac only_TypeError_step :=
  match goal with
  | |- only_TypeError (_ ≫= _) => apply only_TypeError_bind; [|intros ?]
  | |- only_TypeError (if ?b then _ else _) => destruct b
  | |- only_TypeError (match ?v with VStr _ => _ | _ => _ end) => destruct v
  | |- only_TypeError (Returns _) => exact I
  | |- only_TypeError (Throws TypeError) => reflexivity
  | |- only_TypeError _ => solve [auto with only_TypeError]
  end.

Lemma only_TypeError_decode_text candidate : only_TypeError (decode_text candidate).
Proof. unfold decode_text. repeat only_TypeError_step. Qed.

Lemma only_TypeError_decode_webImage w : only_TypeError (decode_webImage w).
Proof. unfold decode_webImage. repeat only_TypeError_step. Qed.

Lemma only_TypeError_read_generatedImage g : only_TypeError (read_generatedImage g).
Proof. unfold read_generatedImage. repeat only_TypeError_step. Qed.

(** A loop outside any [try] whose rounds can only throw a
    [TypeError]. *)
Lemma only_TypeError_collect_all {A} (body : value -> outcome (option A)) items :
  (forall x, only_TypeError (body x)) -> only_TypeError (collect_all body items).
Proof.
  intros Hbody. unfold collect_all.
  induction items as [|x items IH]; simpl; [done|].
  specialize (Hbody x). destruct (body x) as [o| |]; simpl in *; try done.
  destruct (collect body items) as [pushed ending]. simpl in *.
  by destruct ending.
Qed.

Lemma decode_generatedImage_skips genImage :
  decode_generatedImage genImage = Returns (readable_generatedImage genImage).
Proof.
  unfold decode_generatedImage, readable_generatedImage, or_else.
  pose proof (only_TypeError_read_generatedImage genImage) as H.
  by destruct (read_generatedImage genImage).
Qed.

(** A loop whose rounds all return keeps what they give, in order. *)
Lemma collect_all_returns {A} (body : value -> outcome (option A)) f items :
  (forall x, body x = Returns (f x)) ->
  collect_all body items = Returns (omap f items).
Proof.
  intros Hbody. unfold collect_all.
  induction items as [|x items IH]; simpl; [done|].
  rewrite Hbody. destruct (collect body items) as [pushed ending].
  destruct ending as [[]| |]; simpl in *; try discriminate.
  injection IH as ->. by destruct (f x).
Qed.

(** A loop outside any [try] with a round that throws. *)
Lemma collect_all_throws {A} (body : value -> outcome (option A)) items x e :
  (forall y, only_TypeError (body y)) ->
  x ∈ items -> body x = Throws e ->
  collect_all body items = Throws TypeError.
Proof.
  intros Hbody Hx Hthrows. unfold collect_all.
  induction Hx as [x items|x y items Hx IH]; simpl.
  - rewrite Hthrows. simpl. specialize (Hbody x). rewrite Hthrows in Hbody.
    simpl in Hbody. by subst.
  - specialize (IH Hthrows). specialize (Hbody y).
    destruct (body y) as [o| |]; simpl in *; try done; [|by subst].
    destruct (collect body items) as [pushed ending]. simpl in *.
    by destruct ending.
Qed.

Lemma only_TypeError_decode_webImages candidate :
  only_TypeError (decode_webImages candidate).
Proof.
  unfold decode_webImages. repeat only_TypeError_step.
  apply only_TypeError_collect_all, only_TypeError_decode_webImage.
Qed.

Lemma only_TypeError_decode_generatedImages candidate :
  only_TypeError (decode_generatedImages candidate).
Proof.
  unfold decode_generatedImages. repeat only_TypeError_step.
  apply only_TypeError_collect_all. intros x.
  by rewrite decode_generatedImage_skips.
Qed.

Lemma only_TypeError_decode_candidate this candidate :
  only_TypeError (decode_candidate this candidate).
Proof.
  unfold decode_candidate.
  apply only_TypeError_bind; [apply only_TypeError_decode_text|intros text].
  destruct (decode_factuality_sources candidate) as [f srcs].
  apply only_TypeError_bind; [apply only_TypeError_decode_webImages|intros w].
  apply only_TypeError_bind; [apply only_TypeError_decode_generatedImages|intros g].
  repeat only_TypeError_step.
Qed.

Lemma only_TypeError_decode_candidates this entries n : forall i,
  only_TypeError (decode_candidates this entries i n).
Proof.
  induction n as [|n IH]; intros i; simpl; [done|].
  apply only_TypeError_bind; [apply only_TypeError_get|intros c].
  apply only_TypeError_bind; [apply only_TypeError_decode_candidate|intros d].
  apply only_TypeError_bind; [apply IH|done].
Qed.

(** One candidate that throws makes the loop over the candidates throw. *)
Lemma decode_candidates_throws this (cands : list value) k candidate e :
  cands !! k = Some candidate ->
  decode_candidate this candidate = Throws e ->
  decode_candidates this (VArr cands) 0 (length cands) = Throws TypeError.
Proof.
  intros Hk Hthrows.
  assert (Hgen : forall n i, i + n = length cands -> i <= k ->
            decode_candidates this (VArr cands) i n = Throws TypeError).
  { induction n as [|n IH]; intros i Hn Hi.
    - apply lookup_lt_Some in Hk. lia.
    - simpl. destruct (cands !! i) as [c|] eqn:Hc; simpl;
        [|apply lookup_ge_None in Hc; lia].
      destruct (decide (i = k)) as [->|Hne].
      + assert (c = candidate) as -> by congruence.
        pose proof (only_TypeError_decode_candidate this candidate) as H.
        rewrite Hthrows in *. simpl in *. by subst.
      + pose proof (only_TypeError_decode_candidate this c) as H.
        destruct (decode_candidate this c) as [d| |]; simpl in *; try done;
          [|by subst].
        rewrite IH by lia. reflexivity. }
  apply Hgen; lia.
Qed.

(** *** Web images and generated images *)

Lemma decode_webImages_absent candidate c12 :
  get candidate 12 = Returns c12 ->
  truthy c12 = false \/ (exists e, get c12 1 = Returns e /\ truthy e = false) ->
  decode_webImages candidate = Returns [].
Proof.
  intros H12 Habsent. unfold decode_webImages. rewrite H12. simpl.
  destruct Habsent as [->|(e & He & Hfalsy)]; [done|].
  destruct (truthy c12); [|done]. rewrite He. simpl. by rewrite Hfalsy.
Qed.

Lemma decode_webImages_malformed candidate c12 items w e :
  get candidate 12 = Returns c12 ->
  truthy c12 = true ->
  get c12 1 = Returns (VArr items) ->
  w ∈ items ->
  decode_webImage w = Throws e ->
  decode_webImages candidate = Throws TypeError.
Proof.
  intros H12 Htruthy H1 Hw Hthrows.
  unfold decode_webImages. rewrite H12. simpl. rewrite Htruthy, H1. simpl.
  by apply (collect_all_throws decode_webImage items w e
              only_TypeError_decode_webImage).
Qed.

(** A throw in the web images is the outcome of the candidate: the text
    is decoded before and can only throw a [TypeError] itself. *)
Lemma decode_candidate_webImages_throw this candidate :
  decode_webImages candidate = Throws TypeError ->
  decode_candidate this candidate = Throws TypeError.
Proof.
  intros Hweb. unfold decode_candidate.
  pose proof (only_TypeError_decode_text candidate) as Htext.
  destruct (decode_text candidate) as [text| |]; simpl in *; try done;
    [|by subst].
  destruct (decode_factuality_sources candidate). by rewrite Hweb.
Qed.

(** A candidate of the body that throws makes [parseResponse] fail. *)
Lemma parseResponse_candidate_throws this text responseJson body
    (cands : list value) k candidate e :
  3 <= length (split_on 10 text) ->
  JSON_parse (default [] (split_on 10 text !! 2)) = Returns responseJson ->
  locate_body responseJson = Returns body ->
  get body 4 = Returns (VArr cands) ->
  cands !! k = Some candidate ->
  decode_candidate this candidate = Throws e ->
  parseResponse this text = Throws (ParseFailure TypeError).
Proof.
  intros Hlines Hjson Hbody Hcands Hk Hthrows.
  rewrite (parseResponse_envelope this text _ Hlines Hjson), Hbody. simpl.
  unfold assemble, decode_all_candidates. rewrite Hcands. simpl.
  by rewrite (decode_candidates_throws this cands k candidate e Hk Hthrows).
Qed.

Lemma decode_generatedImages_array candidate c12 c127 items :
  get candidate 12 = Returns c12 ->
  truthy c12 = true ->
  get c12 7 = Returns c127 ->
  truthy c127 = true ->
  get c127 0 = Returns (VArr items) ->
  decode_generatedImages candidate = Returns (omap readable_generatedImage items).
Proof.
  intros H12 Htruthy H7 Htruthy7 H0.
  unfold decode_generatedImages. rewrite H12. simpl. rewrite Htruthy, H7. simpl.
  rewrite Htruthy7, H0. simpl.
  apply collect_all_returns, decode_generatedImage_skips.
Qed.

(** C2, as the code has it.  For a candidate with index 12 [c12]:
    - when [c12] or [c12[1]] is falsy, the web images are empty and
      nothing is thrown;
    - when [c12[1]] is an array with an entry whose fields cannot be
      read, the loop over the web images throws a [TypeError], so does
      the decoding of the candidate, and [parseResponse] fails as a
      whole on every response whose body lists the candidate: there is
      no guard around the entry or around the list;
    - when [c12[7][0]] is an array, the generated images are those of
      its entries whose fields can be read, in order; an entry whose
      fields cannot be read gives none and nothing is thrown. *)
Theorem image_lists_guards this candidate c12 :
  get candidate 12 = Returns c12 ->
  ((truthy c12 = false \/ exists e, get c12 1 = Returns e /\ truthy e = false) ->
   decode_webImages candidate = Returns [])
  /\ (forall items w e,
        truthy c12 = true ->
        get c12 1 = Returns (VArr items) ->
        w ∈ items ->
        decode_webImage w = Throws e ->
        decode_webImages candidate = Throws TypeError
        /\ decode_candidate this candidate = Throws TypeError
        /\ forall text responseJson body (cands : list value) k,
             3 <= length (split_on 10 text) ->
             JSON_parse (default [] (split_on 10 text !! 2)) = Returns responseJson ->
             locate_body responseJson = Returns body ->
             get body 4 = Returns (VArr cands) ->
             cands !! k = Some candidate ->
             parseResponse this text = Throws (ParseFailure TypeError))
  /\ (forall c127 items,
        truthy c12 = true ->
        get c12 7 = Returns c127 ->
        truthy c127 = true ->
        get c127 0 = Returns (VArr items) ->
        decode_generatedImages candidate
        = Returns (omap readable_generatedImage items)
        /\ forall genImage e,
             read_generatedImage genImage = Throws e ->
             readable_generatedImage genImage = None).
Proof.
  intros H12. split; [|split].
  - by apply decode_webImages_absent.
  - intros items w e Htruthy H1 Hw Hthrows.
    pose proof (decode_webImages_malformed candidate c12 items w e
                  H12 Htruthy H1 Hw Hthrows) as Hweb.
    pose proof (decode_candidate_webImages_throw this candidate Hweb) as Hcandidate.
    split; [done|split; [done|]].
    intros text responseJson body cands k Hlines Hjson Hbody Hcands Hk.
    by apply (parseResponse_candidate_throws this text responseJson body cands k
                candidate TypeError).
  - intros c127 items Htruthy H7 Htruthy7 H0. split.
    + by apply (decode_generatedImages_array candidate c12 c127 items).
    + intros genImage e Hthrows. unfold readable_generatedImage. by rewrite Hthrows.
Qed.

(** *** Code blocks *)


Lemma collect_returns {A} (body : value -> outcome (option A)) f items :
  (forall x, body x = Returns (f x)) ->
  collect body items = (omap f items, Returns ()).
Proof.
  intros Hbody. induction items as [|x items IH]; simpl; [done|].
  rewrite Hbody, IH. by destruct (f x).
Qed.


Lemma fence_backticks : fence = [96; 96; 96]%N.
Proof. reflexivity. Qed.

Lemma strip_prefix_cons a p b s :
  strip_prefix (a :: p) (b :: s) = if (a =? b)%N then strip_prefix p s else None.
Proof. reflexivity. Qed.

#[local] Arguments N.eqb : simpl never.

Lemma until_fence_unfold s :
  until_fence s
  = match strip_prefix fence s with
    | Some rest => Some ([], rest)
    | None =>
        match s with
        | c :: s' => match until_fence s' with
                     | Some (body, rest) => Some (c :: body, rest)
                     | None => None
                     end
        | [] => None
        end
    end.
Proof. by destruct s. Qed.

Lemma fenced_blocks_unfold c s :
  fenced_blocks 0 (c :: s)
  = match fenced_block_at (c :: s) with
    | Some (tag, body, len) => (tag, body) :: fenced_blocks (len - 1) s
    | None => fenced_blocks 0 s
    end.
Proof. reflexivity. Qed.

Lemma strip_fence s r :
  strip_prefix fence s = Some r <-> s = 96%N :: 96%N :: 96%N :: r.
Proof.
  rewrite fence_backticks. split.
  - destruct s as [|a [|b [|c s]]]; try discriminate.
    + rewrite strip_prefix_cons. destruct (96 =? a)%N; discriminate.
    + rewrite !strip_prefix_cons.
      destruct (96 =? a)%N; [|discriminate]. destruct (96 =? b)%N; discriminate.
    + rewrite !strip_prefix_cons.
      destruct (N.eqb_spec 96 a) as [<-|]; [|discriminate].
      destruct (N.eqb_spec 96 b) as [<-|]; [|discriminate].
      destruct (N.eqb_spec 96 c) as [<-|]; [|discriminate].
      by intros [= ->].
  - by intros ->.
Qed.

Lemma fence_free_cons c s :
  fence_free (c :: s) = true ->
  strip_prefix fence (c :: s) = None /\ fence_free s = true.
Proof.
  unfold fence_free.
  change (includes fence (c :: s))
    with (match strip_prefix fence (c :: s) with
          | Some _ => true
          | None => includes fence s
          end).
  by destruct (strip_prefix fence (c :: s)).
Qed.

(** Where a fence-free string is followed by a fence, a fence can only
    start at one of its last two code units, and more than three
    backticks follow there. *)
Lemma fence_across pre s r :
  pre <> [] ->
  fence_free pre = true ->
  strip_prefix fence (pre ++ fence ++ s) = Some r ->
  exists r', r = 96%N :: r' /\ last pre = Some 96%N.
Proof.
  intros Hne Hfree Hstrip. apply strip_fence in Hstrip.
  rewrite fence_backticks in Hstrip.
  destruct pre as [|a [|b [|c pre]]]; [done|..];
    simpl in Hstrip; inversion Hstrip; subst.
  - eexists. by split.
  - eexists. by split.
  - exfalso. destruct (fence_free_cons _ _ Hfree) as [Hnone _].
    by rewrite (proj2 (strip_fence (96%N :: 96%N :: 96%N :: pre) pre)) in Hnone.
Qed.

Lemma fenced_block_at_backticks s :
  fenced_block_at (96%N :: 96%N :: 96%N :: 96%N :: s) = None.
Proof. unfold fenced_block_at. by rewrite (proj2 (strip_fence _ (96%N :: s)) eq_refl). Qed.



Lemma fenced_blocks_skip l s : fenced_blocks (length l) (l ++ s) = fenced_blocks 0 s.
Proof. induction l as [|c l IH]; [by destruct s|exact IH]. Qed.

(** The closing fence is the first one after the body when the body is
    fence-free and does not end in a backtick. *)
Lemma until_fence_body body post :
  fence_free body = true -> last body <> Some 96%N ->
  until_fence (body ++ fence ++ post) = Some (body, post).
Proof.
  induction body as [|c body IH]; intros Hfree Hlast.
  - rewrite app_nil_l, until_fence_unfold.
    by rewrite (proj2 (strip_fence (fence ++ post) post)).
  - destruct (fence_free_cons _ _ Hfree) as [_ Hfree'].
    rewrite until_fence_unfold.
    destruct (strip_prefix fence ((c :: body) ++ fence ++ post)) as [r|] eqn:Hstrip.
    + by destruct (fence_across (c :: body) post r ltac:(done) Hfree Hstrip)
        as (_ & _ & ?).
    + rewrite <- app_comm_cons, IH; [done|done|].
      destruct body as [|d body]; [done|]. by rewrite last_cons_cons in Hlast.
Qed.

Lemma span_word tag c r :
  forallb is_word tag = true -> is_word c = false ->
  span is_word (tag ++ c :: r) = (tag, c :: r).
Proof.
  intros Htag Hc. induction tag as [|t tag IH]; simpl.
  - by rewrite Hc.
  - simpl in Htag. apply andb_prop in Htag as [Ht Htag]. by rewrite Ht, IH.
Qed.


Lemma scanned_blocks_string s :
  s <> [] ->
  scanned_blocks (VStr s)
  = (fun '(tag, body) =>
       {| language := VStr (default (str "text") tag); code := VStr (trim body) |})
      <$> fenced_blocks 0 s.
Proof. by destruct s. Qed.


End DecoderProperties.

Section ConcreteResponses.
Context `{E : Engine}.

(** C1, as the code has it.  On the text of scenario A [parseResponse]
    fails with [No valid response body found]: the encoded body has no
    index 4.  On the text whose body has the candidate list at index 4
    and the candidate [[0, ["hi"]]] it returns a result with exactly one
    candidate, of text [hi], whose images, code blocks and sources are
    empty. *)
Theorem scenario_A_decoding this :
  parseResponse this scenario_A
  = Throws (ParseFailure (Error (str "No valid response body found")))
  /\ exists r candidate,
       parseResponse this scenario_A_index4 = Returns r
       /\ candidates r = [candidate]
       /\ top r = candidate
       /\ text candidate = VStr (str "hi")
       /\ images candidate = []
       /\ codeBlocks candidate = []
       /\ sources candidate = [].
Proof.
  split.
  - vm_compute. reflexivity.
  - eexists. eexists. split; [vm_compute; reflexivity|].
    repeat split.
Qed.

(** C6, on a response whose metadata has four elements.  A chat made by
    the constructor has a pointer of three slots; after a successful
    [sendMessage] on that response the pointer is the decoded metadata
    with the candidate's id written to slot 2, all four elements of it:
    the metadata is neither rejected nor cut to three. *)
Theorem sendMessage_adopts_long_metadata :
  let options := {| opt_model := None; opt_metadata := None;
                    opt_cid := VUndef; opt_rid := VUndef; opt_rcid := VUndef |} in
  let axios := fun _ : Request => Response 200 long_metadata_response in
  exists chat st,
    new_ChatSession options [] = (Returns chat, st)
    /\ three_slots st chat
    /\ exists output s' chat',
         sendMessage axios chat (str "hello")
           {| client := ready_client; objects := st; sent := [] |}
         = (Returns output, s', Some chat')
         /\ deref (objects s') (chat_metadata chat')
            = VArr [VStr (str "c"); VStr (str "r"); VStr (str "rc1"); VStr (str "x")]
         /\ ~ three_slots (objects s') chat'.
Proof.
  simpl. eexists. eexists. split; [vm_compute; reflexivity|]. split.
  - exists 0, [VNull; VNull; VNull]. by repeat split.
  - eexists. eexists. eexists. split; [vm_compute; reflexivity|]. split.
    + reflexivity.
    + intros (l & slots & Hl & Hslots & Hlen). simpl in Hl. injection Hl as <-.
      simpl in Hslots. injection Hslots as <-. discriminate.
Qed.

End ConcreteResponses.

(** ** The properties on concrete inputs, with the reference engine *)

Section ReferenceProperties.
#[local] Existing Instance reference_engine.

(** C1: [parseResponse] does not succeed on the text of scenario A. *)
Lemma scenario_A_rejected :
  parseResponse fresh_client scenario_A
  = Throws (ParseFailure (Error (str "No valid response body found"))).
Proof. reflexivity. Qed.

(** C2: the failure of a web image does not stay in its list; the whole
    decode fails, and the text [hi] of the candidate is lost with it. *)
Lemma malformed_webImage_fails_decode :
  decode_text candidate_with_null_webImage = Returns (VStr (str "hi"))
  /\ parseResponse fresh_client malformed_webImage_response
     = Throws (ParseFailure TypeError).
Proof. split; reflexivity. Qed.


(** C9: a prompt of one space is not empty, and on a client that was
    never initialised the call throws [Prompt cannot be empty], not
    [Client not initialized]: the prompt is tested before the state. *)
Lemma blank_prompt_before_state :
  str " " <> []
  /\ running fresh_client = false
  /\ generateContent (fun _ => Response 200 scenario_A_index4) (str " ") UNSPECIFIED None
       {| client := fresh_client; objects := []; sent := [] |}
     = (Throws (Error (str "Prompt cannot be empty")),
        {| client := fresh_client; objects := []; sent := [] |}, None).
Proof. split; [discriminate|]. split; reflexivity. Qed.

Lemma image_lists_guards_witness :
  decode_webImages plain_candidate = Returns []
  /\ parseResponse fresh_client malformed_webImage_response
     = Throws (ParseFailure TypeError)
  /\ decode_generatedImages candidate_with_generatedImages
     = Returns [{| type := generated_image; url := VStr (str "u");
                   title := VStr (str "Generated Image"); alt := VStr [] |}].
Proof.
  split; [|split].
  - apply (proj1 (image_lists_guards fresh_client plain_candidate VUndef eq_refl)).
    left. reflexivity.
  - destruct (proj1 (proj2 (image_lists_guards fresh_client candidate_with_null_webImage
                              (VArr [VNull; VArr [VNull]]) eq_refl))
                [VNull] VNull TypeError eq_refl eq_refl
                (list_elem_of_here VNull []) eq_refl) as (_ & _ & Hparse).
    apply (Hparse malformed_webImage_response
             (VArr [VArr [VNull; VNull;
                          VStr (quoted "[null,['c','r'],null,null,[['rc1',['hi'],null,null,null,null,null,null,null,null,null,null,[null,[null]]]]]")]])
             (VArr [VNull; VArr [VStr (str "c"); VStr (str "r")]; VNull; VNull;
                    VArr [candidate_with_null_webImage]])
             [candidate_with_null_webImage] 0).
    + vm_compute. lia.
    + reflexivity.
    + reflexivity.
    + reflexivity.
    + reflexivity.
  - apply (proj1 (proj2 (proj2 (image_lists_guards fresh_client
                                  candidate_with_generatedImages
                                  (VArr (replicate 7 VNull
                                           ++ [VArr [VArr [VNull; readable_entry]]]))
                                  eq_refl))
                   (VArr [VArr [VNull; readable_entry]]) [VNull; readable_entry]
                   eq_refl eq_refl eq_refl eq_refl)).
Defined.


Lemma setMetadata_overwrites_prefix_witness :
  setMetadata empty_chat [VStr (str "c"); VStr (str "r")] three_nulls
  = (Returns (), [VArr [VStr (str "c"); VStr (str "r"); VNull]])
  /\ setMetadata empty_chat [VNull; VNull; VNull; VNull] three_nulls
     = (Throws (Error (str "Metadata cannot exceed 3 elements")), three_nulls).
Proof.
  split.
  - apply (proj1 (setMetadata_overwrites_prefix empty_chat 0 [VNull; VNull; VNull]
                    [VStr (str "c"); VStr (str "r")] three_nulls
                    eq_refl eq_refl eq_refl)).
    simpl. lia.
  - apply (proj2 (setMetadata_overwrites_prefix empty_chat 0 [VNull; VNull; VNull]
                    [VNull; VNull; VNull; VNull] three_nulls
                    eq_refl eq_refl eq_refl)).
    simpl. lia.
Defined.

Lemma chooseCandidate_negative_index_witness :
  chooseCandidate chat_after_turn (-1) three_nulls = (Throws TypeError, three_nulls).
Proof.
  apply (chooseCandidate_negative_index chat_after_turn _ (-1)%Z three_nulls eq_refl).
  reflexivity.
Defined.

Lemma parseResponse_selects_body_witness :
  parseResponse fresh_client scenario_A
  = Throws (ParseFailure (Error (str "No valid response body found")))
  /\ parseResponse fresh_client scenario_A_index4
     = try_catch
         (assemble fresh_client
            (VArr [VNull; VNull; VNull; VNull; VArr [VArr [VNum (number_of_literal (str "0"));
                                                           VArr [VStr (str "hi")]]]]))
         parse_failure.
Proof.
  split.
  - apply (proj1 (parseResponse_selects_body fresh_client scenario_A
                    [VArr [VNull; VNull;
                           VStr (quoted "[null,null,null,[[[0,['hi']]]]]")]]
                    ltac:(vm_compute; lia) eq_refl)).
    intros entry body Hentry Hq.
    apply list_elem_of_singleton in Hentry. subst entry.
    assert (Hmain : main_part
                      (VArr [VArr [VNull; VNull;
                                   VStr (quoted "[null,null,null,[[[0,['hi']]]]]")]]) 0
                    = Returns (Some body))
      by (apply main_part_qualifies; eauto).
    change (main_part _ 0) with (@Returns (option value) None) in Hmain.
    discriminate.
  - apply (proj2 (parseResponse_selects_body fresh_client scenario_A_index4
                    [VArr [VNull; VNull;
                           VStr (quoted "[null,null,null,null,[[0,['hi']]]]")]]
                    ltac:(vm_compute; lia) eq_refl)
             0 _ _ eq_refl).
    + exists (VStr (quoted "[null,null,null,null,[[0,['hi']]]]")),
        (VArr [VArr [VNum (number_of_literal (str "0")); VArr [VStr (str "hi")]]]).
      repeat split.
    + intros j e b Hj. lia.
Defined.

Lemma generateContent_blank_prompt_witness :
  generateContent (fun _ => Response 200 scenario_A_index4) (str "  ") UNSPECIFIED None
    {| client := ready_client; objects := []; sent := [] |}
  = (Throws (Error (str "Prompt cannot be empty")),
     {| client := ready_client; objects := []; sent := [] |}, None).
Proof. apply generateContent_blank_prompt. reflexivity. Defined.

Lemma generateContent_not_running_witness :
  generateContent (fun _ => Response 200 scenario_A_index4) (str "hello") UNSPECIFIED None
    {| client := fresh_client; objects := []; sent := [] |}
  = (Throws (Error (str "Client not initialized. Call init() first.")),
     {| client := fresh_client; objects := []; sent := [] |}, None).
Proof.
  apply (generateContent_not_running (fun _ => Response 200 scenario_A_index4)
           (str "hello") UNSPECIFIED None
           {| client := fresh_client; objects := []; sent := [] |}).
  - discriminate.
  - reflexivity.
Defined.

End ReferenceProperties.

(** * More properties *)

(** ** Lines of a response *)

Lemma split_on_whole sep s : sep ∉ s -> split_on sep s = [s].
Proof.
  induction s as [|c s IH]; [done|]. intros Hs.
  apply not_elem_of_cons in Hs as [Hc Hs]. simpl.
  destruct (N.eqb_spec c sep) as [->|_]; [done|]. by rewrite IH.
Qed.

Lemma split_on_first sep s rest :
  sep ∉ s -> split_on sep (s ++ sep :: rest) = s :: split_on sep rest.
Proof.
  induction s as [|c s IH]; intros Hs; simpl.
  - by rewrite N.eqb_refl.
  - apply not_elem_of_cons in Hs as [Hc Hs].
    destruct (N.eqb_spec c sep) as [->|_]; [done|]. by rewrite IH.
Qed.

Lemma split_on_last sep p e :
  sep ∉ e -> exists first init, split_on sep (p ++ sep :: e) = first :: init ++ [e].
Proof.
  intros He. induction p as [|c p (first & init & IH)]; simpl.
  - rewrite N.eqb_refl, (split_on_whole _ _ He). by exists [], [].
  - rewrite IH. destruct (c =? sep)%N.
    + by exists [], (first :: init).
    + by exists (c :: first), init.
Qed.

Section More.
Context `{E : Engine}.

Lemma JSON_parse_empty : JSON_parse [] = Throws (SyntaxError []).
Proof. reflexivity. Qed.

(** X1.  The lines of a response.  A text of one line or of two, the empty
    text included, is [Invalid response format]; a text that ends right
    after its second line feed fails on the empty third line, which is
    no JSON; and of a text of three lines or more only the third line
    counts: the lines before it and everything from the third line feed
    on do not enter the result. *)
Theorem parseResponse_lines this a b :
  10%N ∉ a -> 10%N ∉ b ->
  parseResponse this a = Throws (ParseFailure (Error (str "Invalid response format")))
  /\ parseResponse this (a ++ 10%N :: b)
     = Throws (ParseFailure (Error (str "Invalid response format")))
  /\ parseResponse this (a ++ 10%N :: b ++ [10%N])
     = Throws (ParseFailure (SyntaxError []))
  /\ (forall payload rest a' b',
        10%N ∉ payload -> 10%N ∉ a' -> 10%N ∉ b' ->
        parseResponse this (a ++ 10%N :: b ++ 10%N :: payload ++ 10%N :: rest)
        = parseResponse this (a' ++ 10%N :: b' ++ 10%N :: payload)).
Proof.
  intros Ha Hb. unfold parseResponse. repeat split.
  - by rewrite (split_on_whole _ a).
  - by rewrite split_on_first, (split_on_whole _ b).
  - by rewrite !split_on_first.
  - intros payload rest a' b' Hp Ha' Hb'.
    by rewrite !split_on_first, (split_on_whole _ payload).
Qed.

(** *** The candidates of a result *)

Lemma decode_candidates_array this (cands : list value) n : forall i cs,
  i + n = length cands ->
  decode_candidates this (VArr cands) i n = Returns cs
  <-> Forall2 (fun cand c => decode_candidate this cand = Returns c) (drop i cands) cs.
Proof.
  induction n as [|n IH]; intros i cs Hn; simpl.
  - rewrite drop_ge by lia. split.
    + intros [= <-]. constructor.
    + intros Hcs. by inversion Hcs.
  - destruct (cands !! i) as [cand|] eqn:Hcand;
      [|apply lookup_ge_None in Hcand; lia].
    rewrite (drop_S _ _ _ Hcand). simpl. split.
    + destruct (decode_candidate this cand) as [c| |] eqn:Hc; simpl; try discriminate.
      destruct (decode_candidates this (VArr cands) (S i) n) as [rest| |] eqn:Hrest;
        simpl; try discriminate.
      intros [= <-]. constructor; [done|]. apply IH; [lia|done].
    + intros Hcs. inversion Hcs as [|? c ? rest Hc Hrest]; subst.
      rewrite Hc. simpl. apply IH in Hrest; [|lia]. by rewrite Hrest.
Qed.

(** X2.  The candidates of a result are the decodings of the entries of
    [body[4]], in order, and there is a result exactly when every entry
    decodes and there is at least one. *)
Theorem assemble_lists_candidates this body (cands : list value) r :
  get body 4 = Returns (VArr cands) ->
  assemble this body = Returns r
  <-> Forall2 (fun cand c => decode_candidate this cand = Returns c) cands (candidates r)
      /\ head (candidates r) = Some (top r)
      /\ get body 1 = Returns (metadata r).
Proof.
  intros H4. unfold assemble, decode_all_candidates. rewrite H4. simpl. split.
  - destruct (decode_candidates this (VArr cands) 0 (length cands)) as [cs| |] eqn:Hcs;
      simpl; try discriminate.
    apply (decode_candidates_array this cands (length cands) 0 cs eq_refl) in Hcs.
    destruct cs as [|first cs]; [discriminate|].
    destruct (get body 1) as [m| |]; simpl; try discriminate.
    by intros [= <-].
  - intros (Hall & Hhead & Hm).
    apply (decode_candidates_array this cands (length cands) 0 _ eq_refl) in Hall.
    rewrite Hall. simpl.
    destruct r as [m cs first]. simpl in *.
    destruct cs as [|c cs]; [discriminate|]. injection Hhead as <-.
    by rewrite Hm.
Qed.

(** *** What every candidate of a result satisfies *)

Lemma collect_all_Forall {A} (body : value -> outcome (option A)) (P : A -> Prop)
    items l :
  (forall x a, body x = Returns (Some a) -> P a) ->
  collect_all body items = Returns l -> Forall P l.
Proof.
  intros Hbody. unfold collect_all. revert l.
  induction items as [|x items IH]; simpl; intros l.
  - intros [= <-]. constructor.
  - destruct (body x) as [o| |] eqn:Hx; simpl; try discriminate.
    destruct (collect body items) as [pushed ending].
    destruct ending as [[]| |]; simpl in *; try discriminate.
    specialize (IH pushed eq_refl). intros [= <-].
    destruct o as [a|]; [|done]. constructor; eauto.
Qed.

Lemma outcome_bind_returns {A B} (m : outcome A) (f : A -> outcome B) b :
  m ≫= f = Returns b -> exists a, m = Returns a /\ f a = Returns b.
Proof. destruct m as [a| |]; simpl; try discriminate. eauto. Qed.

Lemma decode_webImage_typed w image :
  decode_webImage w = Returns (Some image) -> type image = web_image.
Proof.
  unfold decode_webImage. intros Hw.
  repeat (apply outcome_bind_returns in Hw as (? & _ & Hw)).
  by injection Hw as <-.
Qed.

Lemma read_generatedImage_typed g image :
  read_generatedImage g = Returns image -> type image = generated_image.
Proof.
  unfold read_generatedImage. intros Hg.
  repeat (apply outcome_bind_returns in Hg as (? & _ & Hg)).
  by injection Hg as <-.
Qed.

Lemma decode_webImages_typed candidate l :
  decode_webImages candidate = Returns l -> Forall (fun i => type i = web_image) l.
Proof.
  unfold decode_webImages.
  destruct (get candidate 12) as [c12| |]; simpl; try discriminate.
  destruct (truthy c12); [|intros [= <-]; constructor].
  destruct (get c12 1) as [entries| |]; simpl; try discriminate.
  destruct (truthy entries); [|intros [= <-]; constructor].
  destruct (iterate entries) as [items| |]; simpl; try discriminate.
  apply collect_all_Forall, decode_webImage_typed.
Qed.

Lemma decode_generatedImages_typed candidate l :
  decode_generatedImages candidate = Returns l ->
  Forall (fun i => type i = generated_image) l.
Proof.
  unfold decode_generatedImages.
  destruct (get candidate 12) as [c12| |]; simpl; try discriminate.
  destruct (truthy c12); [|intros [= <-]; constructor].
  destruct (get c12 7) as [c127| |]; simpl; try discriminate.
  destruct (truthy c127); [|intros [= <-]; constructor].
  destruct (get c127 0) as [entries| |]; simpl; try discriminate.
  destruct (truthy entries); [|intros [= <-]; constructor].
  destruct (iterate entries) as [items| |]; simpl; try discriminate.
  apply collect_all_Forall. intros x a.
  rewrite decode_generatedImage_skips. unfold readable_generatedImage.
  destruct (read_generatedImage x) as [image| |] eqn:Hx; try discriminate.
  intros [= <-]. by apply (read_generatedImage_typed x).
Qed.

(** The images of a decoded candidate are its web images followed by
    its generated images, each list of its own type; its id is index 0
    of the entry and its text is what [decode_text] gives. *)
Lemma decode_candidate_shape this candidate c :
  decode_candidate this candidate = Returns c ->
  images c = webImages c ++ generatedImages c
  /\ Forall (fun i => type i = web_image) (webImages c)
  /\ Forall (fun i => type i = generated_image) (generatedImages c)
  /\ get candidate 0 = Returns (rcid c)
  /\ decode_text candidate = Returns (text c).
Proof.
  unfold decode_candidate.
  destruct (decode_text candidate) as [t| |]; simpl; try discriminate.
  destruct (decode_factuality_sources candidate) as [f srcs].
  destruct (decode_webImages candidate) as [w| |] eqn:Hw; simpl; try discriminate.
  destruct (decode_generatedImages candidate) as [g| |] eqn:Hg; simpl; try discriminate.
  destruct (get candidate 0) as [id| |]; simpl; try discriminate.
  intros [= <-]. simpl. repeat split.
  - by apply (decode_webImages_typed candidate).
  - by apply (decode_generatedImages_typed candidate).
Qed.

Lemma decode_candidates_Forall this (P : Candidate -> Prop) entries n : forall i cs,
  (forall candidate c, decode_candidate this candidate = Returns c -> P c) ->
  decode_candidates this entries i n = Returns cs -> Forall P cs.
Proof.
  induction n as [|n IH]; intros i cs HP; simpl.
  - intros [= <-]. constructor.
  - destruct (get entries i) as [candidate| |]; simpl; try discriminate.
    destruct (decode_candidate this candidate) as [c| |] eqn:Hc; simpl; try discriminate.
    destruct (decode_candidates this entries (S i) n) as [rest| |] eqn:Hrest; simpl;
      try discriminate.
    intros [= <-]. constructor; eauto.
Qed.

(** X3.  A result has at least one candidate, its top-level fields are those
    of the first one, and in each candidate [images] is [webImages]
    followed by [generatedImages], every web image being of type
    [web_image] and every generated image of type [generated_image]. *)
Theorem parseResponse_result_shape this text r :
  parseResponse this text = Returns r ->
  head (candidates r) = Some (top r)
  /\ Forall (fun c =>
               images c = webImages c ++ generatedImages c
               /\ Forall (fun i => type i = web_image) (webImages c)
               /\ Forall (fun i => type i = generated_image) (generatedImages c))
            (candidates r).
Proof.
  unfold parseResponse.
  destruct (length (split_on 10 text) <? 3); [discriminate|].
  destruct (JSON_parse _) as [responseJson| |]; simpl; try discriminate.
  destruct (locate_body responseJson) as [body| |]; simpl; try discriminate.
  unfold assemble, decode_all_candidates.
  destruct (get body 4) as [entries| |]; simpl; try discriminate.
  destruct (loop_bound entries) as [[n|]| |]; simpl; try discriminate.
  - destruct (decode_candidates this entries 0 n) as [cs| |] eqn:Hcs; simpl;
      try discriminate.
    destruct cs as [|first cs]; [discriminate|].
    destruct (get body 1) as [m| |]; simpl; try discriminate.
    intros [= <-]. simpl. split; [done|].
    apply (decode_candidates_Forall this _ entries n 0); [|done].
    intros candidate c Hc.
    by destruct (decode_candidate_shape this candidate c Hc) as (? & ? & ? & _).
  - by destruct (get entries 0 ≫= _).
Qed.

(** *** When the decoding of a candidate fails *)

Lemma decode_text_indexable candidate t :
  decode_text candidate = Returns t -> exists id, get candidate 0 = Returns id.
Proof.
  unfold decode_text. destruct candidate; simpl; try discriminate; eauto.
Qed.

(** X4.  The decoding of a candidate either returns or throws a [TypeError],
    and it throws exactly when the text, the web images or the generated
    images throw: thoughts, file attachments, code blocks, the execution
    result, factuality and sources never make it fail. *)
Theorem decode_candidate_fails this candidate :
  only_TypeError (decode_candidate this candidate)
  /\ (decode_candidate this candidate = Throws TypeError
      <-> decode_text candidate = Throws TypeError
          \/ decode_webImages candidate = Throws TypeError
          \/ decode_generatedImages candidate = Throws TypeError).
Proof.
  split; [apply only_TypeError_decode_candidate|].
  pose proof (only_TypeError_decode_text candidate) as Ht.
  pose proof (only_TypeError_decode_webImages candidate) as Hw.
  pose proof (only_TypeError_decode_generatedImages candidate) as Hg.
  unfold decode_candidate.
  destruct (decode_text candidate) as [t| |] eqn:Htext; simpl in *; try done.
  - destruct (decode_text_indexable candidate t Htext) as [id Hid].
    destruct (decode_factuality_sources candidate) as [f srcs].
    destruct (decode_webImages candidate) as [w| |]; simpl in *; try done.
    + destruct (decode_generatedImages candidate) as [g| |]; simpl in *; try done.
      * rewrite Hid. simpl. split; [discriminate|]. by intros [|[|]].
      * subst. split; auto.
    + subst. split; auto.
  - subst. split; auto.
Qed.


(** *** Factuality and sources *)

Lemma get_field v i : truthy v = true -> get v i = Returns (field v i).
Proof. unfold field. by destruct v. Qed.

Lemma decode_source_returns source : decode_source source = Returns (source_entry source).
Proof.
  unfold decode_source, source_entry.
  destruct (truthy source) eqn:Hs; [|done].
  rewrite (get_field source 0 Hs). simpl.
  destruct (truthy (field source 0)) eqn:H0; [|done].
  by rewrite !(get_field (field source 0) _ H0).
Qed.

(** X5.  Factuality and sources are read without a failure: once index 45
    and index 11 of the candidate can be read, the factuality is the one
    that index 45 gives, and the sources are those of all the entries of
    an array at index 11 whose index 0 is truthy, in order. *)
Theorem decode_factuality_sources_reads candidate c45 (items : list value) :
  get candidate 45 = Returns c45 ->
  get candidate 11 = Returns (VArr items) ->
  decode_factuality_sources candidate
  = (factuality_entry c45, omap source_entry items).
Proof.
  intros H45 H11. unfold decode_factuality_sources, decode_factuality, factuality_entry.
  rewrite H45, H11. simpl.
  rewrite (collect_returns decode_source source_entry items decode_source_returns).
  destruct (truthy c45) eqn:Hc; [|done].
  by rewrite !(get_field c45 _ Hc).
Qed.

(** *** File attachments *)

Lemma collect_stops {A} (body : value -> outcome (option A)) before x after e :
  body x = Throws e ->
  fst (collect body (before ++ x :: after)) = fst (collect body before).
Proof.
  intros Hx. induction before as [|y before IH]; simpl.
  - by rewrite Hx.
  - destruct (body y) as [o| |]; [|done..].
    destruct (collect body (before ++ x :: after)) as [pushed ending].
    destruct (collect body before) as [pushed' ending']. simpl in *.
    by rewrite IH.
Qed.

(** X6.  A file whose name is truthy and not a string ends the list of
    attachments: the files before it are kept, the file and those after
    it are dropped, as if the list ended before it. *)
Theorem decode_fileAttachments_stops this candidate candidate' s
    (before after fields : list value) name :
  get candidate 30 = Returns (VArr (before ++ VArr fields :: after)) ->
  get candidate' 30 = Returns (VArr before) ->
  5 <= length fields ->
  fields !! 0 = Some name ->
  truthy name = true ->
  (forall n, name <> VStr n) ->
  decode_fileAttachments this candidate (VStr s)
  = decode_fileAttachments this candidate' (VStr s).
Proof.
  intros H30 H30' Hlen Hname Htruthy Hstring.
  unfold decode_fileAttachments. rewrite H30, H30'.
  apply (collect_stops _ before (VArr fields) after TypeError).
  unfold decode_file.
  replace (5 <=? length fields) with true by (symmetry; by apply Nat.leb_le).
  simpl. rewrite Hname. simpl. unfold detectMimeType. rewrite Htruthy. simpl.
  destruct name; try done. by destruct (Hstring s0).
Qed.

Lemma collect_Forall {A} (body : value -> outcome (option A)) (P : A -> Prop) items :
  (forall x a, body x = Returns (Some a) -> P a) ->
  Forall P (fst (collect body items)).
Proof.
  intros Hbody. induction items as [|x items IH]; simpl; [constructor|].
  destruct (body x) as [o| |] eqn:Hx; [|constructor..].
  destruct (collect body items) as [pushed ending]. simpl in *.
  destruct o as [a|]; [|done]. constructor; eauto.
Qed.

(** X7.  Every file attachment of a candidate carries the same URL: the
    first chip URL of the text, or [null] when the text has none. *)
Theorem decode_fileAttachments_url this candidate s :
  Forall (fun f => file_url f = chip_url s)
         (decode_fileAttachments this candidate (VStr s)).
Proof.
  unfold decode_fileAttachments.
  destruct (get candidate 30) as [[| | | | |files|]| |]; try constructor.
  apply collect_Forall. intros file a. unfold decode_file.
  destruct file as [| | | | |fields|]; try discriminate.
  destruct (5 <=? length fields); [|discriminate].
  intros Ha. repeat (apply outcome_bind_returns in Ha as (? & _ & Ha)).
  by injection Ha as <-.
Qed.


(** *** [detectMimeType] *)

Lemma table_lookup_mimeTypes k v :
  (k, v) ∈ mimeTypes -> table_lookup (str k) mimeTypes = Some (str v).
Proof.
  unfold mimeTypes. intros Hin.
  repeat (apply elem_of_cons in Hin as [[= -> ->]|Hin]; [vm_compute; reflexivity|]).
  by apply elem_of_nil in Hin.
Qed.

Lemma last_split_on sep p e :
  sep ∉ e -> last (split_on sep (p ++ sep :: e)) = Some e.
Proof.
  intros He. destruct (split_on_last sep p e He) as (first & init & ->).
  by rewrite app_comm_cons, last_snoc.
Qed.

Lemma toLowerCase_nil e : toLowerCase e = [] -> e = [].
Proof. by destruct e. Qed.

(** X8.  The type of a file is looked up under what follows the last dot of
    its name, or under the whole name when it has no dot, in lower
    case.  Under the extensions [constructor] and [__proto__], in any
    case of letters, the table gives what it inherits from
    [Object.prototype]: the type of the file is then no string. *)
Theorem detectMimeType_extension this p e :
  46%N ∉ e ->
  (forall k v,
     toLowerCase e = str k -> (k, v) ∈ mimeTypes ->
     detectMimeType this (VStr (p ++ 46%N :: e)) = Returns (Mime (str v))
     /\ detectMimeType this (VStr e) = Returns (Mime (str v)))
  /\ (toLowerCase e = str "constructor" ->
      detectMimeType this (VStr (p ++ 46%N :: e)) = Returns ObjectConstructor)
  /\ (toLowerCase e = str "__proto__" ->
      detectMimeType this (VStr (p ++ 46%N :: e)) = Returns ObjectPrototype).
Proof.
  intros He. unfold detectMimeType.
  rewrite (last_split_on 46 p e He), (split_on_whole 46 e He).
  change (default [] (Some e)) with e. change (default [] (last [e])) with e.
  cbv zeta. split; [|split; intros ->; by destruct p].
  intros k v Hlower Hin. rewrite Hlower, (table_lookup_mimeTypes k v Hin).
  split; [by destruct p|].
  destruct e as [|c e]; [|done].
  exfalso. revert Hlower Hin. clear. unfold mimeTypes. intros Hlower Hin.
  repeat (apply elem_of_cons in Hin as [[= -> ->]|Hin]; [discriminate|]).
  by apply elem_of_nil in Hin.
Qed.

(** *** Fenced blocks of the text *)

#[local] Arguments N.eqb : simpl never.

Lemma span_app f s : fst (span f s) ++ snd (span f s) = s.
Proof.
  induction s as [|c s IH]; [done|]. simpl.
  destruct (f c); [|done]. destruct (span f s) as [a b]. simpl in *. by rewrite IH.
Qed.

Lemma fenced_block_at_line_feed s : 10%N ∉ s -> fenced_block_at s = None.
Proof.
  intros Hs. unfold fenced_block_at.
  destruct (strip_prefix fence s) as [r|] eqn:Hr; [|done].
  apply strip_fence in Hr. subst s.
  pose proof (span_app is_word r) as Hspan.
  destruct (span is_word r) as [tag r1]. simpl in Hspan.
  destruct r1 as [|c r2]; [done|].
  destruct (N.eqb_spec c 10) as [->|Hc].
  - exfalso. apply Hs. rewrite <- Hspan.
    do 3 right. apply elem_of_app. right. by left.
  - destruct c as [|p]; [done|]. by repeat (destruct p as [p|p|]; try done).
Qed.

Lemma fenced_blocks_line_feed s : 10%N ∉ s -> forall skip, fenced_blocks skip s = [].
Proof.
  induction s as [|c s IH]; intros Hs skip; [done|].
  assert (Hs' : 10%N ∉ s) by (intros ?; apply Hs; by right).
  destruct skip as [|k]; [|by apply IH].
  rewrite fenced_blocks_unfold, (fenced_block_at_line_feed _ Hs). by apply IH.
Qed.

Lemma scanned_blocks_fenced s :
  scanned_blocks (VStr s)
  = (fun '(tag, body) =>
       {| language := VStr (default (str "text") tag); code := VStr (trim body) |})
      <$> fenced_blocks 0 s.
Proof. destruct s; [done|]. by apply scanned_blocks_string. Qed.

Lemma fenced_blocks_start tag body rest :
  fence_free body = true -> last body <> Some 96%N ->
  forallb is_word tag = true ->
  fenced_blocks 0 (fence ++ tag ++ 10%N :: body ++ fence ++ rest)
  = (match tag with [] => None | _ => Some tag end, body) :: fenced_blocks 0 rest.
Proof.
  intros Hbody Hlast Htag.
  change (fence ++ tag ++ 10%N :: body ++ fence ++ rest)
    with (96%N :: 96%N :: 96%N :: tag ++ 10%N :: body ++ fence ++ rest).
  rewrite fenced_blocks_unfold.
  assert (Hat : fenced_block_at
                  (96%N :: 96%N :: 96%N :: tag ++ 10%N :: body ++ fence ++ rest)
                = Some (match tag with [] => None | _ => Some tag end, body,
                        3 + length tag + 1 + length body + 3)).
  { unfold fenced_block_at.
    rewrite (proj2 (strip_fence _ (tag ++ 10%N :: body ++ fence ++ rest)) eq_refl).
    rewrite (span_word tag 10%N _ Htag) by reflexivity.
    by rewrite (until_fence_body _ _ Hbody Hlast). }
  rewrite Hat.
  pose (covered := 96%N :: 96%N :: tag ++ 10%N :: body ++ fence).
  replace (3 + length tag + 1 + length body + 3 - 1) with (length covered).
  - replace (96%N :: 96%N :: tag ++ 10%N :: body ++ fence ++ rest)
      with (covered ++ rest).
    + by rewrite fenced_blocks_skip.
    + unfold covered. simpl. rewrite <- app_assoc. simpl. by rewrite <- app_assoc.
  - unfold covered. rewrite fence_backticks. simpl. rewrite length_app. simpl.
    rewrite length_app. simpl. lia.
Qed.

Lemma span_forallb f s : forallb f (fst (span f s)) = true.
Proof.
  induction s as [|c s IH]; [done|]. simpl.
  destruct (f c) eqn:Hc; [|done]. destruct (span f s) as [a b]. simpl in *.
  by rewrite Hc.
Qed.

Lemma until_fence_Some s : forall body rest,
  until_fence s = Some (body, rest) -> s = body ++ fence ++ rest.
Proof.
  induction s as [|c s IH]; intros body rest; rewrite until_fence_unfold.
  - done.
  - destruct (strip_prefix fence (c :: s)) as [r|] eqn:Hr.
    + intros [= <- <-]. apply strip_fence in Hr. by rewrite Hr.
    + destruct (until_fence s) as [[b r]|]; [|done].
      intros [= <- <-]. by rewrite (IH b r eq_refl).
Qed.

Lemma until_fence_closes body rest : until_fence (body ++ fence ++ rest) <> None.
Proof.
  induction body as [|c body IH]; rewrite until_fence_unfold.
  - by rewrite app_nil_l, (proj2 (strip_fence (fence ++ rest) rest)).
  - destruct (strip_prefix fence ((c :: body) ++ fence ++ rest)); [done|].
    rewrite <- app_comm_cons. by destruct (until_fence (body ++ fence ++ rest)) as [[b r]|].
Qed.

(** The expression matches at the start of a text exactly where a block
    opens. *)
Lemma fenced_block_at_opens s : fenced_block_at s <> None <-> opens_block s.
Proof.
  split.
  - unfold fenced_block_at.
    destruct (strip_prefix fence s) as [r|] eqn:Hr; [|done].
    apply strip_fence in Hr. subst s.
    pose proof (span_app is_word r) as Hspan.
    pose proof (span_forallb is_word r) as Htag.
    destruct (span is_word r) as [tag r1]. simpl in Hspan, Htag.
    destruct r1 as [|c r2]; [done|].
    destruct (N.eqb_spec c 10) as [->|Hc].
    + destruct (until_fence r2) as [[body rest]|] eqn:Hbody; [|done].
      intros _. exists tag, body, rest. split; [done|].
      by rewrite <- (until_fence_Some _ _ _ Hbody), <- Hspan.
    + destruct c as [|p]; [done|]. by repeat (destruct p as [p|p|]; try done).
  - intros (tag & body & rest & Htag & ->).
    change (fence ++ tag ++ 10%N :: body ++ fence ++ rest)
      with (96%N :: 96%N :: 96%N :: tag ++ 10%N :: body ++ fence ++ rest).
    unfold fenced_block_at.
    rewrite (proj2 (strip_fence _ (tag ++ 10%N :: body ++ fence ++ rest)) eq_refl).
    rewrite (span_word tag 10%N _ Htag) by reflexivity.
    pose proof (until_fence_closes body rest) as Hclose.
    by destruct (until_fence (body ++ fence ++ rest)) as [[b r]|].
Qed.

Lemma no_block_before_cons c s n :
  no_block_before (c :: s) (S n) ->
  fenced_block_at (c :: s) = None /\ no_block_before s n.
Proof.
  intros Hn. split.
  - destruct (fenced_block_at (c :: s)) as [m|] eqn:Hm; [|done].
    assert (Hopen : opens_block (c :: s))
      by (apply fenced_block_at_opens; by rewrite Hm).
    specialize (Hn [] (c :: s) eq_refl Hopen). simpl in Hn. lia.
  - intros a b -> Hopen. specialize (Hn (c :: a) b eq_refl Hopen). simpl in Hn. lia.
Qed.

(** What trying the expression at every index before [n] shows. *)
Lemma no_block_before_scan s n :
  (forall i, i < n -> fenced_block_at (drop i s) = None) -> no_block_before s n.
Proof.
  intros Hscan a b -> Hopen.
  destruct (decide (n <= length a)) as [|Hlt]; [done|].
  specialize (Hscan (length a) ltac:(lia)). rewrite drop_app_length in Hscan.
  by apply fenced_block_at_opens in Hopen.
Qed.

Lemma fenced_blocks_before pre s :
  no_block_before (pre ++ s) (length pre) ->
  fenced_blocks 0 (pre ++ s) = fenced_blocks 0 s.
Proof.
  induction pre as [|c pre IH]; [done|]. intros Hpre.
  apply (no_block_before_cons c (pre ++ s) (length pre)) in Hpre as [Hnone Hpre].
  rewrite <- app_comm_cons, fenced_blocks_unfold, Hnone. by apply IH.
Qed.

(** X9.  The scan of a text for fenced blocks.  A text without a line feed
    has no block, whatever backticks it holds: the opening fence and
    its tag must end a line.  Otherwise the scan gives the first block
    and goes on after its closing fence: the block opens at the first
    triple backtick that is followed by a tag of word characters, which
    may be empty, a line feed and, somewhere after, a triple backtick,
    whatever backticks stand before it; its language is the tag, or
    [text] without one; its code is the body up to the next triple
    backtick, trimmed. *)
Theorem scanned_blocks_fences :
  (forall s, 10%N ∉ s -> scanned_blocks (VStr s) = [])
  /\ (forall pre tag body rest,
        no_block_before (pre ++ fence ++ tag ++ 10%N :: body ++ fence ++ rest)
          (length pre) ->
        fence_free body = true -> last body <> Some 96%N ->
        forallb is_word tag = true ->
        scanned_blocks (VStr (pre ++ fence ++ tag ++ 10%N :: body ++ fence ++ rest))
        = {| language := VStr (match tag with [] => str "text" | _ => tag end);
             code := VStr (trim body) |}
            :: scanned_blocks (VStr rest)).
Proof.
  split.
  - intros s Hs. by rewrite scanned_blocks_fenced, (fenced_blocks_line_feed _ Hs).
  - intros pre tag body rest Hpre Hbody Hlast Htag.
    rewrite !scanned_blocks_fenced, (fenced_blocks_before _ _ Hpre).
    rewrite (fenced_blocks_start tag body rest) by done.
    by destruct tag.
Qed.

End More.

(** ** Decimal numerals *)

Lemma pretty_N_char_digit x : is_digit (Ascii.N_of_ascii (pretty_N_char x)) = true.
Proof. unfold pretty_N_char. by repeat case_match. Qed.

Lemma pretty_N_go_digits x : forall s,
  forallb is_digit (str s) = true -> forallb is_digit (str (pretty_N_go x s)) = true.
Proof.
  induction (N.lt_wf_0 x) as [x _ IH]; intros s Hs.
  assert (x = 0 \/ 0 < x)%N as [->|Hx] by lia.
  - by rewrite pretty_N_go_0.
  - rewrite pretty_N_go_step by done. apply IH.
    + by apply N.div_lt.
    + change (is_digit (Ascii.N_of_ascii (pretty_N_char (x `mod` 10)))
              && forallb is_digit (str s) = true).
      by rewrite pretty_N_char_digit.
Qed.

Lemma pretty_N_digits (x : N) : forallb is_digit (str (pretty x)) = true.
Proof.
  unfold pretty, pretty_N. destruct (decide (x = 0%N)); [done|].
  by apply pretty_N_go_digits.
Qed.

(** The decimal numeral of an integer: digits after an optional
    minus sign. *)
Lemma pretty_Z_digits (z : Z) :
  forallb (fun c => is_digit c || (c =? 45)%N) (str (pretty z)) = true.
Proof.
  assert (Hweak : forall s, forallb is_digit s = true ->
            forallb (fun c => is_digit c || (c =? 45)%N) s = true).
  { induction s as [|c s IH]; [done|]. simpl.
    intros [-> Hs]%andb_prop. simpl. auto. }
  destruct z as [|p|p]; [done|..].
  - apply Hweak, (pretty_N_digits (Npos p)).
  - change (str (pretty (Z.neg p))) with (45%N :: str (pretty (Npos p))).
    simpl. apply Hweak, pretty_N_digits.
Qed.

Lemma includes_first a sub s : a ∉ s -> includes (a :: sub) s = false.
Proof.
  induction s as [|c s IH]; [done|]. intros Hs.
  apply not_elem_of_cons in Hs as [Hc Hs]. simpl.
  destruct (N.eqb_spec a c) as [->|_]; [done|]. by apply IH.
Qed.

Lemma forallb_not_elem_of (f : N -> bool) a s :
  forallb f s = true -> f a = false -> a ∉ s.
Proof.
  intros Hs Ha Hin. rewrite forallb_forall in Hs.
  apply list_elem_of_In in Hin. specialize (Hs a Hin). congruence.
Qed.

Section MoreClient.
Context `{E : Engine}.
Variable axios : Request -> axios_result.

Lemma array_set_lookup (items : list value) x : array_set items 2 x !! 2 = Some x.
Proof.
  unfold array_set. destruct (2 <? length items) eqn:Hlt.
  - apply Nat.ltb_lt in Hlt. by apply list_lookup_insert_eq.
  - apply Nat.ltb_ge in Hlt.
    rewrite lookup_app_r by lia.
    rewrite lookup_app_r by (rewrite length_replicate; lia).
    rewrite length_replicate.
    by replace (2 - length items - (2 - length items)) with 0 by lia.
Qed.

Lemma trim_nil_blank prompt :
  trim prompt <> [] ->
  (match prompt with [] => true | _ => false end || jsstring_eqb (trim prompt) []) = false.
Proof.
  intros H. rewrite (jsstring_eqb_neq _ _ H).
  destruct prompt; [by destruct H|done].
Qed.

(** [generateContent] past its first two tests. *)
Lemma generateContent_running prompt model chat s :
  trim prompt <> [] -> running (client s) = true ->
  generateContent axios prompt model chat s
  = let this := client s in
    let fail (error : js_error) (st : store) (sent' : list Request)
             (chat' : option ChatSession) :=
      let '(error', this') := on_error error this in
      (Throws error', {| client := this'; objects := st; sent := sent' |}, chat') in
    let request := generate_request this prompt model chat (objects s) in
    if negb (proxy_ok this) then fail TypeError (objects s) (sent s) chat
    else
      let sent' := sent s ++ [request] in
      match axios request with
      | Rejected code message status =>
          fail (AxiosError code message status) (objects s) sent' chat
      | Response status data =>
          if negb (status =? 200)%Z then
            fail (Error (str "Request failed with status " ++ str (pretty status)))
                 (objects s) sent' chat
          else
            match parseResponse this data with
            | Throws e => fail e (objects s) sent' chat
            | Diverges => (Diverges, {| client := this; objects := objects s; sent := sent' |}, chat)
            | Returns parsed =>
                let '(st1, output) := as_object (objects s) parsed in
                match chat with
                | None =>
                    (Returns output, {| client := this; objects := st1; sent := sent' |}, None)
                | Some c =>
                    let '(c', (written, st2)) := update_chat c output st1 in
                    match written with
                    | Returns _ =>
                        (Returns output,
                         {| client := this; objects := st2; sent := sent' |}, Some c')
                    | Throws e => fail e st2 sent' (Some c')
                    | Diverges =>
                        (Diverges, {| client := this; objects := st2; sent := sent' |}, Some c')
                    end
                end
            end
      end.
Proof.
  intros Hprompt Hrun. unfold generateContent.
  rewrite (trim_nil_blank _ Hprompt), Hrun. unfold proxy_ok, generate_request.
  cbv zeta. simpl negb. cbv iota.
  destruct (proxy (client s)) as [[|c p]|]; reflexivity.
Qed.


Lemma blank_test prompt :
  (match prompt with [] => true | _ => false end || jsstring_eqb (trim prompt) [])
  = jsstring_eqb (trim prompt) [].
Proof. by destruct prompt. Qed.

Lemma on_error_TypeError this : on_error TypeError this = (TypeError, this).
Proof. reflexivity. Qed.

Lemma on_error_client error this :
  snd (on_error error this) = this \/ snd (on_error error this) = close this.
Proof.
  unfold on_error. destruct (_ || _); [by left|].
  destruct error as [| | | | |code m [status|]]; try by left.
  destruct (_ || _); [by right|by left].
Qed.

(** X10.  A call sends one request when it gets as far as the transport and
    none otherwise; the requests sent before stay as they are; and the
    client is afterwards what it was, or what it was and closed. *)
Theorem generateContent_requests prompt model chat s :
  sent (generateContent axios prompt model chat s).1.2
  = (if reaches_transport (client s) prompt
     then sent s ++ [generate_request (client s) prompt model chat (objects s)]
     else sent s)
  /\ (client (generateContent axios prompt model chat s).1.2 = client s
      \/ client (generateContent axios prompt model chat s).1.2 = close (client s)).
Proof.
  unfold reaches_transport.
  destruct (decide (trim prompt = [])) as [Hblank|Hprompt].
  - unfold generateContent. rewrite blank_test, Hblank. simpl. auto.
  - rewrite (jsstring_eqb_neq _ _ Hprompt).
    destruct (running (client s)) eqn:Hrun.
    + rewrite (generateContent_running prompt model chat s Hprompt Hrun).
      cbv zeta. simpl negb. simpl andb.
      destruct (proxy_ok (client s)); simpl negb; cbv iota.
      * destruct (axios _) as [status data|code message status].
        -- destruct (negb (status =? 200)%Z).
           ++ pose proof (on_error_client
                (Error (str "Request failed with status " ++ str (pretty status)))
                (client s)) as Hc.
              destruct (on_error _ _) as [e' this']. simpl in *. auto.
           ++ destruct (parseResponse (client s) data) as [parsed|e|].
              ** destruct (as_object (objects s) parsed) as [st1 output].
                 destruct chat as [c|]; [|simpl; auto].
                 destruct (update_chat c output st1) as [c' [[[]|e|] st2]];
                   [simpl; auto| |simpl; auto].
                 pose proof (on_error_client e (client s)) as Hc.
                 destruct (on_error _ _) as [e' this']. simpl in *. auto.
              ** pose proof (on_error_client e (client s)) as Hc.
                 destruct (on_error _ _) as [e' this']. simpl in *. auto.
              ** simpl. auto.
        -- pose proof (on_error_client (AxiosError code message status) (client s)) as Hc.
           destruct (on_error _ _) as [e' this']. simpl in *. auto.
      * simpl. auto.
    + unfold generateContent. rewrite (trim_nil_blank _ Hprompt), Hrun. simpl. auto.
Qed.


(** *** A turn of a chat *)

Lemma ChatSession_toString_slots this l (x y z : value) tail a b c (st : store) :
  chat_metadata this = Obj l ->
  st !! l = Some (VArr (x :: y :: z :: tail)) ->
  toString x = Returns a -> toString y = Returns b -> toString z = Returns c ->
  ChatSession_toString this st
  = (Returns (str "ChatSession(cid='" ++ a ++ str "', rid='" ++ b
                ++ str "', rcid='" ++ c ++ str "')"), st).
Proof.
  intros Hthis Hl Hx Hy Hz.
  unfold ChatSession_toString, get_cid, get_rid, get_rcid, get_index, pure.
  unfold mbind, heap_bind. rewrite Hthis. simpl. rewrite Hl. simpl.
  by rewrite Hx, Hy, Hz.
Qed.

(** What a turn that succeeds returns and leaves. *)
Lemma sendMessage_returns chat prompt s data parsed (m : list value) :
  trim prompt <> [] ->
  running (client s) = true ->
  proxy_ok (client s) = true ->
  axios (generate_request (client s) prompt (model chat) (Some chat) (objects s))
  = Response 200 data ->
  parseResponse (client s) data = Returns parsed ->
  metadata parsed = VArr m ->
  let output := {| metadata := Obj (length (objects s));
                   candidates := candidates parsed; top := top parsed |} in
  sendMessage axios chat prompt s
  = (Returns output,
     {| client := client s;
        objects := objects s ++ [VArr (array_set m 2 (rcid (top parsed)))];
        sent := sent s ++ [generate_request (client s) prompt (model chat) (Some chat)
                             (objects s)] |},
     Some {| chat_metadata := Obj (length (objects s));
             lastOutput := Some output; model := model chat |}).
Proof.
  intros Hprompt Hrun Hproxy Haxios Hparse Hm. unfold sendMessage.
  rewrite (generateContent_running _ _ _ _ Hprompt Hrun). cbv zeta.
  rewrite Hproxy, Haxios, Hparse. simpl negb. cbv iota.
  unfold as_object, alloc. rewrite Hm. unfold update_chat, set_rcid.
  cbn [metadata top chat_metadata].
  rewrite (set_index_array (length (objects s)) m 2 _ _ (list_lookup_middle _ _ _ _ eq_refl)).
  rewrite insert_app_r_alt, Nat.sub_diag by lia. reflexivity.
Qed.

(** X11.  A turn that succeeds threads the conversation.  When the response
    decodes to a result whose metadata is an array [m], [sendMessage]
    returns the result, the client stays as it is and one request was
    sent, carrying the pointer the chat had; afterwards the chat
    remembers the result, its pointer is the metadata of the result, one
    and the same array, holding [m] with the id of the first candidate
    written to slot 2, and that array is what the next request of the
    chat carries.  The objects that were there before are untouched. *)
Theorem sendMessage_threads_context chat prompt s data parsed (m : list value) :
  trim prompt <> [] ->
  running (client s) = true ->
  proxy_ok (client s) = true ->
  axios (generate_request (client s) prompt (model chat) (Some chat) (objects s))
  = Response 200 data ->
  parseResponse (client s) data = Returns parsed ->
  metadata parsed = VArr m ->
  exists output s' chat',
    sendMessage axios chat prompt s = (Returns output, s', Some chat')
    /\ client s' = client s
    /\ sent s' = sent s ++ [generate_request (client s) prompt (model chat) (Some chat)
                              (objects s)]
    /\ f_req_metadata (generate_request (client s) prompt (model chat) (Some chat)
                         (objects s))
       = deref (objects s) (chat_metadata chat)
    /\ candidates output = candidates parsed /\ top output = top parsed
    /\ lastOutput chat' = Some output
    /\ model chat' = model chat
    /\ chat_metadata chat' = metadata output
    /\ deref (objects s') (metadata output) = VArr (array_set m 2 (rcid (top parsed)))
    /\ get_rcid chat' (objects s') = (Returns (rcid (top parsed)), objects s')
    /\ (forall prompt',
          f_req_metadata (generate_request (client s') prompt' (model chat')
                            (Some chat') (objects s'))
          = VArr (array_set m 2 (rcid (top parsed))))
    /\ (forall l v, objects s !! l = Some v -> objects s' !! l = Some v).
Proof.
  intros Hprompt Hrun Hproxy Haxios Hparse Hm.
  pose proof (sendMessage_returns chat prompt s data parsed m
                Hprompt Hrun Hproxy Haxios Hparse Hm) as Hturn.
  cbv zeta in Hturn.
  assert (Hread : (objects s ++ [VArr (array_set m 2 (rcid (top parsed)))])
                    !! length (objects s)
                  = Some (VArr (array_set m 2 (rcid (top parsed)))))
    by (by apply list_lookup_middle).
  eexists _, _, _. split; [exact Hturn|].
  cbn [client sent objects candidates top lastOutput model chat_metadata metadata].
  repeat split.
  - simpl. by rewrite Hread.
  - unfold get_rcid, get_index. simpl. rewrite Hread. simpl.
    by rewrite (array_set_lookup m (rcid (top parsed))).
  - intros prompt'. unfold generate_request. simpl. by rewrite Hread.
  - intros l' v Hv. by apply lookup_app_l_Some.
Qed.

(** X12.  After such a turn, when the metadata of the response starts with
    two strings and the id of the first candidate is a string, the chat
    prints with the conversation id and the response id of the response
    and the id of that candidate. *)
Theorem ChatSession_toString_after_turn chat prompt s data parsed cid rid rcid'
    (rest : list value) :
  trim prompt <> [] ->
  running (client s) = true ->
  proxy_ok (client s) = true ->
  axios (generate_request (client s) prompt (model chat) (Some chat) (objects s))
  = Response 200 data ->
  parseResponse (client s) data = Returns parsed ->
  metadata parsed = VArr (VStr cid :: VStr rid :: rest) ->
  rcid (top parsed) = VStr rcid' ->
  exists output s' chat',
    sendMessage axios chat prompt s = (Returns output, s', Some chat')
    /\ ChatSession_toString chat' (objects s')
       = (Returns (str "ChatSession(cid='" ++ cid ++ str "', rid='" ++ rid
                     ++ str "', rcid='" ++ rcid' ++ str "')"),
          objects s').
Proof.
  intros Hprompt Hrun Hproxy Haxios Hparse Hm Hrcid.
  pose proof (sendMessage_returns chat prompt s data parsed _
                Hprompt Hrun Hproxy Haxios Hparse Hm) as Hturn.
  cbv zeta in Hturn. eexists _, _, _. split; [exact Hturn|].
  cbn [objects].
  assert (Hset : exists tail, array_set (VStr cid :: VStr rid :: rest) 2 (rcid (top parsed))
                              = VStr cid :: VStr rid :: VStr rcid' :: tail).
  { rewrite Hrcid. destruct rest as [|z tail]; [by exists []|by exists tail]. }
  destruct Hset as [tail ->].
  apply (ChatSession_toString_slots _ (length (objects s))
           (VStr cid) (VStr rid) (VStr rcid') tail); try done.
  by apply list_lookup_middle.
Qed.

(** X13.  A response without metadata breaks the turn.  When the response
    decodes to a result whose metadata is [undefined] (the body has
    nothing at index 1), [null], a number or a boolean, the result is
    assigned to the chat, and writing the id of the candidate to its
    slot 2 throws a [TypeError]: [sendMessage] throws although the
    response was decoded, and the chat is left with the result as its
    last output and that metadata as its pointer. *)
Theorem sendMessage_without_metadata chat prompt s data parsed :
  trim prompt <> [] ->
  running (client s) = true ->
  proxy_ok (client s) = true ->
  axios (generate_request (client s) prompt (model chat) (Some chat) (objects s))
  = Response 200 data ->
  parseResponse (client s) data = Returns parsed ->
  unwritable (metadata parsed) = true ->
  sendMessage axios chat prompt s
  = (Throws TypeError,
     {| client := client s; objects := objects s;
        sent := sent s ++ [generate_request (client s) prompt (model chat) (Some chat)
                             (objects s)] |},
     Some {| chat_metadata := Prim (metadata parsed);
             lastOutput := Some {| metadata := Prim (metadata parsed);
                                   candidates := candidates parsed;
                                   top := top parsed |};
             model := model chat |}).
Proof.
  intros Hprompt Hrun Hproxy Haxios Hparse Hm. unfold sendMessage.
  rewrite (generateContent_running _ _ _ _ Hprompt Hrun). cbv zeta.
  rewrite Hproxy, Haxios, Hparse. simpl negb. cbv iota.
  unfold as_object, alloc.
  destruct (metadata parsed) eqn:Hmeta; try discriminate; reflexivity.
Qed.

(** *** Failures of the transport *)

(** A metadata that is a string breaks the turn in the same way, and
    the message of its [TypeError] quotes the string: where the message
    holds the word [timeout], the error that reaches the caller is
    [Request timed out]. *)
Lemma sendMessage_string_metadata chat prompt s data parsed m :
  trim prompt <> [] ->
  running (client s) = true ->
  proxy_ok (client s) = true ->
  axios (generate_request (client s) prompt (model chat) (Some chat) (objects s))
  = Response 200 data ->
  parseResponse (client s) data = Returns parsed ->
  metadata parsed = VStr m ->
  (sendMessage axios chat prompt s).1.1
  = Throws (if typeError_mentions_timeout m
            then Error (str "Request timed out. Consider increasing timeout value.")
            else TypeErrorOn m).
Proof.
  intros Hprompt Hrun Hproxy Haxios Hparse Hm. unfold sendMessage.
  rewrite (generateContent_running _ _ _ _ Hprompt Hrun). cbv zeta.
  rewrite Hproxy, Haxios, Hparse. simpl negb. cbv iota.
  unfold as_object, alloc. rewrite Hm. cbn [update_chat set_rcid set_index metadata
    chat_metadata]. unfold on_error. cbn [mentions_timeout orb].
  by destruct (typeError_mentions_timeout m).
Qed.

(** X14.  What a rejection of the transport becomes.  A time-out goes
    first: a rejection whose code is [ECONNABORTED] or whose message
    holds the word [timeout] makes the call throw [Request timed out],
    whatever its status, and the client stays as it is, running, also
    under status 401 or 403.  A rejection with status 401 or 403 that is
    no time-out closes the client: the call throws [Authentication
    failed], and every later call with a prompt that is not blank
    throws [Client not initialized] and sends nothing.  Any other
    rejection is thrown as it is and the client stays as it is. *)
Theorem generateContent_rejections prompt model chat s code message status :
  trim prompt <> [] ->
  running (client s) = true ->
  proxy_ok (client s) = true ->
  axios (generate_request (client s) prompt model chat (objects s))
  = Rejected code message status ->
  let sent' := sent s ++ [generate_request (client s) prompt model chat (objects s)] in
  let timed_out := code = Some (str "ECONNABORTED")
                   \/ includes (str "timeout") message = true in
  let denied := status = Some 401%Z \/ status = Some 403%Z in
  (timed_out ->
   generateContent axios prompt model chat s
   = (Throws (Error (str "Request timed out. Consider increasing timeout value.")),
      {| client := client s; objects := objects s; sent := sent' |}, chat))
  /\ (~ timed_out -> denied ->
      let s' := {| client := close (client s); objects := objects s; sent := sent' |} in
      generateContent axios prompt model chat s
      = (Throws (Error (str
           "Authentication failed. Cookies may have expired. Please reinitialize.")),
         s', chat)
      /\ forall prompt' model' chat',
           trim prompt' <> [] ->
           generateContent axios prompt' model' chat' s'
           = (Throws (Error (str "Client not initialized. Call init() first.")),
              s', chat'))
  /\ (~ timed_out -> ~ denied ->
      generateContent axios prompt model chat s
      = (Throws (AxiosError code message status),
         {| client := client s; objects := objects s; sent := sent' |}, chat)).
Proof.
  intros Hprompt Hrun Hproxy Haxios. cbv zeta.
  rewrite (generateContent_running _ _ _ _ Hprompt Hrun). cbv zeta.
  rewrite Hproxy, Haxios. simpl negb. cbv iota.
  unfold on_error, mentions_timeout.
  assert (Hquiet : ~ (code = Some (str "ECONNABORTED")
                      \/ includes (str "timeout") message = true) ->
            match code with
            | Some c => jsstring_eqb c (str "ECONNABORTED")
            | None => false
            end || includes (str "timeout") message = false).
  { intros Hno. destruct (includes (str "timeout") message); [destruct Hno; auto|].
    rewrite orb_false_r. destruct code as [c|]; [|done].
    apply jsstring_eqb_neq. intros ->. destruct Hno. auto. }
  split; [|split].
  - intros [-> | ->]; [done|by rewrite orb_true_r].
  - intros Hno Hdenied. rewrite (Hquiet Hno). split.
    + by destruct Hdenied as [-> | ->].
    + intros prompt' model' chat' Hprompt'. unfold generateContent.
      by rewrite (trim_nil_blank _ Hprompt').
  - intros Hno Hdenied. rewrite (Hquiet Hno).
    destruct status as [st|]; [|done].
    destruct (Z.eqb_spec st 401) as [->|_]; [destruct Hdenied; auto|].
    destruct (Z.eqb_spec st 403) as [->|_]; [destruct Hdenied; auto|].
    done.
Qed.

Lemma status_message_no_timeout (status : Z) :
  includes (str "timeout") (str "Request failed with status " ++ str (pretty status))
  = false.
Proof.
  assert (Hdigits : 116%N ∉ str (pretty status)).
  { apply (forallb_not_elem_of _ _ _ (pretty_Z_digits status)). reflexivity. }
  change (includes (str "timeout") (str (pretty status)) = false).
  by apply includes_first.
Qed.

(** X15.  A response whose status is not 200 is an error, and its data is
    not decoded: the call throws [Request failed with status] and the
    status, and the client stays as it is. *)
Theorem generateContent_bad_status prompt model chat s status data :
  trim prompt <> [] ->
  running (client s) = true ->
  proxy_ok (client s) = true ->
  axios (generate_request (client s) prompt model chat (objects s))
  = Response status data ->
  status <> 200%Z ->
  generateContent axios prompt model chat s
  = (Throws (Error (str "Request failed with status " ++ str (pretty status))),
     {| client := client s; objects := objects s;
        sent := sent s ++ [generate_request (client s) prompt model chat (objects s)] |},
     chat).
Proof.
  intros Hprompt Hrun Hproxy Haxios Hstatus.
  rewrite (generateContent_running _ _ _ _ Hprompt Hrun). cbv zeta.
  rewrite Hproxy, Haxios. simpl negb.
  replace (status =? 200)%Z with false by (symmetry; by apply Z.eqb_neq).
  simpl negb. cbv iota.
  unfold on_error, mentions_timeout. by rewrite status_message_no_timeout.
Qed.

(** A proxy that is no URL makes every call fail before anything is
    sent. *)
Lemma generateContent_bad_proxy prompt model chat s :
  trim prompt <> [] ->
  running (client s) = true ->
  proxy_ok (client s) = false ->
  generateContent axios prompt model chat s = (Throws TypeError, s, chat).
Proof.
  intros Hprompt Hrun Hproxy.
  rewrite (generateContent_running _ _ _ _ Hprompt Hrun). cbv zeta.
  rewrite Hproxy. simpl. by destruct s.
Qed.

End MoreClient.

(** ** The chat and its pointer *)

Section MorePointer.
Context `{E : Engine}.

(** X16.  Each setter writes its slot of the pointer and no other, and the
    getters read the slots: on a pointer [[a, b, c]], after a setter
    the three ids are [a], [b] and [c] with the one that was set
    replaced. *)
Theorem setters_and_getters this l (a b c v : value) (st : store) :
  chat_metadata this = Obj l ->
  st !! l = Some (VArr [a; b; c]) ->
  ids this st = (Returns a, Returns b, Returns c)
  /\ (exists st', set_cid this v st = (Returns (), st')
                  /\ ids this st' = (Returns v, Returns b, Returns c))
  /\ (exists st', set_rid this v st = (Returns (), st')
                  /\ ids this st' = (Returns a, Returns v, Returns c))
  /\ (exists st', set_rcid this v st = (Returns (), st')
                  /\ ids this st' = (Returns a, Returns b, Returns v)).
Proof.
  intros Hthis Hl.
  assert (Hlt : l < length st) by (apply lookup_lt_is_Some; eauto).
  assert (Hids : forall (x y z : value) (st' : store),
            st' !! l = Some (VArr [x; y; z]) ->
            ids this st' = (Returns x, Returns y, Returns z)).
  { intros x y z st' Hl'.
    unfold ids, get_cid, get_rid, get_rcid, get_index. rewrite Hthis. simpl.
    by rewrite Hl'. }
  split; [by apply Hids|].
  unfold set_cid, set_rid, set_rcid. rewrite Hthis.
  rewrite !(set_index_array l [a; b; c] _ _ st Hl).
  split; [|split];
    (eexists; split; [reflexivity|]; apply Hids; by apply list_lookup_insert_eq).
Qed.

Lemma set_index_last (st : store) (items : list value) i x :
  set_index (Obj (length st)) i x (st ++ [VArr items])
  = (Returns (), st ++ [VArr (array_set items i x)]).
Proof.
  rewrite (set_index_array (length st) items i x _ (list_lookup_middle _ _ _ _ eq_refl)).
  by rewrite insert_app_r_alt, Nat.sub_diag by lia.
Qed.

Lemma setMetadata_last this (st : store) (old T : list value) :
  chat_metadata this = Obj (length st) ->
  length T <= 3 ->
  setMetadata this T (st ++ [VArr old])
  = (Returns (), st ++ [VArr (T ++ drop (length T) old)]).
Proof.
  intros Hthis HT.
  rewrite (setMetadata_array this (length st) old T _ Hthis
             (list_lookup_middle _ _ _ _ eq_refl) HT).
  by rewrite insert_app_r_alt, Nat.sub_diag by lia.
Qed.

(** X17.  The constructor and its options.  The pointer starts as three
    [null]s; the elements of [options.metadata], at most three, are
    written over it from slot 0 on; then each of [options.cid],
    [options.rid] and [options.rcid] that is truthy is written to its
    slot, over what the metadata put there.  A metadata of more than
    three elements makes the constructor throw. *)
Theorem new_ChatSession_options options (st : store) :
  let T := default [] (opt_metadata options) in
  (3 < length T ->
   fst (new_ChatSession options st)
   = Throws (Error (str "Metadata cannot exceed 3 elements")))
  /\ (length T <= 3 ->
      new_ChatSession options st
      = (Returns {| chat_metadata := Obj (length st); lastOutput := None;
                    model := default UNSPECIFIED (opt_model options) |},
         st ++ [VArr [js_or (opt_cid options) (default VNull (T !! 0));
                      js_or (opt_rid options) (default VNull (T !! 1));
                      js_or (opt_rcid options) (default VNull (T !! 2))]])).
Proof.
  cbv zeta. unfold new_ChatSession. cbv beta iota zeta delta [alloc].
  set (this := {| chat_metadata := Obj (length st); lastOutput := None;
                  model := default UNSPECIFIED (opt_model options) |}).
  split.
  - intros HT. destruct (opt_metadata options) as [T|]; [|simpl in HT; lia].
    simpl in HT. unfold mbind, heap_bind.
    by rewrite setMetadata_too_long.
  - intros HT.
    assert (Hset : match opt_metadata options with
                   | Some m => setMetadata this m
                   | None => mret ()
                   end (st ++ [VArr [VNull; VNull; VNull]])
                   = (Returns (),
                      st ++ [VArr (default [] (opt_metadata options)
                                     ++ drop (length (default [] (opt_metadata options)))
                                          [VNull; VNull; VNull])])).
    { destruct (opt_metadata options) as [T|]; [|done].
      by apply setMetadata_last. }
    unfold mbind, heap_bind at 1. rewrite Hset.
    unfold mbind, heap_bind, set_cid, set_rid, set_rcid, js_or.
    cbn [chat_metadata this].
    revert HT.
    destruct (default [] (opt_metadata options)) as [|x [|y [|z [|? ?]]]];
      intros HT; [| | | |simpl in HT; lia];
      destruct (truthy (opt_cid options)), (truthy (opt_rid options)),
        (truthy (opt_rcid options));
      unfold mret, heap_ret; cbv beta iota;
      repeat (rewrite set_index_last; cbv beta iota); reflexivity.
Qed.

(** X18.  Choosing a candidate again.  On a pointer [[a, b, c]], a valid
    choice returns the last output with the chosen candidate on top and
    writes its id to slot 2, the other slots staying as they are; the
    last output stays, so that another candidate can be chosen after,
    and the id of the last choice is the one in the pointer. *)
Theorem chooseCandidate_again this last l (a b c : value) i j chosen chosen'
    (st : store) :
  lastOutput this = Some last ->
  chat_metadata this = Obj l ->
  st !! l = Some (VArr [a; b; c]) ->
  candidates last !! i = Some chosen ->
  candidates last !! j = Some chosen' ->
  let st1 := <[l:=VArr [a; b; rcid chosen]]> st in
  let st2 := <[l:=VArr [a; b; rcid chosen']]> st in
  chooseCandidate this (Z.of_nat i) st
  = (Returns {| metadata := metadata last; candidates := candidates last;
                top := chosen |}, st1)
  /\ chooseCandidate this (Z.of_nat j) st1
     = (Returns {| metadata := metadata last; candidates := candidates last;
                   top := chosen' |}, st2)
  /\ ids this st2 = (Returns a, Returns b, Returns (rcid chosen')).
Proof.
  intros Hlast Hthis Hl Hi Hj. cbv zeta.
  assert (Hlt : l < length st) by (apply lookup_lt_is_Some; eauto).
  split; [|split].
  - by rewrite (chooseCandidate_valid this last i chosen l [a; b; c] st).
  - rewrite (chooseCandidate_valid this last j chosen' l [a; b; rcid chosen]
               (<[l:=VArr [a; b; rcid chosen]]> st) Hlast Hj Hthis
               (list_lookup_insert_eq _ _ _ Hlt)).
    by rewrite list_insert_insert_eq.
  - unfold ids, get_cid, get_rid, get_rcid, get_index. rewrite Hthis. simpl.
    by rewrite list_lookup_insert_eq.
Qed.

End MorePointer.

(** ** Objects *)

Section Objects.
Context {A : Type}.
Implicit Types (o : list (jsstring * A)) (k : jsstring) (v : A).

Lemma jsstring_eqb_refl k : jsstring_eqb k k = true.
Proof. by apply jsstring_eqb_eq. Qed.

Lemma jsstring_eqb_sym a b : jsstring_eqb a b = jsstring_eqb b a.
Proof.
  destruct (decide (a = b)) as [->|Hne]; [done|].
  rewrite !jsstring_eqb_neq; congruence.
Qed.

Lemma property_app k o1 o2 :
  property k (o1 ++ o2)
  = match property k o1 with Some v => Some v | None => property k o2 end.
Proof.
  induction o1 as [|[k' v'] o1 IH]; [done|]. simpl.
  by destruct (jsstring_eqb k' k).
Qed.

Lemma property_overwrite k v o k' :
  property k' (overwrite k v o)
  = if jsstring_eqb k k'
    then match property k o with Some _ => Some v | None => None end
    else property k' o.
Proof.
  induction o as [|[k0 v0] o IH]; simpl.
  - by destruct (jsstring_eqb k k').
  - destruct (jsstring_eqb k0 k) eqn:H0; simpl.
    + apply jsstring_eqb_eq in H0 as ->. by destruct (jsstring_eqb k k').
    + rewrite IH. destruct (jsstring_eqb k k') eqn:Hk.
      * apply jsstring_eqb_eq in Hk as <-. by rewrite H0.
      * done.
Qed.

Lemma property_insert_index n k v o k' :
  property k o = None ->
  property k' (insert_index n k v o)
  = if jsstring_eqb k k' then Some v else property k' o.
Proof.
  induction o as [|[k0 v0] o IH]; simpl; [done|].
  destruct (jsstring_eqb k0 k) eqn:H0; [discriminate|]. intros Hnone.
  destruct (array_index k0) as [m|]; [destruct (m <? n)%N|]; simpl.
  - rewrite IH by done. destruct (jsstring_eqb k k') eqn:Hk; [|done].
    apply jsstring_eqb_eq in Hk as <-. by rewrite H0.
  - by destruct (jsstring_eqb k k').
  - by destruct (jsstring_eqb k k').
Qed.

(** Reading after a write: the key written gives the value written, and
    every other key gives what it gave. *)
Lemma property_define k v o k' :
  property k' (define k v o) = if jsstring_eqb k k' then Some v else property k' o.
Proof.
  unfold define. destruct (property k o) as [w|] eqn:Hk.
  - rewrite property_overwrite, Hk. done.
  - destruct (array_index k) as [n|].
    + by apply property_insert_index.
    + rewrite property_app. simpl.
      destruct (jsstring_eqb k k') eqn:Hkk.
      * apply jsstring_eqb_eq in Hkk as <-. by rewrite Hk.
      * by destruct (property k' o).
Qed.

Lemma property_foldl_define k (l : list (jsstring * A)) : forall o,
  property k (foldl (fun o '(k, v) => define k v o) o l)
  = match property k (reverse l) with Some v => Some v | None => property k o end.
Proof.
  induction l as [|[k0 v0] l IH]; intros o; simpl; [done|].
  rewrite IH, reverse_cons, property_app, property_define. simpl.
  rewrite (jsstring_eqb_sym k0 k).
  destruct (property k (reverse l)); [done|]. by destruct (jsstring_eqb k k0).
Qed.

Lemma property_Some_elem_of k v o : property k o = Some v -> (k, v) ∈ o.
Proof.
  induction o as [|[k0 v0] o IH]; simpl; [discriminate|].
  destruct (jsstring_eqb k0 k) eqn:H0.
  - apply jsstring_eqb_eq in H0 as ->. intros [= ->]. by left.
  - intros H. right. by apply IH.
Qed.

Lemma property_None_not_elem_of k o : property k o = None -> k ∉ o.*1.
Proof.
  induction o as [|[k0 v0] o IH]; simpl; [intros _; apply not_elem_of_nil|].
  destruct (jsstring_eqb k0 k) eqn:H0; [discriminate|]. intros H.
  apply not_elem_of_cons. split; [|by apply IH].
  intros ->. by rewrite jsstring_eqb_refl in H0.
Qed.

Lemma property_NoDup k v o : NoDup o.*1 -> (k, v) ∈ o -> property k o = Some v.
Proof.
  induction o as [|[k0 v0] o IH]; simpl; [intros _ H; by apply elem_of_nil in H|].
  intros [Hk0 Ho]%NoDup_cons [[= -> ->]|Hin]%elem_of_cons.
  - by rewrite jsstring_eqb_refl.
  - destruct (jsstring_eqb k0 k) eqn:H0; [|by apply IH].
    apply jsstring_eqb_eq in H0 as ->. destruct Hk0.
    apply list_elem_of_fmap. by exists (k, v).
Qed.

Lemma property_reverse k o : NoDup o.*1 -> property k (reverse o) = property k o.
Proof.
  intros Ho. destruct (property k o) as [v|] eqn:Hk.
  - apply property_NoDup.
    + by rewrite fmap_reverse, reverse_Permutation.
    + apply elem_of_reverse. by apply property_Some_elem_of.
  - destruct (property k (reverse o)) as [v|] eqn:Hr; [|done].
    apply property_Some_elem_of in Hr. rewrite elem_of_reverse in Hr.
    apply property_None_not_elem_of in Hk. destruct Hk.
    apply list_elem_of_fmap. exists (k, v). by split.
Qed.

(** A spread of two objects: the second one wins. *)
Lemma property_spread k (a b : list (jsstring * A)) :
  NoDup a.*1 -> NoDup b.*1 ->
  property k (spread a b)
  = match property k b with Some v => Some v | None => property k a end.
Proof.
  intros Ha Hb. unfold spread.
  rewrite property_foldl_define, reverse_app, property_app. simpl.
  rewrite !property_reverse by done.
  by destruct (property k b), (property k a).
Qed.


Lemma overwrite_keys k v o : (overwrite k v o).*1 = o.*1.
Proof.
  induction o as [|[k0 v0] o IH]; [done|]. cbn [overwrite].
  destruct (jsstring_eqb k0 k) eqn:H0; rewrite !fmap_cons; cbn [fst].
  - by apply jsstring_eqb_eq in H0 as ->.
  - by rewrite IH.
Qed.

Lemma insert_index_keys n k v o : (insert_index n k v o).*1 ≡ₚ k :: o.*1.
Proof.
  induction o as [|[k0 v0] o IH]; [done|]. cbn [insert_index].
  destruct (array_index k0) as [m|]; [destruct (m <? n)%N|];
    rewrite !fmap_cons; cbn [fst]; try done.
  rewrite IH. apply Permutation_swap.
Qed.

(** A write keeps the keys of an object distinct. *)
Lemma NoDup_define k v o : NoDup o.*1 -> NoDup (define k v o).*1.
Proof.
  intros Ho. unfold define. destruct (property k o) as [w|] eqn:Hk.
  - by rewrite overwrite_keys.
  - apply property_None_not_elem_of in Hk.
    destruct (array_index k) as [n|].
    + rewrite insert_index_keys. by constructor.
    + rewrite fmap_app. simpl. apply NoDup_app. split; [done|].
      split; [|apply NoDup_singleton].
      intros x Hx ->%list_elem_of_singleton. done.
Qed.

Lemma NoDup_foldl_define (l : list (jsstring * A)) : forall o,
  NoDup o.*1 -> NoDup (foldl (fun o '(k, v) => define k v o) o l).*1.
Proof.
  induction l as [|[k v] l IH]; intros o Ho; [done|]. simpl.
  by apply IH, NoDup_define.
Qed.

End Objects.

Lemma NoDup_assign k v o : NoDup o.*1 -> NoDup (assign k v o).*1.
Proof. intros Ho. unfold assign. destruct (jsstring_eqb _ _); [done|by apply NoDup_define]. Qed.

Lemma NoDup_parseCookiesFromResponse set_cookie :
  NoDup (parseCookiesFromResponse set_cookie).*1.
Proof.
  unfold parseCookiesFromResponse.
  assert (Hgen : forall o, NoDup o.*1 ->
            NoDup (foldl (fun cookies cookie =>
                            match cookie_match [] cookie with
                            | Some (k, v) => assign k v cookies
                            | None => cookies
                            end) o set_cookie).*1).
  { induction set_cookie as [|cookie rest IH]; intros o Ho; [done|]. simpl.
    apply IH. destruct (cookie_match [] cookie) as [[k v]|]; [|done].
    by apply NoDup_assign. }
  apply Hgen. constructor.
Qed.

(** ** The expressions of the helpers *)

Lemma strip_prefix_app p s : strip_prefix p (p ++ s) = Some s.
Proof. induction p as [|a p IH]; [done|]. simpl. by rewrite N.eqb_refl. Qed.

Lemma strip_prefix_Some p : forall s r, strip_prefix p s = Some r -> s = p ++ r.
Proof.
  induction p as [|a p IH]; intros s r; simpl.
  - by intros [= ->].
  - destruct s as [|b s]; [done|]. destruct (N.eqb_spec a b) as [->|_]; [|done].
    intros Hr. by rewrite (IH _ _ Hr).
Qed.

Lemma none_before_cons key c s n :
  none_before key (c :: s) (S n) ->
  strip_prefix key (c :: s) = None /\ none_before key s n.
Proof.
  intros Hn. split.
  - destruct (strip_prefix key (c :: s)) as [r|] eqn:Hr; [|done].
    apply strip_prefix_Some in Hr. specialize (Hn [] r Hr). simpl in Hn. lia.
  - intros a b ->. specialize (Hn (c :: a) b eq_refl). simpl in Hn. lia.
Qed.


Lemma span_until (f : N -> bool) s rest :
  forallb f s = true ->
  match rest with [] => true | c :: _ => negb (f c) end = true ->
  span f (s ++ rest) = (s, rest).
Proof.
  intros Hs Hrest. induction s as [|c s IH]; simpl.
  - destruct rest as [|c rest]; [done|]. simpl.
    apply negb_true_iff in Hrest. by rewrite Hrest.
  - simpl in Hs. apply andb_prop in Hs as [-> Hs]. by rewrite IH.
Qed.






Lemma includes_unfold sub s :
  includes sub s
  = match strip_prefix sub s with
    | Some _ => true
    | None => match s with _ :: s' => includes sub s' | [] => false end
    end.
Proof. by destruct s. Qed.



(** ** [parseCookiesFromResponse] *)



Section UtilsProperties.
Context `{E : Engine} `{H : Host}.
Variable http : Config -> reply.

(** ** [getAccessToken] *)

(** [getAccessToken] once the cache was looked at. *)
Lemma getAccessToken_fetch cookies proxy files cacheDir files' cookies' :
  cache_directory files = (Returns cacheDir, files') ->
  load_cached cookies cacheDir files' = Returns cookies' ->
  getAccessToken http cookies proxy files
  = {| token_outcome := try_catch (fst (fetch_token http cookies' proxy))
                          (fun e => Throws (token_failure e));
       given_cookies := cookies'; token_files := files';
       token_requests := snd (fetch_token http cookies' proxy) |}.
Proof.
  intros Hdir Hload. unfold getAccessToken. rewrite Hdir, Hload.
  by destruct (fetch_token http cookies' proxy).
Qed.

(** X21.  The cookies that go to the page of the token and come back as the
    cookies of the client: those of [www.google.com], with the cookies
    the caller gave written over them. *)
Theorem getAccessToken_cookies cookies proxy files cacheDir files' cookies' via
    status set_cookie data :
  cache_directory files = (Returns cacheDir, files') ->
  load_cached cookies cacheDir files' = Returns cookies' ->
  NoDup cookies'.*1 ->
  parsed_proxy proxy = Returns via ->
  http (google_request via) = Reply status set_cookie data ->
  let validCookies := spread (parseCookiesFromResponse set_cookie) cookies' in
  let run := getAccessToken http cookies proxy files in
  token_requests run = [google_request via; init_request validCookies via]
  /\ property (str "Cookie") (headers (init_request validCookies via))
     = Some (cookie_line validCookies)
  /\ (forall k, property k validCookies
                = match property k cookies' with
                  | Some v => Some v
                  | None => property k (parseCookiesFromResponse set_cookie)
                  end)
  /\ (forall token valid, token_outcome run = Returns (token, valid) ->
                          valid = validCookies).
Proof.
  intros Hdir Hload Hnodup Hproxy Hgoogle. cbv zeta.
  rewrite (getAccessToken_fetch _ _ _ _ _ _ Hdir Hload).
  cbn [token_requests token_outcome].
  unfold fetch_token. rewrite Hproxy, Hgoogle.
  set (validCookies := spread (parseCookiesFromResponse set_cookie) cookies').
  repeat split.
  - by destruct (http (init_request validCookies via)).
  - intros k. apply property_spread; [apply NoDup_parseCookiesFromResponse|done].
  - intros token valid.
    destruct (http (init_request validCookies via)) as [st sc d|c m st];
      [|cbn; by destruct st as [st|]; [destruct (_ || _)|]].
    cbn. destruct (negb (st =? 200)%Z); [discriminate|].
    destruct (token_match d) as [[|c t]|]; try discriminate.
    by intros [= _ <-].
Qed.

(** X22.  How [getAccessToken] fails once the cache was looked at.  A proxy
    that is no URL throws before anything is sent.  A rejection with
    status 401 or 403 is [Authentication failed]; any other rejection
    is thrown as it is.  A page of the token with a status that is not
    200, also 401 and 403, which its [validateStatus] lets through, is
    [Failed to fetch access token] with the status.  A page without a
    token, or with an empty one, is [Failed to extract access token]. *)
Theorem getAccessToken_failures cookies proxy files cacheDir files' cookies' :
  cache_directory files = (Returns cacheDir, files') ->
  load_cached cookies cacheDir files' = Returns cookies' ->
  let run := getAccessToken http cookies proxy files in
  (parsed_proxy proxy = Throws TypeError ->
   token_outcome run = Throws TypeError /\ token_requests run = [])
  /\ (forall via, parsed_proxy proxy = Returns via ->
      (forall c m st, http (google_request via) = Refused c m st ->
         token_outcome run = Throws (token_failure (AxiosError c m st))
         /\ (st = Some 401%Z \/ st = Some 403%Z ->
             token_outcome run
             = Throws (Error (str "Authentication failed. Please check your cookies."))))
      /\ (forall st0 set_cookie d0,
            http (google_request via) = Reply st0 set_cookie d0 ->
            let config :=
              init_request (spread (parseCookiesFromResponse set_cookie) cookies') via in
            (forall c m st, http config = Refused c m st ->
               token_outcome run = Throws (token_failure (AxiosError c m st)))
            /\ (forall status sc data, http config = Reply status sc data ->
                  (status <> 200%Z ->
                   token_outcome run
                   = Throws (Error (str "Failed to fetch access token. Status: "
                                      ++ str (pretty status))))
                  /\ (status = 200%Z ->
                      token_match data = None \/ token_match data = Some [] ->
                      token_outcome run
                      = Throws (Error (str
                          "Failed to extract access token from response. Cookies may be invalid.")))))).
Proof.
  intros Hdir Hload. cbv zeta.
  rewrite (getAccessToken_fetch _ _ _ _ _ _ Hdir Hload).
  cbn [token_requests token_outcome]. unfold fetch_token. split.
  - by intros ->.
  - intros via ->. split.
    + intros c m st ->. cbn. split; [done|].
      by intros [-> | ->].
    + intros st0 set_cookie d0 ->. split.
      * by intros c m st ->.
      * intros status sc data ->. cbn. split.
        -- intros Hstatus.
           by replace (status =? 200)%Z with false by (symmetry; by apply Z.eqb_neq).
        -- intros -> [-> | ->]; done.
Qed.

(** X23.  The cached cookie.  When the cookies hold a [__Secure-1PSID] and no
    [__Secure-1PSIDTS], and the cache file of that id holds more than
    white space, its content, trimmed, is written to the cookies the
    caller gave before anything is sent: they hold it afterwards,
    whatever the transport does and whether a token is obtained or
    not. *)
Theorem getAccessToken_loads_cache cookies proxy files id content :
  existsSync files getTempDir = true ->
  property PSID cookies = Some id -> id <> [] ->
  is_set (property PSIDTS cookies) = false ->
  existsSync files (cache_file getTempDir id) = true ->
  readFileSync files (cache_file getTempDir id) = Returns content ->
  trim content <> [] ->
  let run := getAccessToken http cookies proxy files in
  given_cookies run = assign PSIDTS (trim content) cookies
  /\ property PSIDTS (given_cookies run) = Some (trim content)
  /\ (forall k, k <> PSIDTS -> property k (given_cookies run) = property k cookies)
  /\ token_files run = files.
Proof.
  intros Hdir Hid Hne Hts Hfile Hread Htrim. cbv zeta.
  assert (Hcache : cache_directory files = (Returns getTempDir, files)).
  { unfold cache_directory. by rewrite Hdir. }
  assert (Hload : load_cached cookies getTempDir files
                  = Returns (assign PSIDTS (trim content) cookies)).
  { unfold load_cached. rewrite Hid, Hts. change (default [] (Some id)) with id.
    replace (is_set (Some id)) with true by (by destruct id).
    cbn [andb negb]. rewrite Hfile, Hread. cbn.
    by destruct (trim content). }
  rewrite (getAccessToken_fetch _ _ _ _ _ _ Hcache Hload).
  cbn [given_cookies token_files]. unfold assign.
  replace (jsstring_eqb PSIDTS (str "__proto__")) with false by reflexivity.
  repeat split.
  - by rewrite property_define, jsstring_eqb_refl.
  - intros k Hk. by rewrite property_define, (jsstring_eqb_neq _ _ (not_eq_sym Hk)).
Qed.


(** ** [init] and the timer *)

(** X24.  A successful [init] makes the client ready: it is running, holds
    the token and the cookies that came back, and takes its settings
    from the options, with 300000 ms as the default time-out and 540000
    ms as the default interval; every request of [generateContent]
    after it carries that token, those cookies and that time-out.
    Unless [autoRefresh] is [false], the interval the client remembered
    is cleared and a new one is set with the interval of the options;
    with [autoRefresh] [false] the timers stay as they are, an interval
    set before included. *)
Theorem init_success options w token validCookies :
  token_outcome (getAccessToken http (cookies (the_client w)) (proxy (the_client w))
                   (files w))
  = Returns (token, validCookies) ->
  exists w',
    init http options w = (Initialized, w')
    /\ running (the_client w') = true
    /\ accessToken (the_client w') = Some token
    /\ cookies (the_client w') = validCookies
    /\ proxy (the_client w') = proxy (the_client w)
    /\ (forall prompt model chat st,
          let request := generate_request (the_client w') prompt model chat st in
          at_field request = Some token
          /\ cookie_header request = validCookies
          /\ request_timeout request = default 300000%N (init_timeout options))
    /\ (init_autoRefresh options <> Some false ->
        refreshIntervalId (the_client w') = Some (next_timer w)
        /\ timers w'
           = cleared w ++ [{| timer_id := next_timer w;
                              delay := default 540000%N (init_refreshInterval options) |}])
    /\ (init_autoRefresh options = Some false ->
        refreshIntervalId (the_client w') = refreshIntervalId (the_client w)
        /\ timers w' = timers w).
Proof.
  intros Hrun. unfold init. rewrite Hrun. cbn [the_client autoRefresh].
  destruct (init_autoRefresh options) as [[|]|]; cbn [default];
    (eexists; split; [reflexivity|]); repeat split; try done.
Qed.

(** X25.  A failed [init] closes the client.  When [getAccessToken] throws,
    [init] throws [Failed to initialize client] with the message of
    that error; the client is not running, the interval it remembered
    is cleared, and its cookies are those [getAccessToken] left, the
    cached cookie included; every call of [generateContent] after it
    with a prompt that is not blank throws [Client not initialized]. *)
Theorem init_failure options w e :
  token_outcome (getAccessToken http (cookies (the_client w)) (proxy (the_client w))
                   (files w))
  = Throws e ->
  exists w',
    init http options w = (InitFailure e, w')
    /\ running (the_client w') = false
    /\ refreshIntervalId (the_client w') = None
    /\ timers w' = cleared w
    /\ cookies (the_client w')
       = given_cookies (getAccessToken http (cookies (the_client w))
                          (proxy (the_client w)) (files w))
    /\ (forall axios prompt model chat st sent0,
          trim prompt <> [] ->
          let s := {| client := the_client w'; objects := st; sent := sent0 |} in
          generateContent axios prompt model chat s
          = (Throws (Error (str "Client not initialized. Call init() first.")), s, chat)).
Proof.
  intros Hrun. unfold init. rewrite Hrun.
  eexists. split; [reflexivity|]. repeat split.
  intros axios prompt model chat st sent0 Hprompt. cbv zeta.
  unfold generateContent. by rewrite (trim_nil_blank _ Hprompt).
Qed.

Lemma clearInterval_all id ts :
  (forall t, t ∈ ts -> timer_id t = id) -> clearInterval id ts = [].
Proof.
  unfold clearInterval. induction ts as [|t ts IH]; intros Hts; [done|].
  rewrite filter_cons. destruct (decide (timer_id t <> id)) as [Hne|_].
  - destruct Hne. apply Hts. by left.
  - apply IH. intros t' Ht'. apply Hts. by right.
Qed.

Lemma tracked_cleared w : tracked w -> cleared w = [].
Proof.
  intros Hw. unfold cleared.
  destruct (refreshIntervalId (the_client w)) as [id|] eqn:Hid.
  - apply clearInterval_all. intros t Ht. apply Hw in Ht.
    rewrite Hid in Ht. by injection Ht as ->.
  - destruct (timers w) as [|t ts] eqn:Hts; [done|].
    specialize (Hw t). rewrite Hts, Hid in Hw. by specialize (Hw ltac:(left)).
Qed.

Lemma tracked_startAutoRefresh w :
  tracked w -> tracked (startAutoRefresh w) /\ length (timers (startAutoRefresh w)) = 1.
Proof.
  intros Hw. unfold startAutoRefresh, tracked. cbn [timers the_client refreshIntervalId].
  rewrite (tracked_cleared w Hw). split; [|done].
  by intros t ->%list_elem_of_singleton.
Qed.

Lemma tracked_close_client w :
  tracked w -> tracked (close_client w) /\ timers (close_client w) = [].
Proof.
  intros Hw. unfold close_client, tracked. cbn [timers].
  rewrite (tracked_cleared w Hw). split; [|done].
  intros t Ht. by apply elem_of_nil in Ht.
Qed.

Lemma tracked_act w a :
  tracked w /\ length (timers w) <= 1 ->
  tracked (act http w a) /\ length (timers (act http w a)) <= 1.
Proof.
  intros [Hw Hlen]. destruct a as [options| |now]; cbn [act].
  - unfold init.
    destruct (token_outcome _) as [[token validCookies]|e|]; cbn [snd].
    + match goal with
      | |- context [if ?b then startAutoRefresh ?w1 else _] =>
          assert (Hw1 : tracked w1) by exact Hw;
          destruct b; [|by split]
      end.
      destruct (tracked_startAutoRefresh _ Hw1) as [? ->]. auto.
    + match goal with
      | |- context [close_client ?w1] => assert (Hw1 : tracked w1) by exact Hw
      end.
      destruct (tracked_close_client _ Hw1) as [? ->]. simpl. auto with lia.
    + by split.
  - destruct (tracked_close_client _ Hw) as [? ->]. simpl. auto with lia.
  - by split.
Qed.

(** X26.  One timer at most.  Over any sequence of calls of [init] and
    [close] and of runs of the refresh callback, starting from a client
    without a timer, at most one interval is set at any time, it is the
    one the client remembers, and [close] leaves none. *)
Theorem one_timer w actions :
  timers w = [] ->
  let w' := foldl (act http) w actions in
  length (timers w') <= 1
  /\ tracked w'
  /\ timers (close_client w') = [].
Proof.
  intros Hnone. cbv zeta.
  assert (Hinv : tracked w /\ length (timers w) <= 1).
  { split; [|rewrite Hnone; simpl; lia].
    intros t Ht. rewrite Hnone in Ht. by apply elem_of_nil in Ht. }
  clear Hnone. revert w Hinv.
  induction actions as [|a actions IH]; intros w Hinv.
  - destruct Hinv as [Hw Hlen]. repeat split; try done.
    by destruct (tracked_close_client _ Hw).
  - simpl. apply IH. by apply tracked_act.
Qed.

End UtilsProperties.

Section RefreshProperties.
Context `{E : Engine} `{H : Host}.
Variable http : Config -> reply.

(** ** The refresh of the cookie *)

Lemma rotated_match_unfold s :
  rotated_match s
  = let later := match s with _ :: s' => rotated_match s' | [] => None end in
    match strip_prefix (PSIDTS ++ [61%N]) s with
    | Some (c :: rest) =>
        if (c =? 59)%N then later
        else Some (fst (span (fun d => negb (d =? 59)%N) (c :: rest)))
    | _ => later
    end.
Proof. by destruct s. Qed.

Lemma includes_app key pre s : includes key (pre ++ key ++ s) = true.
Proof.
  induction pre as [|c pre IH]; rewrite includes_unfold.
  - by rewrite app_nil_l, strip_prefix_app.
  - by destruct (strip_prefix key ((c :: pre) ++ key ++ s)).
Qed.

(** A line gives the value that follows the first occurrence of the
    cookie and the equals sign, up to the first semicolon. *)
Lemma rotated_match_line pre v rest :
  none_before (PSIDTS ++ [61%N]) (pre ++ PSIDTS ++ 61%N :: v ++ rest) (length pre) ->
  v <> [] -> 59%N ∉ v ->
  match rest with [] => true | c :: _ => (c =? 59)%N end = true ->
  rotated_match (pre ++ PSIDTS ++ 61%N :: v ++ rest) = Some v
  /\ includes (PSIDTS ++ [61%N]) (pre ++ PSIDTS ++ 61%N :: v ++ rest) = true.
Proof.
  intros Hpre Hv Hv' Hrest.
  replace (PSIDTS ++ 61%N :: v ++ rest) with ((PSIDTS ++ [61%N]) ++ v ++ rest) in *
    by (by rewrite <- app_assoc).
  split; [|apply includes_app].
  induction pre as [|c pre IH].
  - rewrite app_nil_l, rotated_match_unfold. cbv zeta.
    rewrite strip_prefix_app.
    destruct v as [|c v]; [done|]. rewrite <- app_comm_cons.
    apply not_elem_of_cons in Hv' as [Hc Hv'].
    destruct (N.eqb_spec c 59) as [->|_]; [done|].
    rewrite app_comm_cons, (span_until _ (c :: v) rest); [done| |].
    + apply forallb_forall. intros d Hd. apply negb_true_iff, N.eqb_neq.
      intros ->. apply list_elem_of_In in Hd.
      apply elem_of_cons in Hd as [?|?]; [by apply Hc|by apply Hv'].
    + destruct rest as [|d rest]; [done|]. simpl. by rewrite Hrest.
  - apply (none_before_cons _ c (pre ++ _) (length pre)) in Hpre as [Hnone Hpre].
    rewrite <- app_comm_cons, rotated_match_unfold. cbv zeta.
    rewrite Hnone. by apply IH.
Qed.

Lemma rotated_cookie_cons cookie rest :
  rotated_cookie (cookie :: rest)
  = if includes (PSIDTS ++ [61%N]) cookie then
      match rotated_match cookie with
      | Some (c :: v) => Some (c :: v)
      | _ => rotated_cookie rest
      end
    else rotated_cookie rest.
Proof. reflexivity. Qed.

Lemma rotated_cookie_first before pre v rest after :
  Forall (fun line => includes (PSIDTS ++ [61%N]) line = false) before ->
  none_before (PSIDTS ++ [61%N]) (pre ++ PSIDTS ++ 61%N :: v ++ rest) (length pre) ->
  v <> [] -> 59%N ∉ v ->
  match rest with [] => true | c :: _ => (c =? 59)%N end = true ->
  rotated_cookie (before ++ (pre ++ PSIDTS ++ 61%N :: v ++ rest) :: after) = Some v.
Proof.
  intros Hbefore Hpre Hv Hv' Hrest.
  induction Hbefore as [|line before Hline _ IH].
  - destruct (rotated_match_line pre v rest Hpre Hv Hv' Hrest) as [Hmatch Hincl].
    rewrite app_nil_l, rotated_cookie_cons, Hincl, Hmatch. by destruct v.
  - by rewrite <- app_comm_cons, rotated_cookie_cons, Hline.
Qed.

Lemma cache_directory_exists files :
  existsSync files getTempDir = true ->
  cache_directory files = (Returns getTempDir, files).
Proof. intros Hdir. unfold cache_directory. by rewrite Hdir. Qed.

Lemma World_eta (w : World) :
  {| the_client :=
       {| cookies := cookies (the_client w); proxy := proxy (the_client w);
          running := running (the_client w); accessToken := accessToken (the_client w);
          timeout := timeout (the_client w); autoRefresh := autoRefresh (the_client w);
          refreshInterval := refreshInterval (the_client w);
          refreshIntervalId := refreshIntervalId (the_client w);
          verbose := verbose (the_client w) |};
     files := files w; timers := timers w; next_timer := next_timer w;
     requests := requests w ++ [] |} = w.
Proof. destruct w as [[] ? ? ? ?]. cbn. by rewrite app_nil_r. Qed.

(** X27.  No refresh within a minute.  When the cache file of the cookie was
    changed at most 60000 ms before [Date.now()], [rotate1PSIDTS]
    returns [null] without a request, and the callback of the timer
    leaves the client, the file system and the requests as they are. *)
Theorem refresh_throttled now w modifiedTime :
  let this := the_client w in
  let cachePath :=
    cache_file getTempDir (default (str "undefined") (property PSID (cookies this))) in
  existsSync (files w) getTempDir = true ->
  existsSync (files w) cachePath = true ->
  statSync_mtimeMs (files w) cachePath = Returns modifiedTime ->
  (now - modifiedTime <= 60000)%Z ->
  rotate1PSIDTS http (cookies this) (proxy this) now (files w)
  = {| rotate_outcome := Returns None; rotate_files := files w; rotate_requests := [] |}
  /\ refresh http now w = w.
Proof.
  cbv zeta. intros Hdir Hfile Hstat Hrecent.
  assert (Hrotate : rotate1PSIDTS http (cookies (the_client w)) (proxy (the_client w))
                      now (files w)
                    = {| rotate_outcome := Returns None; rotate_files := files w;
                         rotate_requests := [] |}).
  { unfold rotate1PSIDTS. rewrite (cache_directory_exists _ Hdir), Hfile, Hstat.
    by replace (now - modifiedTime <=? 60000)%Z with true
      by (symmetry; by apply Z.leb_le). }
  split; [done|]. unfold refresh. rewrite Hrotate. cbn [rotate_outcome rotate_files
    rotate_requests]. apply World_eta.
Qed.

(** X28.  A refresh that succeeds.  When the cache file does not stop the
    refresh, there being none or one that was changed more than 60000
    ms before [Date.now()], the response has a status other than 401
    and one of its [set-cookie] lines holds the cookie, an equals sign
    and a value, the first such line gives the new value, the one after
    the first occurrence of the cookie in it: it is written to the
    cache file and to the cookies of the client, and one request was
    sent, carrying the cookies the client had. *)
Theorem refresh_rotates now w via status before pre v rest after data files' :
  let this := the_client w in
  let cachePath :=
    cache_file getTempDir (default (str "undefined") (property PSID (cookies this))) in
  existsSync (files w) getTempDir = true ->
  existsSync (files w) cachePath = false
  \/ (exists modifiedTime,
        statSync_mtimeMs (files w) cachePath = Returns modifiedTime
        /\ (60000 < now - modifiedTime)%Z) ->
  parsed_proxy (proxy this) = Returns via ->
  http (rotate_request (cookies this) via)
  = Reply status (before ++ (pre ++ PSIDTS ++ 61%N :: v ++ rest) :: after) data ->
  status <> 401%Z ->
  Forall (fun line => includes (PSIDTS ++ [61%N]) line = false) before ->
  none_before (PSIDTS ++ [61%N]) (pre ++ PSIDTS ++ 61%N :: v ++ rest) (length pre) ->
  v <> [] -> 59%N ∉ v ->
  match rest with [] => true | c :: _ => (c =? 59)%N end = true ->
  writeFileSync (files w) cachePath v = (Returns (), files') ->
  let w' := refresh http now w in
  property PSIDTS (cookies (the_client w')) = Some v
  /\ files w' = files'
  /\ requests w' = requests w ++ [rotate_request (cookies this) via]
  /\ property (str "Cookie") (headers (rotate_request (cookies this) via))
     = Some (cookie_line (cookies this)).
Proof.
  cbv zeta.
  intros Hdir Hfile Hproxy Hhttp Hstatus Hbefore Hpre Hv Hv' Hrest Hwrite.
  assert (Hrotate : rotate1PSIDTS http (cookies (the_client w)) (proxy (the_client w))
                      now (files w)
                    = {| rotate_outcome := Returns (Some v); rotate_files := files';
                         rotate_requests := [rotate_request (cookies (the_client w)) via] |}).
  { assert (Hfetch : fetch_rotation http (cookies (the_client w)) (proxy (the_client w))
                       (cache_file getTempDir
                          (default (str "undefined")
                             (property PSID (cookies (the_client w)))))
                       (files w)
                     = {| rotate_outcome := Returns (Some v); rotate_files := files';
                          rotate_requests :=
                            [rotate_request (cookies (the_client w)) via] |}).
    { unfold fetch_rotation. rewrite Hproxy, Hhttp.
      replace (status =? 401)%Z with false by (symmetry; by apply Z.eqb_neq).
      by rewrite (rotated_cookie_first before pre v rest after Hbefore Hpre Hv Hv' Hrest),
        Hwrite. }
    unfold rotate1PSIDTS. rewrite (cache_directory_exists _ Hdir).
    destruct Hfile as [Hfile|(modifiedTime & Hstat & Hold)].
    - by rewrite Hfile, Hfetch.
    - destruct (existsSync (files w) (cache_file _ _)); [|by rewrite Hfetch].
      rewrite Hstat.
      replace (now - modifiedTime <=? 60000)%Z with false
        by (symmetry; apply Z.leb_gt; lia).
      by rewrite Hfetch. }
  unfold refresh. rewrite Hrotate.
  cbn [rotate_outcome rotate_files rotate_requests the_client cookies files requests].
  destruct v as [|c v]; [done|]. repeat split.
  unfold assign. replace (jsstring_eqb PSIDTS (str "__proto__")) with false by done.
  by rewrite property_define, jsstring_eqb_refl.
Qed.

End RefreshProperties.

(** ** The cookies of a request to the server *)

Lemma replace_first_same p s : replace_first p p s = s.
Proof.
  induction s as [|c s IH]; simpl.
  - destruct p; [done|done].
  - destruct (strip_prefix p (c :: s)) as [rest|] eqn:Hp; [|by rewrite IH].
    revert Hp. generalize (c :: s). clear.
    induction p as [|a p IH]; intros s; simpl.
    + by intros [= ->].
    + destruct s as [|b s]; [discriminate|].
      destruct (N.eqb_spec a b) as [->|]; [|discriminate].
      intros Hp. by rewrite (IH _ Hp).
Qed.

(** The key the tests look at: the lower case of the key without its
    underscores; replacing [secure] by itself changes nothing. *)
Lemma lowerKey_filter key :
  lowerKey key = filter (fun c => c <> 95%N) (toLowerCase_key key).
Proof. apply replace_first_same. Qed.

Lemma lowerKey_digits key : forallb is_digit key = true -> lowerKey key = key.
Proof.
  intros Hkey. rewrite lowerKey_filter.
  induction key as [|c key IH]; [done|].
  simpl in Hkey. apply andb_prop in Hkey as [Hc Hkey].
  assert (Hid : (if in_range 65 90 c then [(c + 32)%N]
                 else if (c =? 8490)%N then [107%N]
                 else if (c =? 304)%N then [105%N; 775%N] else [c]) = [c]).
  { unfold is_digit, in_range in *.
    apply andb_prop in Hc as [H1%N.leb_le H2%N.leb_le].
    replace (65 <=? c)%N with false by (symmetry; apply N.leb_gt; lia).
    replace (c =? 8490)%N with false by (symmetry; apply N.eqb_neq; lia).
    by replace (c =? 304)%N with false by (symmetry; apply N.eqb_neq; lia). }
  unfold toLowerCase_key. cbn [flat_map]. rewrite Hid. cbn [app].
  rewrite filter_cons. destruct (decide (c <> 95%N)) as [_|Hu].
  - f_equal. apply IH, Hkey.
  - exfalso. apply Hu. intros ->. done.
Qed.

Lemma array_index_digits k n : array_index k = Some n -> forallb is_digit k = true.
Proof.
  unfold array_index. destruct k as [|c k]; [discriminate|].
  destruct (N.eqb_spec c 48) as [->|Hc].
  - destruct k; [done|discriminate].
  - assert (Hgen : (if forallb is_digit (c :: k) && (N_of_digits (c :: k) <? 2 ^ 32 - 1)%N
                    then Some (N_of_digits (c :: k)) else None) = Some n ->
                   forallb is_digit (c :: k) = true).
    { destruct (forallb is_digit (c :: k)); [done|discriminate]. }
    intros Hk. apply Hgen. revert Hk. clear -Hc.
    destruct c as [|p]; [done|].
    by repeat (destruct p as [p|p|]; try done).
Qed.

Section ServerProperties.
Context `{E : Engine}.

(** A key that is taken for a cookie is no array index. *)
Lemma lowerKey_not_index key :
  includes (str "secure1psid") (lowerKey key) = true -> array_index key = None.
Proof.
  intros Hkey. destruct (array_index key) as [n|] eqn:Hn; [|done].
  pose proof (array_index_digits key n Hn) as Hdigits.
  rewrite (lowerKey_digits key Hdigits) in Hkey.
  change (str "secure1psid") with (115%N :: str "ecure1psid") in Hkey.
  rewrite includes_first in Hkey; [discriminate|].
  by apply (forallb_not_elem_of is_digit).
Qed.

Lemma entries_two k1 k2 (a b : value) :
  array_index k1 = None -> array_index k2 = None -> k1 <> k2 ->
  entries (VObj [(k1, a); (k2, b)]) = Returns [(k1, a); (k2, b)].
Proof.
  intros H1 H2 Hne. unfold entries. simpl. unfold define. simpl.
  rewrite H1. simpl. by rewrite (jsstring_eqb_neq _ _ Hne), H2.
Qed.


Lemma normalize_entry_PSID n key v :
  lowerKey key = str "secure1psid" ->
  normalize_entry n (key, v)
  = {| secure1PSID := Some v; secure1PSIDTS := secure1PSIDTS n |}.
Proof. intros Hkey. unfold normalize_entry. cbn [fst snd]. by rewrite Hkey. Qed.

Lemma normalize_entry_PSIDTS n key v :
  lowerKey key = str "secure1psidts" ->
  normalize_entry n (key, v)
  = {| secure1PSID := secure1PSID n; secure1PSIDTS := Some v |}.
Proof. intros Hkey. unfold normalize_entry. cbn [fst snd]. by rewrite Hkey. Qed.

Lemma entries_one k (a : value) :
  array_index k = None -> entries (VObj [(k, a)]) = Returns [(k, a)].
Proof. intros Hk. unfold entries. simpl. unfold define. simpl. by rewrite Hk. Qed.

(** X29.  The spellings the server knows.  A key is told by its lower case
    without underscores: [secure1psid] names the first cookie and
    [secure1psidts] the second, in either order, so [SECURE_1PSID] and
    [secure1PSID] are the same key.  The names the cookies have in the
    browser, [__Secure-1PSID] and [__Secure-1PSIDTS], keep their hyphen
    and are not known: a payload with those two gives [null]. *)
Theorem normalizeCookies_spellings k1 k2 (a b : value) :
  lowerKey k1 = str "secure1psid" ->
  lowerKey k2 = str "secure1psidts" ->
  normalizeCookies (VObj [(k1, a); (k2, b)])
  = Some {| secure1PSID := Some a; secure1PSIDTS := Some b |}
  /\ normalizeCookies (VObj [(k2, b); (k1, a)])
     = Some {| secure1PSID := Some a; secure1PSIDTS := Some b |}
  /\ normalizeCookies (VObj [(k1, a)])
     = Some {| secure1PSID := Some a; secure1PSIDTS := None |}
  /\ normalizeCookies (VObj [(k2, b)])
     = Some {| secure1PSID := None; secure1PSIDTS := Some b |}
  /\ normalizeCookies (VObj [(PSID, a); (PSIDTS, b)]) = None.
Proof.
  intros H1 H2.
  assert (Hi1 : array_index k1 = None) by (apply lowerKey_not_index; by rewrite H1).
  assert (Hi2 : array_index k2 = None) by (apply lowerKey_not_index; by rewrite H2).
  assert (Hne : k1 <> k2) by (intros ->; rewrite H1 in H2; discriminate).
  unfold normalizeCookies. cbn [truthy].
  rewrite (entries_two k1 k2 a b Hi1 Hi2 Hne),
    (entries_two k2 k1 b a Hi2 Hi1 (not_eq_sym Hne)),
    (entries_one k1 a Hi1), (entries_one k2 b Hi2).
  cbn [foldl].
  repeat (rewrite (normalize_entry_PSID _ k1 _ H1)
          || rewrite (normalize_entry_PSIDTS _ k2 _ H2)).
  repeat split.
Qed.

Lemma normalize_entry_index n (e : jsstring * value) :
  forallb is_digit e.1 = true -> normalize_entry n e = n.
Proof.
  intros Hkey. unfold normalize_entry. rewrite (lowerKey_digits _ Hkey).
  assert (Hs : 115%N ∉ e.1) by (by apply (forallb_not_elem_of is_digit)).
  change (str "secure1psid") with (115%N :: str "ecure1psid").
  change (str "secure1psidts") with (115%N :: str "ecure1psidts").
  by rewrite !(includes_first _ _ _ Hs).
Qed.

Lemma foldl_normalize_indices n (es : list (jsstring * value)) :
  Forall (fun e => forallb is_digit e.1 = true) es -> foldl normalize_entry n es = n.
Proof.
  intros Hes. induction Hes as [|e es He _ IH]; [done|].
  cbn [foldl]. by rewrite (normalize_entry_index n e He).
Qed.

Lemma index_key_digits i : forallb is_digit (index_key i) = true.
Proof. apply pretty_N_digits. Qed.

Lemma imap_index_keys {A} (f : A -> value) (l : list A) :
  Forall (fun e : jsstring * value => forallb is_digit e.1 = true)
         (imap (fun i x => (index_key i, f x)) l).
Proof.
  apply Forall_forall. intros e He.
  apply elem_of_lookup_imap in He as (i & x & -> & _). apply index_key_digits.
Qed.

(** X30.  Only an object can name cookies: for a string, an array, a number,
    a boolean, [null] or nothing at all, [normalizeCookies] gives
    [null]. *)
Theorem normalizeCookies_object v :
  (forall members, v <> VObj members) -> normalizeCookies v = None.
Proof.
  intros Hv. unfold normalizeCookies.
  destruct v as [| |b|n|s|items|members]; cbn [truthy entries]; try done.
  - by destruct b.
  - by destruct (number_truthy n).
  - destruct s as [|c s]; [done|].
    by rewrite (foldl_normalize_indices _ _ (imap_index_keys (fun c => VStr [c]) (c :: s))).
  - by rewrite (foldl_normalize_indices _ _ (imap_index_keys id items)).
  - by destruct (Hv members).
Qed.

End ServerProperties.

(** ** The regular expression objects of the decoder *)

Section ExecProperties.
Context {A : Type}.
Variable pattern : jsstring -> option (A * nat).



End ExecProperties.














Section RunProperties.
Context `{E : Engine}.










End RunProperties.

(** ** The properties on the concrete inputs *)

(** Settles a closed decidable statement by computation. *)
Ltac absent := apply (bool_decide_unpack _); vm_compute; exact I.

(** Goes through the indices below a bound that is given in full. *)
Ltac scan :=
  let i := fresh "i" in
  let Hi := fresh "Hi" in
  intros i Hi; repeat (destruct i as [|i]; [reflexivity|]);
  exfalso; vm_compute in Hi; lia.

Section MoreReferenceProperties.
#[local] Existing Instance reference_engine.
#[local] Existing Instance reference_host.

Lemma parseResponse_lines_witness :
  parseResponse fresh_client []
  = Throws (ParseFailure (Error (str "Invalid response format")))
  /\ parseResponse fresh_client [10%N; 10%N] = Throws (ParseFailure (SyntaxError [])).
Proof.
  destruct (parseResponse_lines fresh_client [] [] (not_elem_of_nil _) (not_elem_of_nil _))
    as (Hempty & _ & Htwo & _).
  split; [exact Hempty|exact Htwo].
Defined.

Lemma assemble_lists_candidates_witness :
  assemble fresh_client plain_body
  = Returns {| metadata := VArr [VStr (str "c"); VStr (str "r")];
               candidates := [decoded_plain_candidate];
               top := decoded_plain_candidate |}.
Proof.
  apply (proj2 (assemble_lists_candidates fresh_client plain_body [plain_candidate] _
                  eq_refl)).
  split; [|split]; [|reflexivity|reflexivity].
  constructor; [reflexivity|constructor].
Defined.

Lemma parseResponse_result_shape_witness :
  exists r,
    parseResponse fresh_client plain_response = Returns r
    /\ head (candidates r) = Some (top r).
Proof.
  eexists. split; [reflexivity|].
  apply (proj1 (parseResponse_result_shape fresh_client plain_response _ eq_refl)).
Defined.

Lemma decode_factuality_sources_reads_witness :
  decode_factuality_sources candidate_with_source
  = (factuality_entry (VArr [VStr (str "high")]),
     omap source_entry [VArr [VArr [VStr (str "t"); VStr (str "u")]]]).
Proof.
  apply (decode_factuality_sources_reads candidate_with_source
           (VArr [VStr (str "high")]) [VArr [VArr [VStr (str "t"); VStr (str "u")]]]
           eq_refl eq_refl).
Defined.

Lemma decode_fileAttachments_stops_witness :
  decode_fileAttachments fresh_client
    (candidate_with_files [file_named (VStr (str "a.py")); file_named (VBool true);
                           file_named (VStr (str "b.py"))])
    (VStr (str "t"))
  = decode_fileAttachments fresh_client
      (candidate_with_files [file_named (VStr (str "a.py"))]) (VStr (str "t")).
Proof.
  apply (decode_fileAttachments_stops fresh_client
           (candidate_with_files [file_named (VStr (str "a.py")); file_named (VBool true);
                                  file_named (VStr (str "b.py"))])
           (candidate_with_files [file_named (VStr (str "a.py"))]) (str "t")
           [file_named (VStr (str "a.py"))] [file_named (VStr (str "b.py"))]
           [VBool true; VNull; VNull; VNull; VStr (str "x")] (VBool true)
           eq_refl eq_refl).
  - simpl. lia.
  - reflexivity.
  - reflexivity.
  - discriminate.
Defined.

Lemma detectMimeType_extension_witness :
  detectMimeType fresh_client (VStr (str "main" ++ 46%N :: str "PY"))
  = Returns (Mime (str "text/x-python")).
Proof.
  apply (proj1 (proj1 (detectMimeType_extension fresh_client (str "main") (str "PY")
                         ltac:(absent))
                  "py"%string "text/x-python"%string eq_refl ltac:(absent))).
Defined.

Lemma sendMessage_threads_context_witness :
  exists output s' chat',
    sendMessage (fun _ => Response 200 plain_response) empty_chat (str "hello") ready_state
    = (Returns output, s', Some chat')
    /\ deref (objects s') (metadata output)
       = VArr [VStr (str "c"); VStr (str "r"); VStr (str "rc1")].
Proof.
  destruct (sendMessage_threads_context (fun _ => Response 200 plain_response)
              empty_chat (str "hello") ready_state plain_response _
              [VStr (str "c"); VStr (str "r")]
              ltac:(discriminate) eq_refl eq_refl eq_refl eq_refl eq_refl)
    as (output & s' & chat' & Hsend & _ & _ & _ & _ & _ & _ & _ & _ & Hpointer & _).
  exists output, s', chat'. split; [exact Hsend|exact Hpointer].
Defined.

Lemma ChatSession_toString_after_turn_witness :
  exists output s' chat',
    sendMessage (fun _ => Response 200 plain_response) empty_chat (str "hello") ready_state
    = (Returns output, s', Some chat')
    /\ ChatSession_toString chat' (objects s')
       = (Returns (str "ChatSession(cid='c', rid='r', rcid='rc1')"), objects s').
Proof.
  apply (ChatSession_toString_after_turn (fun _ => Response 200 plain_response)
           empty_chat (str "hello") ready_state plain_response _
           (str "c") (str "r") (str "rc1") []
           ltac:(discriminate) eq_refl eq_refl eq_refl eq_refl eq_refl eq_refl).
Defined.

Lemma sendMessage_without_metadata_witness :
  (sendMessage (fun _ => Response 200 scenario_A_index4) empty_chat (str "hello")
     ready_state).1.1
  = Throws TypeError.
Proof.
  apply (f_equal (fun r => r.1.1)
           (sendMessage_without_metadata (fun _ => Response 200 scenario_A_index4)
              empty_chat (str "hello") ready_state scenario_A_index4 _
              ltac:(discriminate) eq_refl eq_refl eq_refl eq_refl eq_refl)).
Defined.

Lemma generateContent_rejections_witness :
  generateContent
    (fun _ => Rejected (Some (str "ERR_BAD_REQUEST"))
                (str "Request failed with status code 401") (Some 401%Z))
    (str "hello") UNSPECIFIED None ready_state
  = (Throws (Error (str
       "Authentication failed. Cookies may have expired. Please reinitialize.")),
     {| client := close ready_client; objects := three_nulls;
        sent := [generate_request ready_client (str "hello") UNSPECIFIED None
                   three_nulls] |},
     None).
Proof.
  apply (proj1 (proj2 (generateContent_rejections
                         (fun _ => Rejected (Some (str "ERR_BAD_REQUEST"))
                                     (str "Request failed with status code 401")
                                     (Some 401%Z))
                         (str "hello") UNSPECIFIED None ready_state _ _ _
                         ltac:(discriminate) eq_refl eq_refl eq_refl))).
  - intros [Hcode|Hmessage]; vm_compute in *; discriminate.
  - left. reflexivity.
Defined.

Lemma generateContent_bad_status_witness :
  generateContent (fun _ => Response 204 []) (str "hello") UNSPECIFIED None ready_state
  = (Throws (Error (str "Request failed with status 204")),
     {| client := ready_client; objects := three_nulls;
        sent := [generate_request ready_client (str "hello") UNSPECIFIED None
                   three_nulls] |},
     None).
Proof.
  apply (generateContent_bad_status (fun _ => Response 204 []) (str "hello")
           UNSPECIFIED None ready_state 204%Z []
           ltac:(discriminate) eq_refl eq_refl eq_refl ltac:(discriminate)).
Defined.

Lemma setters_and_getters_witness :
  ids empty_chat three_nulls = (Returns VNull, Returns VNull, Returns VNull)
  /\ exists st', set_rcid empty_chat (VStr (str "rc")) three_nulls = (Returns (), st')
                 /\ ids empty_chat st'
                    = (Returns VNull, Returns VNull, Returns (VStr (str "rc"))).
Proof.
  destruct (setters_and_getters empty_chat 0 VNull VNull VNull (VStr (str "rc"))
              three_nulls eq_refl eq_refl)
    as (Hids & _ & _ & Hrcid).
  split; [exact Hids|exact Hrcid].
Defined.

Lemma chooseCandidate_again_witness :
  chooseCandidate chat_after_turn 0 three_nulls
  = (Returns {| metadata := Obj 0; candidates := [decoded_plain_candidate];
                top := decoded_plain_candidate |},
     [VArr [VNull; VNull; VStr (str "rc1")]]).
Proof.
  apply (proj1 (chooseCandidate_again chat_after_turn _ 0 VNull VNull VNull 0 0
                  decoded_plain_candidate decoded_plain_candidate three_nulls
                  eq_refl eq_refl eq_refl eq_refl eq_refl)).
Defined.

(** [exec] reads [lastIndex]: an object that a search left at index 9
    does not find the block of the text, which an object at 0 finds. *)
Lemma exec_reads_lastIndex :
  fst (exec fenced_block_at {| lastIndex := 0 |} text_with_stray_fence)
  = Some (fence ++ str "js" ++ 10%N :: str "code" ++ fence,
          (Some (str "js"), str "code"))
  /\ fst (exec fenced_block_at {| lastIndex := 9 |} text_with_stray_fence) = None.
Proof. split; reflexivity. Qed.

Lemma scanned_blocks_fences_witness :
  scanned_blocks (VStr text_with_stray_fence)
  = [{| language := VStr (str "js"); code := VStr (str "code") |}].
Proof.
  apply (proj2 scanned_blocks_fences (str "a ``` b ") (str "js") (str "code") []
           ltac:(apply no_block_before_scan; scan) eq_refl ltac:(discriminate) eq_refl).
Defined.



Lemma getAccessToken_cookies_witness :
  token_requests (getAccessToken reference_http (cookies new_client) None
                    (files new_world))
  = [google_request None;
     init_request [(str "NID", str "1"); (PSID, str "id")] None].
Proof.
  apply (proj1 (getAccessToken_cookies reference_http (cookies new_client) None
                  (files new_world) (str "/tmp") (files new_world) (cookies new_client) None
                  200%Z [str "NID=1; path=/"] []
                  eq_refl eq_refl ltac:(absent) eq_refl eq_refl)).
Defined.

Lemma getAccessToken_failures_witness :
  token_outcome (getAccessToken denying_http (cookies new_client) None
                   (files new_world))
  = Throws (Error (str "Failed to fetch access token. Status: 401")).
Proof.
  destruct (getAccessToken_failures denying_http (cookies new_client) None
              (files new_world) (str "/tmp") (files new_world) (cookies new_client) eq_refl eq_refl)
    as (_ & Hsent).
  destruct (Hsent None eq_refl) as (_ & Hgoogle).
  destruct (Hgoogle 200%Z [] [] eq_refl) as (_ & Hpage).
  apply (proj1 (Hpage 401%Z [] [] eq_refl)).
  discriminate.
Defined.

Lemma getAccessToken_loads_cache_witness :
  given_cookies (getAccessToken denying_http (cookies new_client) None
                   (files cached_world))
  = [(PSID, str "id"); (PSIDTS, str "old")].
Proof.
  apply (proj1 (getAccessToken_loads_cache denying_http (cookies new_client) None
                  (files cached_world) (str "id") (str " old " ++ [10%N])
                  eq_refl eq_refl ltac:(discriminate) eq_refl eq_refl eq_refl
                  ltac:(discriminate))).
Defined.

Lemma init_success_witness :
  exists w',
    init reference_http no_options new_world = (Initialized, w')
    /\ running (the_client w') = true
    /\ accessToken (the_client w') = Some (str "abc")
    /\ cookies (the_client w') = [(str "NID", str "1"); (PSID, str "id")]
    /\ timers w' = [{| timer_id := 0; delay := 540000%N |}].
Proof.
  destruct (init_success reference_http no_options new_world (str "abc")
              [(str "NID", str "1"); (PSID, str "id")] eq_refl)
    as (w' & Hinit & Hrunning & Htoken & Hcookies & _ & _ & Hon & _).
  destruct (Hon ltac:(discriminate)) as (_ & Htimers).
  exists w'. repeat split; assumption.
Defined.

Lemma init_failure_witness :
  exists w',
    init denying_http no_options cached_world
    = (InitFailure (Error (str "Failed to fetch access token. Status: 401")), w')
    /\ running (the_client w') = false
    /\ cookies (the_client w') = [(PSID, str "id"); (PSIDTS, str "old")].
Proof.
  destruct (init_failure denying_http no_options cached_world
              (Error (str "Failed to fetch access token. Status: 401")) eq_refl)
    as (w' & Hinit & Hrunning & _ & _ & Hcookies & _).
  exists w'. repeat split; assumption.
Defined.

Lemma one_timer_witness :
  length (timers (foldl (act reference_http) new_world
                    [Init no_options; Tick 70000%Z; Init no_options])) <= 1.
Proof.
  apply (proj1 (one_timer reference_http new_world
                  [Init no_options; Tick 70000%Z; Init no_options] eq_refl)).
Defined.

Lemma refresh_throttled_witness :
  refresh reference_http 2000%Z cached_world = cached_world.
Proof.
  apply (proj2 (refresh_throttled reference_http 2000%Z cached_world 1000%Z
                  eq_refl eq_refl eq_refl ltac:(vm_compute; discriminate))).
Defined.

Lemma refresh_rotates_witness :
  property PSIDTS (cookies (the_client (refresh reference_http 70000%Z cached_world)))
  = Some (str "new")
  /\ files (refresh reference_http 70000%Z cached_world)
     = [(cache_path, (str "new", 0%Z))].
Proof.
  destruct (refresh_rotates reference_http 70000%Z cached_world None 200%Z
              [str "SIDCC=9; path=/"] [] (str "new") (str "; Secure") [] []
              [(cache_path, (str "new", 0%Z))]
              eq_refl
              (or_intror (ex_intro _ 1000%Z (conj eq_refl eq_refl)))
              eq_refl eq_refl ltac:(discriminate)
              ltac:(repeat constructor) ltac:(intros a b _; simpl; lia)
              ltac:(discriminate) ltac:(absent)
              eq_refl eq_refl)
    as (Hcookie & Hfiles & _).
  split; [exact Hcookie|exact Hfiles].
Defined.

Lemma normalizeCookies_spellings_witness :
  normalizeCookies (VObj [(str "SECURE_1PSID", VStr (str "a"));
                          (str "secure1PSIDTS", VStr (str "b"))])
  = Some {| secure1PSID := Some (VStr (str "a"));
            secure1PSIDTS := Some (VStr (str "b")) |}.
Proof.
  apply (proj1 (normalizeCookies_spellings (str "SECURE_1PSID") (str "secure1PSIDTS")
                  (VStr (str "a")) (VStr (str "b")) eq_refl eq_refl)).
Defined.

Lemma normalizeCookies_object_witness :
  normalizeCookies (VStr (str "__Secure-1PSID=a")) = None.
Proof.
  apply (normalizeCookies_object (VStr (str "__Secure-1PSID=a"))).
  discriminate.
Defined.
End MoreReferenceProperties.
